(** * agent-chat: a shallow embedding of the orchestration core

    The development follows the TypeScript sources:
    - [src/xmpp/agent-bot.ts]       message splitting, inbound routing and
                                    the rate-limited outbound queue,
    - [src/agents/registry.ts]      the agent registry,
    - [src/state/persistence.ts]    the persisted agent list,
    - [src/agents/recovery.ts]      exit classification and recovery,
    - [src/agents/claude-code.ts]   turn serialisation of one subprocess and
                                    the reading of its output,
    - [src/mcp/tools/permission-prompt.ts]  pending permission requests,
    - [src/xmpp/manager-bot.ts]     the agent-creation dialogue and [kill],
                                    with [path.join] of the runtime,
    - [src/index.ts]                agent start-up and the stop handler,
    - [src/xmpp/client.ts]          reconnection delay and the offline queue,
    - [src/utils/message-queue.ts]  the bounded message queue.

    Definitions come first, grouped in one module per source file; the
    theorems follow. *)

From Stdlib Require Import Ascii NArith ZArith Lia Bool.
From Stdlib Require HexString.
From stdpp Require Import base option list gmap strings pretty.

Local Open Scope nat_scope.

(** ** JavaScript strings

  A JavaScript string is a sequence of UTF-16 code units.  It is modelled
  by [string]; one [ascii] stands for one code unit, so the model covers
  the strings whose code units are below 256.  [length], [slice] and
  [lastIndexOf] count code units, as in the language. *)

Module JS.

Fixpoint length (s : string) : nat :=
  match s with
  | EmptyString => 0
  | String _ s' => S (length s')
  end.

(** [s.slice(0, n)] *)
Fixpoint take (n : nat) (s : string) : string :=
  match n, s with
  | S n', String a s' => String a (take n' s')
  | _, _ => EmptyString
  end.

(** [s.slice(n)] *)
Fixpoint drop (n : nat) (s : string) : string :=
  match n, s with
  | S n', String _ s' => drop n' s'
  | _, _ => s
  end.

(** [s.slice(-n)] *)
Definition slice_last (n : nat) (s : string) : string :=
  drop (length s - n) s.

Fixpoint append (s t : string) : string :=
  match s with
  | EmptyString => t
  | String a s' => String a (append s' t)
  end.

(** [chunks.join('')] *)
Fixpoint concat (l : list string) : string :=
  match l with
  | [] => EmptyString
  | s :: l' => append s (concat l')
  end.

Fixpoint repeat (a : ascii) (n : nat) : string :=
  match n with
  | 0 => EmptyString
  | S n' => String a (repeat a n')
  end.

(** [s.padStart(n, a)] for a one-unit pad string. *)
Definition padStart (n : nat) (a : ascii) (s : string) : string :=
  append (repeat a (n - length s)) s.

(** The greatest index holding [c], if any. *)
Fixpoint lastIndex (c : ascii) (s : string) : option nat :=
  match s with
  | EmptyString => None
  | String a s' =>
      match lastIndex c s' with
      | Some i => Some (S i)
      | None => if Ascii.eqb a c then Some 0 else None
      end
  end.

(** [s.lastIndexOf(c, pos)] for a one-unit search string: the greatest
    index [i <= pos] with [s[i] = c]; [None] stands for [-1]. *)
Definition lastIndexOf (c : ascii) (s : string) (pos : nat) : option nat :=
  lastIndex c (take (S pos) s).

(** White space and line terminators below 256: tab, line feed,
    vertical tab, form feed, carriage return, space, no-break space. *)
Definition is_space (a : ascii) : bool :=
  let n := nat_of_ascii a in
  (9 <=? n) && (n <=? 13) || (n =? 32) || (n =? 160).

Fixpoint trimStart (s : string) : string :=
  match s with
  | EmptyString => EmptyString
  | String a s' => if is_space a then trimStart s' else s
  end.

Fixpoint all_space (s : string) : bool :=
  match s with
  | EmptyString => true
  | String a s' => is_space a && all_space s'
  end.

Fixpoint trimEnd (s : string) : string :=
  match s with
  | EmptyString => EmptyString
  | String a s' => if all_space s then EmptyString else String a (trimEnd s')
  end.

(** [s.trim()] *)
Definition trim (s : string) : string := trimEnd (trimStart s).

Definition lower (a : ascii) : ascii :=
  let n := nat_of_ascii a in
  if (65 <=? n) && (n <=? 90)
     || (192 <=? n) && (n <=? 222) && negb (n =? 215)
  then ascii_of_nat (n + 32) else a.

(** [s.toLowerCase()]: below 256 the upper-case letters are A to Z and
    U+00C0 to U+00DE without the multiplication sign, each 32 below its
    lower-case letter. *)
Fixpoint toLowerCase (s : string) : string :=
  match s with
  | EmptyString => EmptyString
  | String a s' => String (lower a) (toLowerCase s')
  end.

Definition eqb (s t : string) : bool := bool_decide (s = t).

(** [s.startsWith(p)] *)
Fixpoint startsWith (p s : string) : bool :=
  match p, s with
  | EmptyString, _ => true
  | String a p', String b s' => Ascii.eqb a b && startsWith p' s'
  | String _ _, EmptyString => false
  end.

(** [s.includes(p)] *)
Fixpoint includes (p s : string) : bool :=
  startsWith p s ||
  match s with
  | EmptyString => false
  | String _ s' => includes p s'
  end.

(** A JavaScript truthiness test on strings: only [''] is falsy. *)
Definition truthy (s : string) : bool :=
  match s with EmptyString => false | String _ _ => true end.

(** The same test on a string that may be [undefined] or [null]. *)
Definition truthyOpt (o : option string) : bool :=
  match o with Some s => truthy s | None => false end.

(** [n.toString(16)] for a non-negative integer. *)
Definition toString16 (n : N) : string :=
  match n with
  | N0 => "0"
  | Npos p => HexString.Raw.of_pos p EmptyString
  end.

End JS.

(** ** Effects: state passing with exceptions

    A computation reads and writes a store of type [S] and either returns
    a value or throws; the store it leaves is kept in both cases, as after
    a JavaScript [throw]. *)

Inductive outcome (A : Type) : Type :=
| Return (a : A)
| Throw (error : string).
Arguments Return {A} a.
Arguments Throw {A} error.

Definition M (S A : Type) : Type := S → outcome A * S.

Definition ret {S A} (a : A) : M S A := λ s, (Return a, s).

Definition throw {S A} (error : string) : M S A := λ s, (Throw error, s).

Definition bind {S A B} (m : M S A) (k : A → M S B) : M S B :=
  λ s, match m s with
       | (Return a, s') => k a s'
       | (Throw e, s') => (Throw e, s')
       end.

(** [try { m } catch (error) { handler(error) }] *)
Definition tryCatch {S A} (m : M S A) (handler : string → M S A) : M S A :=
  λ s, match m s with
       | (Return a, s') => (Return a, s')
       | (Throw e, s') => handler e s'
       end.

Definition gets {S A} (f : S → A) : M S A := λ s, (Return (f s), s).

Definition modify {S} (f : S → S) : M S unit := λ s, (Return tt, f s).

(** A call of an [async] function throws nothing: it returns a promise,
    which is fulfilled with what the body returns or rejected with what the
    body throws.  The bodies modelled here run to their end once called, so
    the promise is settled when the call returns. *)
Inductive Promise (A : Type) : Type :=
| Fulfilled (a : A)
| Rejected (error : string).
Arguments Fulfilled {A} a.
Arguments Rejected {A} error.

(** The call of an [async] function whose body is [body]. *)
Definition async {S A} (body : M S A) : M S (Promise A) :=
  λ s, match body s with
       | (Return a, s') => (Return (Fulfilled a), s')
       | (Throw e, s') => (Return (Rejected e), s')
       end.

(** [await p] on a settled promise. *)
Definition await {S A} (p : Promise A) : M S A :=
  match p with
  | Fulfilled a => ret a
  | Rejected e => throw e
  end.

Notation "'let*' x ':=' m 'in' k" := (bind m (λ x, k))
  (at level 10, x name, m at level 100, k at level 200, only parsing).
Notation "m1 ';;' m2" := (bind m1 (λ _, m2))
  (at level 100, m2 at level 200, right associativity, only parsing).

(** ** [src/state/persistence.ts] *)

Module Persistence.

Inductive AgentStatus : Type := starting | running | stopping | stopped.

#[export] Instance AgentStatus_eq_dec : EqDecision AgentStatus.
Proof. solve_decision. Defined.

Record Agent : Type := {
  id : string;
  type : string;
  jid : string;
  workDir : string;
  createdAt : string;
  createdBy : string;
  status : AgentStatus;
  pid : option nat;
  sessionId : option string;
}.

#[export] Instance Agent_eq_dec : EqDecision Agent.
Proof. solve_decision. Defined.

(** [StatePersistence]: [agents] is [this.state.agents]; [disk] lists the
    agent lists written by the successive calls of [save], which is taken
    to succeed. *)
Record Store : Type := {
  agents : list Agent;
  disk : list (list Agent);
}.

Definition save (st : Store) : Store :=
  {| agents := agents st; disk := disk st ++ [agents st] |}.

(** [this.state.agents.findIndex(a => a.id === id)] *)
Fixpoint findIndex (agentId : string) (l : list Agent) : option nat :=
  match l with
  | [] => None
  | a :: l' =>
      if bool_decide (id a = agentId) then Some 0
      else S <$> findIndex agentId l'
  end.

Definition upsertAgent (agent : Agent) (st : Store) : Store :=
  save {| agents := match findIndex (id agent) (agents st) with
                    | Some existingIndex => <[existingIndex := agent]> (agents st)
                    | None => agents st ++ [agent]
                    end;
          disk := disk st |}.

Arguments upsertAgent : simpl never.

(** [this.state.agents.find(a => a.id === agentId)] on a list of agents. *)
Definition findAgent (agentId : string) (l : list Agent) : option Agent :=
  head (filter (λ a, id a = agentId) l).

Definition getAgent (agentId : string) (st : Store) : option Agent :=
  findAgent agentId (agents st).

Definition removeAgent (agentId : string) (st : Store) : Store :=
  save {| agents := filter (λ a, id a ≠ agentId) (agents st);
          disk := disk st |}.

(** [{ ...agent, status: 'stopped', pid: undefined }] *)
Definition markStopped (a : Agent) : Agent :=
  {| id := id a; type := type a; jid := jid a; workDir := workDir a;
     createdAt := createdAt a; createdBy := createdBy a; status := stopped;
     pid := None; sessionId := sessionId a |}.

Definition markAllStopped (st : Store) : Store :=
  save {| agents := markStopped <$> agents st; disk := disk st |}.

(** [load]; [file] is the [agents] array of the state file, [None] when
    the file is missing, cannot be parsed or has not the expected shape. *)
Definition load (file : option (list Agent)) (st : Store) : list Agent * Store :=
  match file with
  | Some loadedState =>
      let st' := markAllStopped {| agents := loadedState; disk := disk st |} in
      (agents st', st')
  | None => ([], {| agents := []; disk := disk st |})
  end.

End Persistence.

(** ** [src/agents/registry.ts] *)

Module Registry.

Import Persistence.

(** [AgentRegistry]: the in-memory map and the persistence it writes to.
    [load], [register], [update] and [remove] are [async] functions: what is
    defined below is the body of each, which is what [await registry.f(...)]
    runs in a caller; the call itself is [async] of the body and gives a
    promise. *)
Record State : Type := {
  agents : gmap string Agent;
  persistence : Store;
}.

(** [Partial<Agent>]: [None] for a key that is absent from the object. *)
Record Updates : Type := {
  u_id : option string;
  u_type : option string;
  u_jid : option string;
  u_workDir : option string;
  u_createdAt : option string;
  u_createdBy : option string;
  u_status : option AgentStatus;
  u_pid : option (option nat);
  u_sessionId : option (option string);
}.

Definition noUpdates : Updates :=
  {| u_id := None; u_type := None; u_jid := None; u_workDir := None;
     u_createdAt := None; u_createdBy := None; u_status := None;
     u_pid := None; u_sessionId := None |}.

Definition statusUpdate (s : AgentStatus) : Updates :=
  {| u_id := None; u_type := None; u_jid := None; u_workDir := None;
     u_createdAt := None; u_createdBy := None; u_status := Some s;
     u_pid := None; u_sessionId := None |}.

Definition sessionUpdate (sid : string) : Updates :=
  {| u_id := None; u_type := None; u_jid := None; u_workDir := None;
     u_createdAt := None; u_createdBy := None; u_status := None;
     u_pid := None; u_sessionId := Some (Some sid) |}.

(** [{ ...existing, ...updates, id: existing.id, createdAt: existing.createdAt }] *)
Definition merge (existing : Agent) (updates : Updates) : Agent :=
  {| id := id existing;
     type := default (type existing) (u_type updates);
     jid := default (jid existing) (u_jid updates);
     workDir := default (workDir existing) (u_workDir updates);
     createdAt := createdAt existing;
     createdBy := default (createdBy existing) (u_createdBy updates);
     status := default (status existing) (u_status updates);
     pid := default (pid existing) (u_pid updates);
     sessionId := default (sessionId existing) (u_sessionId updates) |}.

Definition get (agentId : string) (st : State) : option Agent :=
  agents st !! agentId.

Definition update (agentId : string) (updates : Updates) : M State unit :=
  λ st,
    match agents st !! agentId with
    | None => (Throw ("Agent not found: " +:+ agentId), st)
    | Some existing =>
        let updated := merge existing updates in
        (Return tt,
         {| agents := <[agentId := updated]> (agents st);
            persistence := upsertAgent updated (persistence st) |})
    end.

Definition remove (agentId : string) : M State unit :=
  modify (λ st, {| agents := delete agentId (agents st);
                   persistence := removeAgent agentId (persistence st) |}).

Definition ADJECTIVES : list string :=
  ["swift"; "clever"; "bold"; "calm"; "eager";
   "gentle"; "happy"; "keen"; "lucky"; "mighty";
   "noble"; "quick"; "sharp"; "wise"; "brave";
   "bright"; "cool"; "fair"; "grand"; "jolly"].

Definition ANIMALS : list string :=
  ["fox"; "owl"; "bear"; "wolf"; "hawk";
   "deer"; "lynx"; "seal"; "crow"; "dove";
   "hare"; "lion"; "otter"; "panda"; "raven";
   "tiger"; "viper"; "whale"; "zebra"; "badger"].

(** The loop of [generateId].  [draw attempt] gives the two indices
    [Math.floor(Math.random() * 20)] of that attempt. *)
Fixpoint generateIdFrom (draw : nat → nat * nat) (attempts attempt : nat)
    (st : State) : option string :=
  match attempts with
  | 0 => None
  | S attempts' =>
      let adjective := default "" (ADJECTIVES !! fst (draw attempt)) in
      let animal := default "" (ANIMALS !! snd (draw attempt)) in
      let candidate := adjective +:+ "-" +:+ animal in
      match agents st !! candidate with
      | None => Some candidate
      | Some _ => generateIdFrom draw attempts' (S attempt) st
      end
  end.

Definition generateId (draw : nat → nat * nat) : M State string :=
  λ st,
    match generateIdFrom draw 10 0 st with
    | Some newId => (Return newId, st)
    | None => (Throw "Failed to generate unique agent ID after 10 attempts", st)
    end.

(** [register]; [isoNow] is [new Date().toISOString()]. *)
Definition register (draw : nat → nat * nat) (isoNow : string)
    (agent : Agent) : M State Agent :=
  let* newId := generateId draw in
  let newAgent :=
    {| id := newId; type := type agent; jid := jid agent;
       workDir := workDir agent; createdAt := isoNow;
       createdBy := createdBy agent; status := status agent;
       pid := pid agent; sessionId := sessionId agent |} in
  modify (λ st, {| agents := <[newId := newAgent]> (agents st);
                   persistence := upsertAgent newAgent (persistence st) |}) ;;
  ret newAgent.

(** [load]: the map is cleared and filled from the loaded list, a later
    entry replacing an earlier one of the same id. *)
Definition load (file : option (list Agent)) : M State unit :=
  λ st,
    let '(loaded, p) := Persistence.load file (persistence st) in
    (Return tt,
     {| agents := foldl (λ m a, <[id a := a]> m) ∅ loaded;
        persistence := p |}).

End Registry.

(** ** [src/agents/claude-code.ts] *)

Module ClaudeCode.

(** [AgentConfig] of [src/agents/adapter.ts] *)
Record AgentConfig : Type := {
  workDir : string;
  initialPrompt : option string;
  agentId : string;
  mcpServerUrl : string;
  resumeSessionId : option string;
}.

(** One decoded line of the subprocess output, by its [type]. *)
Inductive Content : Type :=
| text (t : string)
| tool_use (toolId name input : string).

Inductive ClaudeCodeEvent : Type :=
| init (session_id assistant_mode : string)
| assistant (content : list Content)
| result (session_id stop_reason : string).

Inductive OutputChunk : Type :=
| chunk_text (content : string)
| chunk_session_started (sessionId assistantMode : string)
| chunk_tool_use (toolId name input : string)
| chunk_turn_complete (sessionId stopReason : string).

(** What the process did, in order: a turn written to the subprocess input
    and a [result] event decoded from its output. *)
Inductive Action : Type :=
| Wrote (turn : string)
| Decoded_result.

#[export] Instance Action_eq_dec : EqDecision Action.
Proof. solve_decision. Defined.

(** [ClaudeCodeProcess].  [stdin] lists the [text] of the turns written by
    [writeMessage], oldest first; [isAlive] is the getter on the
    subprocess; [trace] records the actions above. *)
Record Process : Type := {
  isAlive : bool;
  _sessionId : option string;
  messageQueue : list string;
  isReady : bool;
  stdin : list string;
  trace : list Action;
}.

(** A fresh [ClaudeCodeProcess] on a live subprocess. *)
Definition newProcess : Process :=
  {| isAlive := true; _sessionId := None; messageQueue := [];
     isReady := true; stdin := []; trace := [] |}.

Definition writeMessage (t : string) (p : Process) : Process :=
  {| isAlive := isAlive p; _sessionId := _sessionId p;
     messageQueue := messageQueue p; isReady := false;
     stdin := stdin p ++ [t]; trace := trace p ++ [Wrote t] |}.

Definition send (message : string) : M Process unit :=
  λ p,
    if negb (isAlive p) then
      (Throw "Cannot send message to terminated process", p)
    else if negb (isReady p) then
      (Return tt,
       {| isAlive := isAlive p; _sessionId := _sessionId p;
          messageQueue := messageQueue p ++ [message]; isReady := isReady p;
          stdin := stdin p; trace := trace p |})
    else (Return tt, writeMessage message p).

(** [const next = this.messageQueue.shift(); if (next) ... else ...] *)
Definition processQueue (p : Process) : Process :=
  let shifted :=
    {| isAlive := isAlive p; _sessionId := _sessionId p;
       messageQueue := tail (messageQueue p); isReady := isReady p;
       stdin := stdin p; trace := trace p |} in
  match head (messageQueue p) with
  | Some next =>
      if JS.truthy next then writeMessage next shifted
      else
        {| isAlive := isAlive shifted; _sessionId := _sessionId shifted;
           messageQueue := messageQueue shifted; isReady := true;
           stdin := stdin shifted; trace := trace shifted |}
  | None =>
      {| isAlive := isAlive shifted; _sessionId := _sessionId shifted;
         messageQueue := messageQueue shifted; isReady := true;
         stdin := stdin shifted; trace := trace shifted |}
  end.

Definition setSession (sid : string) (p : Process) : Process :=
  {| isAlive := isAlive p; _sessionId := Some sid;
     messageQueue := messageQueue p; isReady := isReady p;
     stdin := stdin p; trace := trace p |}.

Definition noteResult (p : Process) : Process :=
  {| isAlive := isAlive p; _sessionId := _sessionId p;
     messageQueue := messageQueue p; isReady := isReady p;
     stdin := stdin p; trace := trace p ++ [Decoded_result] |}.

Definition chunkOf (c : Content) : OutputChunk :=
  match c with
  | text t => chunk_text t
  | tool_use i n inp => chunk_tool_use i n inp
  end.

(** The [switch (event.type)] of [createOutputIterator] for one decoded
    line, with the consumer taking every chunk: the chunks yielded and the
    process afterwards.  [None] is a line that [JSON.parse] rejects. *)
Definition handleLine (line : option ClaudeCodeEvent) (p : Process)
    : list OutputChunk * Process :=
  match line with
  | None => ([], p)
  | Some (init sid mode) =>
      ([chunk_session_started sid mode], setSession sid p)
  | Some (assistant content) => (chunkOf <$> content, p)
  | Some (result sid stop) =>
      ([chunk_turn_complete sid stop],
       processQueue (noteResult (setSession sid p)))
  end.

(** The subprocess exits: [isAlive] turns false. *)
Definition exited (p : Process) : Process :=
  {| isAlive := false; _sessionId := _sessionId p;
     messageQueue := messageQueue p; isReady := isReady p;
     stdin := stdin p; trace := trace p |}.

(** What reaches one process: calls of [send], decoded output lines and the
    exit of the subprocess. *)
Inductive Input : Type :=
| Send (message : string)
| Line (line : option ClaudeCodeEvent)
| Exit.

Definition step (i : Input) (p : Process) : Process :=
  match i with
  | Send message => snd (send message p)
  | Line line => snd (handleLine line p)
  | Exit => exited p
  end.

Definition run (inputs : list Input) (p : Process) : Process :=
  foldl (λ q i, step i q) p inputs.

(** The command line built by [ClaudeCodeAdapter.spawn]. *)
Definition spawnArgs (mcpConfigPath : string) (config : AgentConfig) : list string :=
  ["claude"; "-p"; "--verbose"; "--output-format"; "stream-json";
   "--input-format"; "stream-json"; "--permission-prompt-tool";
   "mcp__agent_chat__permission_prompt"; "--mcp-config"; mcpConfigPath]
  ++ match resumeSessionId config with
     | Some sid => if JS.truthy sid then ["--resume"; sid] else []
     | None => []
     end.

(** The process returned by [spawn]: the initial prompt is sent unless
    the session is resumed. *)
Definition spawnedProcess (config : AgentConfig) : Process :=
  if JS.truthyOpt (initialPrompt config) && negb (JS.truthyOpt (resumeSessionId config))
  then snd (send (default "" (initialPrompt config)) newProcess)
  else newProcess.

End ClaudeCode.

(** ** [src/agents/recovery.ts] *)

Module Recovery.

Import Persistence.

(** The store of [AgentRecovery]: the registry and the configurations
    handed to [adapter.spawn], oldest first. *)
Record World : Type := {
  registry : Registry.State;
  spawned : list ClaudeCode.AgentConfig;
}.

Definition onRegistry {A} (m : M Registry.State A) : M World A :=
  λ w, let '(r, st) := m (registry w) in
       (r, {| registry := st; spawned := spawned w |}).

(** [adapter.spawn(config)]: [spawnError config] is the error the call
    throws, if any. *)
Definition spawn (spawnError : ClaudeCode.AgentConfig → option string)
    (config : ClaudeCode.AgentConfig) : M World ClaudeCode.Process :=
  λ w,
    match spawnError config with
    | Some e => (Throw e, w)
    | None =>
        (Return (ClaudeCode.spawnedProcess config),
         {| registry := registry w; spawned := spawned w ++ [config] |})
    end.

Record RecoveryResult : Type := {
  success : bool;
  resumed : bool;
  process : option ClaudeCode.Process;
  error : option string;
}.

(** The [reason] strings of [handleProcessExit]; [Signal c] and [Crash c]
    carry the exit code their text shows. *)
Inductive Reason : Type :=
| Killed      (* 'Process was killed intentionally' *)
| Normal      (* 'Process exited normally' *)
| Signal (exitCode : Z)   (* 'Process terminated by signal (exit code c)' *)
| NotFound    (* 'Command not found - check Claude Code installation' *)
| Crash (exitCode : Z).   (* 'Process crashed with exit code c' *)

Definition handleProcessExit (agent : Agent) (exitCode : option Z)
    : bool * Reason :=
  match exitCode with
  | None => (false, Killed)
  | Some c =>
      if (c =? 0)%Z then (false, Normal)
      else if (128 <=? c)%Z then (false, Signal c)
      else if (c =? 127)%Z then (false, NotFound)
      else (true, Crash c)
  end.

Definition recover (spawnError : ClaudeCode.AgentConfig → option string)
    (mcpServerUrl : string) (agent : Agent) : M World RecoveryResult :=
  tryCatch
    (onRegistry (Registry.update (id agent) (Registry.statusUpdate starting)) ;;
     let canResume := JS.truthyOpt (sessionId agent) in
     let config :=
       {| ClaudeCode.workDir := workDir agent;
          ClaudeCode.initialPrompt := None;
          ClaudeCode.agentId := id agent;
          ClaudeCode.mcpServerUrl := mcpServerUrl;
          ClaudeCode.resumeSessionId :=
            if canResume then sessionId agent else None |} in
     let* proc := spawn spawnError config in
     onRegistry (Registry.update (id agent) (Registry.statusUpdate running)) ;;
     ret {| success := true; resumed := canResume;
            process := Some proc; error := None |})
    (λ errorMessage,
     onRegistry (Registry.update (id agent) (Registry.statusUpdate stopped)) ;;
     ret {| success := false; resumed := false;
            process := None; error := Some errorMessage |}).

Definition attemptAutoRecovery (spawnError : ClaudeCode.AgentConfig → option string)
    (mcpServerUrl : string) (agent : Agent) (exitCode : option Z)
    : M World (option RecoveryResult) :=
  let decision := handleProcessExit agent exitCode in
  if negb (fst decision) then
    onRegistry (Registry.update (id agent) (Registry.statusUpdate stopped)) ;;
    ret None
  else
    let* r := recover spawnError mcpServerUrl agent in
    ret (Some r).

End Recovery.

(** ** [src/mcp/tools/permission-prompt.ts] *)

Module Permission.

Record PermissionResult : Type := {
  approved : bool;
  reason : option string;
}.

(** [PendingPermission].  [createdAt] is [createdAt.getTime()] in
    milliseconds.  The request numbered [n] owns the promise [n] and the
    timer handle [n]: [resolve] names the promise its call settles. *)
Record PendingPermission : Type := {
  id : string;
  agentId : string;
  action : string;
  description : string;
  details : option string;
  createdAt : Z;
  resolve : nat;
  timeoutHandle : nat;
}.

#[export] Instance PendingPermission_eq_dec : EqDecision PendingPermission.
Proof. solve_decision. Defined.

(** A timer set by [setTimeout(callback, timeoutMs)]: it is due at [due];
    its callback deletes the key [requestId] and settles the promise
    numbered [handle]. *)
Record Timer : Type := {
  handle : nat;
  due : Z;
  requestId : string;
}.

(** Which code path called [resolve]. *)
Inductive Cause : Type := by_reply | by_cancel | by_timeout.

(** One call of a [resolve] function. *)
Record Settled : Type := {
  promise : nat;
  at_time : Z;
  cause : Cause;
  result : PermissionResult;
}.

(** A JavaScript [Map] with string keys: the entries in insertion order,
    one per key. *)
Fixpoint map_get {V} (k : string) (m : list (string * V)) : option V :=
  match m with
  | [] => None
  | (k', v) :: m' => if bool_decide (k' = k) then Some v else map_get k m'
  end.

Definition map_has {V} (k : string) (m : list (string * V)) : bool :=
  match map_get k m with Some _ => true | None => false end.

(** [m.set(k, v)]: an existing key keeps its place. *)
Fixpoint map_set {V} (k : string) (v : V) (m : list (string * V))
    : list (string * V) :=
  match m with
  | [] => [(k, v)]
  | (k', v') :: m' =>
      if bool_decide (k' = k) then (k, v) :: m'
      else (k', v') :: map_set k v m'
  end.

Definition map_delete {V} (k : string) (m : list (string * V))
    : list (string * V) :=
  filter (λ e, e.1 ≠ k) m.

Definition map_values {V} (m : list (string * V)) : list V := m.*2.

(** The tool: the [pending] map, the live timers, the calls of [resolve]
    so far, the clock in milliseconds and the number of the next request. *)
Record State : Type := {
  pending : list (string * PendingPermission);
  timers : list Timer;
  settled : list Settled;
  now : Z;
  next : nat;
}.

Definition initial : State :=
  {| pending := []; timers := []; settled := []; now := 0; next := 0 |}.

Definition requestIdOf (draw : N) : string :=
  JS.padStart 4 "0"%char (JS.toString16 draw).

(** The loop of [generateRequestId]: [rand attempt] is
    [Math.floor(Math.random() * 0x10000)] at that attempt. *)
Fixpoint drawRequestId (rand : nat → N) (attempts attempt : nat)
    (m : list (string * PendingPermission)) : option string :=
  match attempts with
  | 0 => None
  | S attempts' =>
      let candidate := requestIdOf (rand attempt) in
      if negb (map_has candidate m) then Some candidate
      else drawRequestId rand attempts' (S attempt) m
  end.

(** [generateRequestId]; [dateNow] is [Date.now()]. *)
Definition generateRequestId (rand : nat → N) (dateNow : Z)
    (m : list (string * PendingPermission)) : string :=
  match drawRequestId rand 100 0 m with
  | Some newId => newId
  | None => JS.slice_last 4 (JS.toString16 (Z.to_N dateNow))
  end.

Definition getPending (agent : string) (m : list (string * PendingPermission))
    : list PendingPermission :=
  filter (λ p, agentId p = agent) (map_values m).

(** [Array.prototype.sort] with the comparator
    [(a, b) => a.createdAt.getTime() - b.createdAt.getTime()]: a stable
    sort, written as an insertion sort. *)
Fixpoint insertByCreatedAt (p : PendingPermission) (l : list PendingPermission)
    : list PendingPermission :=
  match l with
  | [] => [p]
  | q :: l' =>
      if (createdAt q - createdAt p <? 0)%Z then q :: insertByCreatedAt p l'
      else p :: q :: l'
  end.

Definition sortByCreatedAt (l : list PendingPermission) : list PendingPermission :=
  foldr insertByCreatedAt [] l.

Definition findOldestPending (agent : string)
    (m : list (string * PendingPermission)) : option PendingPermission :=
  head (sortByCreatedAt (getPending agent m)).

Definition responseWords : list string :=
  ["yes"; "y"; "ok"; "approve"; "allow"; "no"; "n"; "deny"; "reject"].

Definition isHexDigit (a : ascii) : bool :=
  let n := nat_of_ascii a in
  (48 <=? n) && (n <=? 57) || (97 <=? n) && (n <=? 102).

Fixpoint allHex (s : string) : bool :=
  match s with
  | EmptyString => true
  | String a s' => isHexDigit a && allHex s'
  end.

(** [trimmed.match(/^(?:([a-f0-9]{4})\s+)?(yes|y|ok|approve|allow|no|n|deny|reject)$/)]:
    the two groups of a match, [None] for a group that took no part. *)
Definition matchResponse (trimmed : string) : option (option string * string) :=
  if bool_decide (trimmed ∈ responseWords) then Some (None, trimmed)
  else
    let prefix := JS.take 4 trimmed in
    let rest := JS.drop 4 trimmed in
    let word := JS.trimStart rest in
    if (JS.length prefix =? 4) && allHex prefix
       && (JS.length word <? JS.length rest)
       && bool_decide (word ∈ responseWords)
    then Some (Some prefix, word)
    else None.

(** [clearTimeout(pending.timeoutHandle); this.pending.delete(pending.id);
    pending.resolve(r)] *)
Definition settle (c : Cause) (r : PermissionResult) (p : PendingPermission)
    (st : State) : State :=
  {| pending := map_delete (id p) (pending st);
     timers := filter (λ t, handle t ≠ timeoutHandle p) (timers st);
     settled := settled st ++
       [{| promise := resolve p; at_time := now st; cause := c; result := r |}];
     now := now st;
     next := next st |}.

Definition handleUserResponse (agent message : string) (st : State)
    : bool * State :=
  let trimmed := JS.toLowerCase (JS.trim message) in
  match matchResponse trimmed with
  | None => (false, st)
  | Some (requestId, response) =>
      let approved :=
        bool_decide (response ∈ ["yes"; "y"; "ok"; "approve"; "allow"]) in
      let found :=
        match requestId with
        | Some rid =>
            match map_get rid (pending st) with
            | Some p => if bool_decide (agentId p = agent) then Some p else None
            | None => None
            end
        | None => findOldestPending agent (pending st)
        end in
      match found with
      | None => (true, st)
      | Some p =>
          (true, settle by_reply {| approved := approved; reason := None |} p st)
      end
  end.

Definition cancelAll (agent : string) (st : State) : State :=
  foldl (λ s p, settle by_cancel
                  {| approved := false; reason := Some "cancelled" |} p s)
        st (getPending agent (pending st)).

(** The callback of the timer of [requestPermission]. *)
Definition fire (t : Timer) (st : State) : State :=
  {| pending := map_delete (requestId t) (pending st);
     timers := filter (λ u, handle u ≠ handle t) (timers st);
     settled := settled st ++
       [{| promise := handle t; at_time := now st; cause := by_timeout;
           result := {| approved := false; reason := Some "timeout" |} |}];
     now := now st;
     next := next st |}.

(** [setTimeout(callback, delay)] of Node: a delay above 2147483647 or
    below 1 is set to 1. *)
Definition timerDelay (delay : Z) : Z :=
  if (delay <? 1)%Z || (2147483647 <? delay)%Z then 1%Z else delay.

(** The part of [requestPermission] after [await this.sendMessage(...)]
    returned: the promise is made, its timer is set and the entry is stored
    under the id generated before the wait.  The request is numbered
    [next st]. *)
Definition registerRequest (timeoutMs : Z)
    (newId agentName actionName descr : string) (det : option string)
    (st : State) : State :=
  let n := next st in
  let entry :=
    {| id := newId; agentId := agentName; action := actionName;
       description := descr; details := det; createdAt := now st;
       resolve := n; timeoutHandle := n |} in
  {| pending := map_set newId entry (pending st);
     timers := timers st ++
       [{| handle := n; due := now st + timerDelay timeoutMs;
           requestId := newId |}];
     settled := settled st;
     now := now st;
     next := S n |}.

(** What [requestPermission] gives its caller: a result at once, or the
    promise that is settled later. *)
Inductive Requested : Type :=
| Denied (r : PermissionResult)
| Waiting (promiseNo : nat).

(** [requestPermission] when nothing else runs while the call waits for
    [sendMessage].  [agent] is [this.registry.get(agentId)], [sendFails]
    tells whether [sendMessage] throws.  A call that other calls overtake
    during the wait registers later, against a map that changed meanwhile:
    that is [registerRequest] on its own, the event [Register] below. *)
Definition requestPermission (timeoutMs : Z) (agent : option Persistence.Agent)
    (rand : nat → N) (sendFails : bool)
    (agentName actionName descr : string) (det : option string)
    (st : State) : Requested * State :=
  match agent with
  | None => (Denied {| approved := false; reason := Some "Agent not found" |}, st)
  | Some _ =>
      let newId := generateRequestId rand (now st) (pending st) in
      if sendFails then
        (Denied {| approved := false;
                   reason := Some "Failed to send permission request" |}, st)
      else
        (Waiting (next st),
         registerRequest timeoutMs newId agentName actionName descr det st)
  end.

(** The timer that is due first; among equal times the one set first. *)
Fixpoint earliest (ts : list Timer) : option Timer :=
  match ts with
  | [] => None
  | t :: ts' =>
      match earliest ts' with
      | Some u => if (due u <? due t)%Z then Some u else Some t
      | None => Some t
      end
  end.

Definition setNow (t : Z) (st : State) : State :=
  {| pending := pending st; timers := timers st; settled := settled st;
     now := t; next := next st |}.

(** The event loop lets the clock reach [t]: every timer due by then runs,
    in order, at the time it is due. *)
Fixpoint runTimers (fuel : nat) (t : Z) (st : State) : State :=
  match fuel with
  | 0 => st
  | S fuel' =>
      match earliest (timers st) with
      | Some tm =>
          if (due tm <=? t)%Z
          then runTimers fuel' t (fire tm (setNow (Z.max (now st) (due tm)) st))
          else st
      | None => st
      end
  end.

Definition advance (t : Z) (st : State) : State :=
  let st' := runTimers (length (timers st)) t st in
  setNow (Z.max (now st') t) st'.

(** What reaches the tool.  [Register] is the second part of a call of
    [requestPermission] that waited for [sendMessage] while other events
    ran: its id was generated before them and may be pending by now. *)
Inductive Event : Type :=
| Request (agent : option Persistence.Agent) (rand : nat → N) (sendFails : bool)
    (agentName actionName descr : string) (det : option string)
| Register (newId agentName actionName descr : string) (det : option string)
| Reply (agent message : string)
| CancelAll (agent : string)
| Advance (t : Z).

Definition step (timeoutMs : Z) (e : Event) (st : State) : State :=
  match e with
  | Request agent rand sendFails agentName actionName descr det =>
      snd (requestPermission timeoutMs agent rand sendFails
             agentName actionName descr det st)
  | Register newId agentName actionName descr det =>
      registerRequest timeoutMs newId agentName actionName descr det st
  | Reply agent message => snd (handleUserResponse agent message st)
  | CancelAll agent => cancelAll agent st
  | Advance t => advance t st
  end.

Definition run (timeoutMs : Z) (events : list Event) (st : State) : State :=
  foldl (λ s e, step timeoutMs e s) st events.

End Permission.

(** ** [src/xmpp/agent-bot.ts]: splitting and inbound routing *)

Module AgentBot.

Definition MAX_MESSAGE_SIZE : nat := 64 * 1024.

Definition newline : ascii := ascii_of_nat 10.

(** One pass of the [while (remaining.length > 0)] loop of [splitMessage],
    for a size limit [limit].  [limit * 0.5] is an exact half, so
    [lastNewline > limit * 0.5] is [limit < 2 * lastNewline] on integers. *)
Definition splitIndexOf (limit : nat) (remaining : string) : nat :=
  if limit <? JS.length remaining then
    match JS.lastIndexOf newline remaining limit with
    | Some lastNewline =>
        if limit <? 2 * lastNewline then lastNewline + 1 else limit
    | None => limit
    end
  else JS.length remaining.

Fixpoint splitLoop (limit fuel : nat) (remaining : string)
    (chunks : list string) : list string :=
  match fuel with
  | 0 => chunks
  | S fuel' =>
      if 0 <? JS.length remaining then
        let splitIndex := splitIndexOf limit remaining in
        splitLoop limit fuel' (JS.drop splitIndex remaining)
          (chunks ++ [JS.take splitIndex remaining])
      else chunks
  end.

(** [splitMessage] for a size limit [limit]; every pass of the loop
    removes at least one code unit when [0 < limit], so [length content]
    passes are enough. *)
Definition splitMessageAt (limit : nat) (content : string) : list string :=
  if JS.length content <=? limit then [content]
  else splitLoop limit (JS.length content) content [].

Definition splitMessage (content : string) : list string :=
  splitMessageAt MAX_MESSAGE_SIZE content.

(** [jid.split('/')[0]] *)
Fixpoint bareJid (jid : string) : string :=
  match jid with
  | EmptyString => EmptyString
  | String a jid' =>
      if Ascii.eqb a "/"%char then EmptyString else String a (bareJid jid')
  end.

(** [sendToUser]: nothing for a blank text, else the chunks are pushed on
    the outbound queue. *)
Definition sendToUser (content : string) (messageQueue : list string)
    : list string :=
  if negb (JS.truthy (JS.trim content)) then messageQueue
  else messageQueue ++ splitMessage content.

(** [formatError] of [src/messages/formatter.ts] on a string. *)
Definition formatError (message : string) : string := "Error: " +:+ message.

(** What [handleIncomingMessage] did with a message. *)
Inductive Routed : Type :=
| ignored                    (* unexpected sender *)
| quit_command               (* [handleQuitCommand] *)
| status_command             (* [handleStatusCommand] *)
| help_command               (* [handleHelpCommand] *)
| forwarded (turn : string)  (* [agentProcess.send(trimmed)] returned *)
| send_failed (turn : string). (* [agentProcess.send(trimmed)] threw *)

(** The part of [AgentXMPPHandler] that a message from the user can touch
    before a command handler runs. *)
Record Handler : Type := {
  userJid : string;
  agentProcess : ClaudeCode.Process;
  messageQueue : list string;
}.

Definition handleIncomingMessage (from body : string) (h : Handler)
    : Routed * Handler :=
  if negb (JS.eqb (bareJid from) (bareJid (userJid h))) then (ignored, h)
  else
    let trimmed := JS.trim body in
    let lowerCased := JS.toLowerCase trimmed in
    if JS.eqb lowerCased "quit" || JS.eqb lowerCased "exit" then (quit_command, h)
    else if JS.eqb lowerCased "status" then (status_command, h)
    else if JS.eqb lowerCased "help" || JS.eqb lowerCased "?" then (help_command, h)
    else
      match ClaudeCode.send trimmed (agentProcess h) with
      | (Return _, p) =>
          (forwarded trimmed,
           {| userJid := userJid h; agentProcess := p;
              messageQueue := messageQueue h |})
      | (Throw _, p) =>
          (send_failed trimmed,
           {| userJid := userJid h; agentProcess := p;
              messageQueue :=
                sendToUser (formatError "Failed to send message to agent")
                  (messageQueue h) |})
      end.

End AgentBot.

(** ** [path.join] of [node:path], POSIX *)

Module Path.

Definition separator : ascii := "/"%char.

(** The pieces of [path] between separators, in reverse order; [piece] is
    the piece being read, its characters in reverse order. *)
Fixpoint splitRev (path : string) (piece : string) (pieces : list string)
    : list string :=
  match path with
  | EmptyString => String.rev piece :: pieces
  | String a path' =>
      if Ascii.eqb a separator then splitRev path' EmptyString (String.rev piece :: pieces)
      else splitRev path' (String a piece) pieces
  end.

Definition segments (path : string) : list string :=
  rev (splitRev path EmptyString []).

(** [normalizeString]: empty segments and [.] are dropped; [..] removes
    the segment before it, unless there is none or it is [..] itself: then
    it is kept when [allowAboveRoot] and dropped otherwise.  [res] holds the
    segments kept so far, the last one first. *)
Fixpoint normalizeSegments (allowAboveRoot : bool) (segs : list string)
    (res : list string) : list string :=
  match segs with
  | [] => rev res
  | seg :: segs' =>
      if bool_decide (seg = EmptyString) || bool_decide (seg = ".") then
        normalizeSegments allowAboveRoot segs' res
      else if bool_decide (seg = "..") then
        match res with
        | last :: res' =>
            if bool_decide (last = "..") then
              normalizeSegments allowAboveRoot segs'
                (if allowAboveRoot then ".." :: res else res)
            else normalizeSegments allowAboveRoot segs' res'
        | [] =>
            normalizeSegments allowAboveRoot segs'
              (if allowAboveRoot then [".."] else [])
        end
      else normalizeSegments allowAboveRoot segs' (seg :: res)
  end.

(** [segs.join('/')] *)
Fixpoint joinSegments (segs : list string) : string :=
  match segs with
  | [] => EmptyString
  | [seg] => seg
  | seg :: segs' => seg +:+ "/" +:+ joinSegments segs'
  end.

Fixpoint lastChar (s : string) : option ascii :=
  match s with
  | EmptyString => None
  | String a EmptyString => Some a
  | String _ s' => lastChar s'
  end.

(** [path.normalize(path)] *)
Definition normalize (path : string) : string :=
  match path with
  | EmptyString => "."
  | String first _ =>
      let isAbsolute := Ascii.eqb first separator in
      let trailingSeparator :=
        match lastChar path with
        | Some a => Ascii.eqb a separator
        | None => false
        end in
      let normalized :=
        joinSegments (normalizeSegments (negb isAbsolute) (segments path) []) in
      match normalized with
      | EmptyString =>
          if isAbsolute then "/" else if trailingSeparator then "./" else "."
      | _ =>
          (if isAbsolute then "/" else EmptyString)
          +:+ normalized
          +:+ (if trailingSeparator then "/" else EmptyString)
      end
  end.

(** [path.join(a, b)] on two strings: the arguments that are not empty
    are joined by a separator and the result is normalised. *)
Definition join (a b : string) : string :=
  match a, b with
  | EmptyString, EmptyString => "."
  | EmptyString, _ => normalize b
  | _, EmptyString => normalize a
  | _, _ => normalize (a +:+ "/" +:+ b)
  end.

End Path.

(** ** [src/xmpp/manager-bot.ts]: the agent-creation dialogue *)

Module ManagerBot.

Import Persistence.

Inductive Step : Type := idle | awaiting_type | awaiting_repo | awaiting_task.

Record ConversationState : Type := {
  step : Step;
  agentType : option string;
  repo : option string;
}.

Record AgentCreatedEvent : Type := {
  agent : Agent;
  initialPrompt : string;
}.

(** What the bot reads from outside: the sorted directory names of
    [getAvailableRepos], the configuration, the random draws of the two
    calls of [generateId], the generated password, the clock, the error
    [createUser] throws, if any, and the message of the [TypeError] that
    [path.join] throws for an argument that is [undefined], whose text is
    the runtime's. *)
Record Env : Type := {
  repos : list string;
  basePath : string;
  domain : string;
  draw1 : nat → nat * nat;
  draw2 : nat → nat * nat;
  password : string;
  isoNow : string;
  createUserError : option string;
  joinTypeError : string;
}.

(** What the bot owns or writes: the conversation of each user, the
    registry, the messages sent ([to], [body]), the XMPP users created and
    the events given to the [onAgentCreated] callbacks. *)
Record World : Type := {
  conversations : gmap string ConversationState;
  registry : Registry.State;
  sent : list (string * string);
  xmppUsers : list (string * string);
  created : list AgentCreatedEvent;
}.

Definition onRegistry {A} (m : M Registry.State A) : M World A :=
  λ w, let '(r, st) := m (registry w) in
       (r, {| conversations := conversations w; registry := st;
              sent := sent w; xmppUsers := xmppUsers w;
              created := created w |}).

(** [this.sendMessage(to, body)]; a failure to send is logged, not thrown. *)
Definition sendMessage (to body : string) : M World unit :=
  modify (λ w, {| conversations := conversations w; registry := registry w;
                  sent := sent w ++ [(to, body)]; xmppUsers := xmppUsers w;
                  created := created w |}).

(** An assignment to a field of the [state] object of [userJid]. *)
Definition setState (userJid : string) (f : ConversationState → ConversationState)
    : M World unit :=
  modify (λ w, {| conversations := alter f userJid (conversations w);
                  registry := registry w; sent := sent w;
                  xmppUsers := xmppUsers w; created := created w |}).

Definition setStep (s : Step) (c : ConversationState) : ConversationState :=
  {| step := s; agentType := agentType c; repo := repo c |}.

Definition createUser (env : Env) (username pass : string) : M World unit :=
  match createUserError env with
  | Some e => throw e
  | None =>
      modify (λ w, {| conversations := conversations w; registry := registry w;
                      sent := sent w;
                      xmppUsers := xmppUsers w ++ [(username, pass)];
                      created := created w |})
  end.

Definition emitAgentCreated (e : AgentCreatedEvent) : M World unit :=
  modify (λ w, {| conversations := conversations w; registry := registry w;
                  sent := sent w; xmppUsers := xmppUsers w;
                  created := created w ++ [e] |}).

Definition startAgentCreation (userJid : string) : M World unit :=
  setState userJid (setStep awaiting_type) ;;
  sendMessage userJid ("What type of agent?" +:+ "
" +:+ "[1] Claude Code").

(** [repos.map((repo, idx) => `[${idx + 1}] ${repo}`).join('\n')] *)
Fixpoint repoList (idx : nat) (l : list string) : string :=
  match l with
  | [] => ""
  | [r] => "[" +:+ pretty (idx + 1) +:+ "] " +:+ r
  | r :: l' => "[" +:+ pretty (idx + 1) +:+ "] " +:+ r +:+ "
" +:+ repoList (S idx) l'
  end.

Definition handleTypeSelection (env : Env) (userJid input : string) : M World unit :=
  if JS.eqb input "1" || JS.includes "claude" (JS.toLowerCase input) then
    setState userJid (λ c, {| step := awaiting_repo;
                              agentType := Some "claude-code";
                              repo := repo c |}) ;;
    if bool_decide (length (repos env) = 0) then
      sendMessage userJid
        ("No repositories found in " +:+ basePath env
         +:+ ". Please add some repositories first.") ;;
      setState userJid (setStep idle)
    else
      sendMessage userJid
        ("Available repos:" +:+ "
" +:+ repoList 0 (repos env) +:+ "

" +:+ "Select a number or type a repo name:")
  else
    sendMessage userJid
      "Invalid selection. Please enter '1' for Claude Code or type 'cancel' to abort.".

Definition digitValue (radix : nat) (a : ascii) : option nat :=
  let n := nat_of_ascii a in
  let v := if (48 <=? n) && (n <=? 57) then Some (n - 48)
           else if (97 <=? n) && (n <=? 122) then Some (n - 87)
           else if (65 <=? n) && (n <=? 90) then Some (n - 55)
           else None in
  match v with
  | Some d => if d <? radix then Some d else None
  | None => None
  end.

Fixpoint digitsValue (radix : nat) (acc : option nat) (s : string) : option nat :=
  match s with
  | EmptyString => acc
  | String a s' =>
      match digitValue radix a with
      | Some d => digitsValue radix (Some (default 0 acc * radix + d)) s'
      | None => acc
      end
  end.

(** [parseInt(input)] without a radix: white space, a sign, a [0x] prefix,
    then the longest run of digits; [None] is [NaN]. *)
Definition parseInt (input : string) : option Z :=
  let s := JS.trimStart input in
  let '(negative, s) :=
    match s with
    | String "-" s' => (true, s')
    | String "+" s' => (false, s')
    | _ => (false, s)
    end in
  let magnitude :=
    match s with
    | String "0" (String "x" s') => digitsValue 16 None s'
    | String "0" (String "X" s') => digitsValue 16 None s'
    | _ => digitsValue 10 None s
    end in
  (λ n, if negative : bool then (- Z.of_nat n)%Z else Z.of_nat n) <$> magnitude.

Definition handleRepoSelection (env : Env) (userJid input : string) : M World unit :=
  if JS.eqb (JS.toLowerCase input) "cancel" then
    setState userJid (setStep idle) ;;
    sendMessage userJid "Agent creation cancelled."
  else
    let byNumber :=
      match parseInt input with
      | Some selection =>
          if (1 <=? selection)%Z && (selection <=? Z.of_nat (length (repos env)))%Z
          then Some (repos env !! Z.to_nat (selection - 1))
          else None
      | None => None
      end in
    let selectedRepo :=
      match byNumber with
      | Some r => r
      | None =>
          head (filter (λ r, JS.toLowerCase r = JS.toLowerCase input) (repos env))
      end in
    if JS.truthyOpt selectedRepo then
      setState userJid (λ c, {| step := awaiting_task;
                                agentType := agentType c;
                                repo := selectedRepo |}) ;;
      sendMessage userJid "Great! What's the initial task for the agent?"
    else
      sendMessage userJid
        "Invalid selection. Please enter a number from the list or type 'cancel' to abort.".

Definition resetState (c : ConversationState) : ConversationState :=
  {| step := idle; agentType := None; repo := None |}.

(** [handleTaskInput]; [selected] is [state.repo] when the call starts. *)
Definition handleTaskInput (env : Env) (userJid input : string)
    (selected : option string) : M World unit :=
  if JS.eqb (JS.toLowerCase input) "cancel" then
    setState userJid (setStep idle) ;;
    sendMessage userJid "Agent creation cancelled."
  else
    tryCatch
      (let* repoName :=
         match selected with
         | Some r => ret r
         | None => throw (joinTypeError env)
         end in
       let workDirectory := Path.join (basePath env) repoName in
       let* agentId := onRegistry (Registry.generateId (draw1 env)) in
       let agentJid := agentId +:+ "@" +:+ domain env in
       createUser env agentId (password env) ;;
       let* newAgent :=
         onRegistry (Registry.register (draw2 env) (isoNow env)
           {| id := ""; type := "claude-code"; jid := agentJid;
              workDir := workDirectory; createdAt := "";
              createdBy := userJid; status := starting;
              pid := None; sessionId := None |}) in
       setState userJid resetState ;;
       sendMessage userJid
         ("Agent " +:+ id newAgent +:+ " created. Chat at " +:+ jid newAgent) ;;
       emitAgentCreated {| agent := newAgent; initialPrompt := input |})
      (λ e,
       sendMessage userJid ("Failed to create agent: " +:+ e) ;;
       setState userJid resetState).

Definition handleConversationStep (env : Env) (userJid input : string)
    (state : ConversationState) : M World unit :=
  match step state with
  | awaiting_type => handleTypeSelection env userJid input
  | awaiting_repo => handleRepoSelection env userJid input
  | awaiting_task => handleTaskInput env userJid input (repo state)
  | idle => ret tt
  end.

(** [jid.split('@')[0]] *)
Fixpoint localPart (jid : string) : string :=
  match jid with
  | EmptyString => EmptyString
  | String a jid' =>
      if Ascii.eqb a "@"%char then EmptyString else String a (localPart jid')
  end.

(** [xmppAdmin.deleteUser(username)]; [deleteUserError] is the error it
    throws, if any. *)
Definition deleteUser (deleteUserError : option string) (username : string)
    : M World unit :=
  match deleteUserError with
  | Some e => throw e
  | None =>
      modify (λ w, {| conversations := conversations w; registry := registry w;
                      sent := sent w;
                      xmppUsers := filter (λ u, u.1 ≠ username) (xmppUsers w);
                      created := created w |})
  end.

(** [killAgent].  The signal sent to [agent.pid] is in a [try] block of
    its own and touches nothing of this store. *)
Definition killAgent (deleteUserError : option string)
    (userJid agentId : string) : M World unit :=
  let* found := gets (λ w, Registry.get agentId (registry w)) in
  match found with
  | None => sendMessage userJid ("Agent not found: " +:+ agentId)
  | Some a =>
      tryCatch
        (onRegistry (Registry.update agentId (Registry.statusUpdate stopping)) ;;
         deleteUser deleteUserError (localPart (jid a)) ;;
         onRegistry (Registry.remove agentId) ;;
         sendMessage userJid ("Agent " +:+ agentId +:+ " killed and removed."))
        (λ e, sendMessage userJid ("Failed to kill agent: " +:+ e))
  end.

End ManagerBot.

(** ** [src/index.ts]: the handlers installed by [handleAgentCreated] *)

Module Index.

Import Persistence.

(** The module-level store: the recovery manager with the registry, the
    permission tool and the keys of [agentHandlers]. *)
Record World : Type := {
  recovery : Recovery.World;
  permissionTool : Permission.State;
  agentHandlers : list string;
}.

Inductive StopReason : Type := user_quit | process_exit | error.

#[export] Instance StopReason_eq_dec : EqDecision StopReason.
Proof. solve_decision. Defined.

Definition onRecovery {A} (m : M Recovery.World A) : M World A :=
  λ w, let '(r, rw) := m (recovery w) in
       (r, {| recovery := rw; permissionTool := permissionTool w;
              agentHandlers := agentHandlers w |}).

Definition registryGet (agentId : string) : M World (option Agent) :=
  gets (λ w, Registry.get agentId (Recovery.registry (recovery w))).

Definition registryUpdate (agentId : string) (u : Registry.Updates) : M World unit :=
  onRecovery (Recovery.onRegistry (Registry.update agentId u)).

(** The callback given to [handler.onStopped]. *)
Definition onStopped (spawnError : ClaudeCode.AgentConfig → option string)
    (mcpServerUrl : string) (agentId : string) (reason : StopReason)
    : M World unit :=
  modify (λ w, {| recovery := recovery w;
                  permissionTool := permissionTool w;
                  agentHandlers := filter (λ k, k ≠ agentId) (agentHandlers w) |}) ;;
  modify (λ w, {| recovery := recovery w;
                  permissionTool := Permission.cancelAll agentId (permissionTool w);
                  agentHandlers := agentHandlers w |}) ;;
  registryUpdate agentId (Registry.statusUpdate stopped) ;;
  if bool_decide (reason = process_exit) then
    let* currentAgent := registryGet agentId in
    match currentAgent with
    | Some a =>
        let* recoveryResult :=
          onRecovery (Recovery.attemptAutoRecovery spawnError mcpServerUrl a None) in
        ret tt
    | None => ret tt
    end
  else ret tt.

(** The callback given to [agentProcess.onExit]; [processSession] is
    [agentProcess.sessionId]. *)
Definition onExit (agentId : string) (processSession : option string)
    (exitCode : option Z) : M World unit :=
  match exitCode with
  | Some c =>
      if negb (c =? 0)%Z then
        let* currentAgent := registryGet agentId in
        match currentAgent with
        | Some a =>
            if bool_decide (status a = running) then
              match processSession with
              | Some sid =>
                  if JS.truthy sid then
                    registryUpdate agentId (Registry.sessionUpdate sid)
                  else ret tt
              | None => ret tt
              end
            else ret tt
        | None => ret tt
        end
      else ret tt
  | None => ret tt
  end.

(** The subprocess of [agentId] exits with [exitCode]: the exit callback
    runs, the output stream ends and the handler reports [process_exit]. *)
Definition processExited (spawnError : ClaudeCode.AgentConfig → option string)
    (mcpServerUrl : string) (agentId : string) (processSession : option string)
    (exitCode : option Z) : M World unit :=
  onExit agentId processSession exitCode ;;
  onStopped spawnError mcpServerUrl agentId process_exit.

(** [agentHandlers.set(agentId, handler)] on the keys of the map. *)
Definition setHandler (agentId : string) (keys : list string) : list string :=
  if bool_decide (agentId ∈ keys) then keys else keys ++ [agentId].

(** [handleAgentCreated]; [connectError] is the error that
    [agentXmppClient.connect()] throws, if any. *)
Definition handleAgentCreated (connectError : option string)
    (spawnError : ClaudeCode.AgentConfig → option string)
    (mcpServerUrl : string) (event : ManagerBot.AgentCreatedEvent)
    : M World unit :=
  let agent := ManagerBot.agent event in
  tryCatch
    (match connectError with
     | Some e => throw e
     | None => ret tt
     end ;;
     let* agentProcess :=
       onRecovery (Recovery.spawn spawnError
         {| ClaudeCode.workDir := workDir agent;
            ClaudeCode.initialPrompt := Some (ManagerBot.initialPrompt event);
            ClaudeCode.agentId := id agent;
            ClaudeCode.mcpServerUrl := mcpServerUrl;
            ClaudeCode.resumeSessionId := None |}) in
     registryUpdate (id agent) (Registry.statusUpdate running) ;;
     modify (λ w, {| recovery := recovery w;
                     permissionTool := permissionTool w;
                     agentHandlers := setHandler (id agent) (agentHandlers w) |}))
    (λ e,
     registryUpdate (id agent) (Registry.statusUpdate stopped) ;;
     throw e).

End Index.

(** ** [src/xmpp/agent-bot.ts]: the rate-limited outbound queue *)

Module AgentBotQueue.

Definition MAX_MESSAGES_PER_SECOND : nat := 10.
Definition RATE_LIMIT_WINDOW_MS : Z := 1000.

(** The sending side of [AgentXMPPHandler].  [clock] is the time that
    [Date.now()] last gave; [delivered] lists the messages that
    [xmppClient.sendMessage] accepted, each with the timestamp pushed for
    it, oldest first. *)
Record Sender : Type := {
  isRunning : bool;
  messageQueue : list string;
  messageTimestamps : list Z;
  clock : Z;
  delivered : list (Z * string);
}.

(** What happens around one pass of the [while] loop of
    [processMessageQueue]: [lag] milliseconds go by before [Date.now()] is
    read, the send takes [sendTime] milliseconds and succeeds or throws, a
    timer fires [overrun] milliseconds after its delay, the chunks
    [arrivals] are pushed by [sendToUser] before the next pass, and the
    handler may be stopped meanwhile. *)
Record Pass : Type := {
  lag : N;
  sendOk : bool;
  sendTime : N;
  overrun : N;
  arrivals : list string;
  stops : bool;
}.

(** The state after the awaits of a pass: the clock reads [time], the
    queue is [queue] followed by the arrivals. *)
Definition resume (e : Pass) (time : Z) (queue : list string)
    (stamps : list Z) (sent : list (Z * string)) (s : Sender) : Sender :=
  {| isRunning := isRunning s && negb (stops e);
     messageQueue := queue ++ arrivals e;
     messageTimestamps := stamps;
     clock := time;
     delivered := sent |}.

(** [const message = this.messageQueue.shift(); if (message) { ... }] *)
Definition sendNext (e : Pass) (now : Z) (stamps : list Z) (s : Sender) : Sender :=
  match messageQueue s with
  | message :: rest =>
      if JS.truthy message then
        if sendOk e then
          let stamp := (now + Z.of_N (sendTime e))%Z in
          resume e stamp rest (stamps ++ [stamp])
            (delivered s ++ [(stamp, message)]) s
        else
          resume e (now + Z.of_N (sendTime e) + 1000 + Z.of_N (overrun e))%Z
            (message :: rest) stamps (delivered s) s
      else resume e now rest stamps (delivered s) s
  | [] => resume e now [] stamps (delivered s) s
  end.

(** One pass of the loop body. *)
Definition pass (e : Pass) (s : Sender) : Sender :=
  let now := (clock s + Z.of_N (lag e))%Z in
  let stamps :=
    filter (λ ts, (now - ts < RATE_LIMIT_WINDOW_MS)%Z) (messageTimestamps s) in
  if MAX_MESSAGES_PER_SECOND <=? length stamps then
    let oldestTimestamp := default 0%Z (head stamps) in
    let waitTime := (RATE_LIMIT_WINDOW_MS - (now - oldestTimestamp))%Z in
    if (0 <? waitTime)%Z then
      resume e (now + waitTime + Z.of_N (overrun e))%Z (messageQueue s)
        stamps (delivered s) s
    else sendNext e now stamps s
  else sendNext e now stamps s.

(** One step of the handler's sending side: a pass of the loop while
    [this.messageQueue.length > 0 && this.isRunning]; otherwise no loop is
    running, time goes by and [sendToUser] pushes the arrivals. *)
Definition step (e : Pass) (s : Sender) : Sender :=
  if (0 <? length (messageQueue s)) && isRunning s then pass e s
  else
    {| isRunning := isRunning s && negb (stops e);
       messageQueue := messageQueue s ++ arrivals e;
       messageTimestamps := messageTimestamps s;
       clock := (clock s + Z.of_N (lag e))%Z;
       delivered := delivered s |}.

Definition run (passes : list Pass) (s : Sender) : Sender :=
  foldl (λ q e, step e q) s passes.

(** The sending side of a handler that was just started, at the time
    [time]. *)
Definition started (time : Z) : Sender :=
  {| isRunning := true; messageQueue := []; messageTimestamps := [];
     clock := time; delivered := [] |}.

End AgentBotQueue.

(** ** [src/agents/claude-code.ts]: reading the subprocess output *)

Module ClaudeCodeOutput.

(** [s.split(sep)] for a one-unit separator: the pieces between the
    separators, at least one. *)
Fixpoint split (sep : ascii) (s : string) : list string :=
  match s with
  | EmptyString => [EmptyString]
  | String a s' =>
      if Ascii.eqb a sep then EmptyString :: split sep s'
      else
        match split sep s' with
        | piece :: pieces => String a piece :: pieces
        | [] => [String a EmptyString]
        end
  end.

(** One read of the loop of [createOutputIterator]: the complete lines
    and the new buffer.
    [buffer += chunk; lines = buffer.split('\n'); buffer = lines.pop() || ''] *)
Definition readChunk (chunk buffer : string) : list string * string :=
  let lines := split AgentBot.newline (JS.append buffer chunk) in
  (removelast lines, default EmptyString (last lines)).

(** The [for (const line of lines)] loop: blank lines are skipped, the
    others are parsed and handled.  [parse line] is the event that
    [JSON.parse(line)] gives, [None] when it throws. *)
Fixpoint handleLines (parse : string → option ClaudeCode.ClaudeCodeEvent)
    (lines : list string) (p : ClaudeCode.Process)
    : list ClaudeCode.OutputChunk * ClaudeCode.Process :=
  match lines with
  | [] => ([], p)
  | line :: lines' =>
      if negb (JS.truthy (JS.trim line)) then handleLines parse lines' p
      else
        let '(chunks, p') := ClaudeCode.handleLine (parse line) p in
        let '(chunks', p'') := handleLines parse lines' p' in
        (chunks ++ chunks', p'')
  end.

(** The output iterator run to the end of the stream on the decoded
    chunks [reads], the consumer taking every chunk: what it yields and the
    process afterwards.  The buffer left at the end is dropped. *)
Fixpoint readAll (parse : string → option ClaudeCode.ClaudeCodeEvent)
    (reads : list string) (buffer : string) (p : ClaudeCode.Process)
    : list ClaudeCode.OutputChunk * ClaudeCode.Process :=
  match reads with
  | [] => ([], p)
  | value :: reads' =>
      let '(lines, buffer') := readChunk value buffer in
      let '(chunks, p') := handleLines parse lines p in
      let '(chunks', p'') := readAll parse reads' buffer' p' in
      (chunks ++ chunks', p'')
  end.

End ClaudeCodeOutput.

(** ** [src/xmpp/client.ts]: reconnection and the offline queue *)

Module XMPPClient.

Definition maxReconnectDelay : N := 60000.

(** The delay of [scheduleReconnect], in milliseconds:
    [Math.min(1000 * Math.pow(2, this.reconnectAttempts), this.maxReconnectDelay)] *)
Definition reconnectDelay (reconnectAttempts : N) : N :=
  N.min (1000 * 2 ^ reconnectAttempts) maxReconnectDelay.

Record QueuedMessage : Type := {
  to : string;
  body : string;
}.

(** The part of [XMPPClient] that sending touches.  [wire] lists the
    message stanzas that [client.send] accepted, oldest first. *)
Record Client : Type := {
  _isConnected : bool;
  hasClient : bool;
  messageQueue : list QueuedMessage;
  wire : list QueuedMessage;
}.

(** [sendMessage]; [sendError] is the error that [client.send] throws for
    this stanza, if any. *)
Definition sendMessage (sendError : option string) (m : QueuedMessage)
    : M Client unit :=
  λ c,
    if negb (_isConnected c) then
      (Return tt,
       {| _isConnected := _isConnected c; hasClient := hasClient c;
          messageQueue := messageQueue c ++ [m]; wire := wire c |})
    else if negb (hasClient c) then (Throw "Client not initialized", c)
    else
      match sendError with
      | Some e => (Throw e, c)
      | None =>
          (Return tt,
           {| _isConnected := _isConnected c; hasClient := hasClient c;
              messageQueue := messageQueue c; wire := wire c ++ [m] |})
      end.

(** The [for] loop of [flushMessageQueue]; [sendErrors] gives the error of
    each send in turn, none once the list is used up. *)
Fixpoint flushLoop (sendErrors : list (option string))
    (messages : list QueuedMessage) (c : Client) : Client :=
  match messages with
  | [] => c
  | m :: messages' =>
      let c' :=
        match sendMessage (default None (head sendErrors)) m c with
        | (Return _, c') => c'
        | (Throw _, c') =>
            {| _isConnected := _isConnected c'; hasClient := hasClient c';
               messageQueue := messageQueue c' ++ [m]; wire := wire c' |}
        end in
      flushLoop (tail sendErrors) messages' c'
  end.

Definition flushMessageQueue (sendErrors : list (option string)) (c : Client)
    : Client :=
  match messageQueue c with
  | [] => c
  | messages =>
      flushLoop sendErrors messages
        {| _isConnected := _isConnected c; hasClient := hasClient c;
           messageQueue := []; wire := wire c |}
  end.

End XMPPClient.

(** ** [src/utils/message-queue.ts] *)

Module MessageQueue.

Record QueuedMessage : Type := {
  to : string;
  message : string;
  timestamp : Z;
}.

Record Queue : Type := {
  queue : list QueuedMessage;
  maxSize : nat;
  maxAgeMs : Z;
}.

(** [prune] at the time [now]: the queue afterwards and the number of
    messages removed. *)
Definition prune (now : Z) (q : Queue) : nat * Queue :=
  let kept := filter (λ msg, (now - timestamp msg < maxAgeMs q)%Z) (queue q) in
  (length (queue q) - length kept,
   {| queue := kept; maxSize := maxSize q; maxAgeMs := maxAgeMs q |}).

(** [while (this.queue.length > this.maxSize) this.queue.shift()] *)
Fixpoint shiftWhile (fuel : nat) (maxSize : nat) (l : list QueuedMessage)
    : list QueuedMessage :=
  match fuel with
  | 0 => l
  | S fuel' =>
      if maxSize <? length l then shiftWhile fuel' maxSize (tail l) else l
  end.

(** [enqueue]; [now] is read by [prune], [stamp] by [new Date()]. *)
Definition enqueue (now stamp : Z) (recipient text : string) (q : Queue) : Queue :=
  let pruned := snd (prune now q) in
  let pushed :=
    queue pruned ++ [{| to := recipient; message := text; timestamp := stamp |}] in
  {| queue := shiftWhile (length pushed) (maxSize q) pushed;
     maxSize := maxSize q; maxAgeMs := maxAgeMs q |}.

End MessageQueue.

(** * Theorems *)

Section JSFacts.

Lemma length_append s t : JS.length (JS.append s t) = JS.length s + JS.length t.
Proof. induction s as [|a s IH]; simpl; [done | by rewrite IH]. Qed.

Lemma append_empty_r s : JS.append s EmptyString = s.
Proof. induction s as [|a s IH]; simpl; [done | by rewrite IH]. Qed.

Lemma append_assoc s t u :
  JS.append (JS.append s t) u = JS.append s (JS.append t u).
Proof. induction s as [|a s IH]; simpl; [done | by rewrite IH]. Qed.

Lemma take_drop n s : JS.append (JS.take n s) (JS.drop n s) = s.
Proof.
  revert s; induction n as [|n IH]; intros [|a s]; simpl; try done.
  by rewrite IH.
Qed.

Lemma length_take n s : JS.length (JS.take n s) = Nat.min n (JS.length s).
Proof.
  revert s; induction n as [|n IH]; intros [|a s]; simpl; try done.
  by rewrite IH.
Qed.

Lemma length_drop n s : JS.length (JS.drop n s) = JS.length s - n.
Proof.
  revert s; induction n as [|n IH]; intros [|a s]; simpl; try done.
Qed.

Lemma length_repeat a n : JS.length (JS.repeat a n) = n.
Proof. induction n as [|n IH]; simpl; [done | by rewrite IH]. Qed.

Lemma concat_app l1 l2 :
  JS.concat (l1 ++ l2) = JS.append (JS.concat l1) (JS.concat l2).
Proof.
  induction l1 as [|s l1 IH]; simpl; [done |].
  by rewrite IH, append_assoc.
Qed.

Lemma lastIndex_lt c s i : JS.lastIndex c s = Some i → i < JS.length s.
Proof.
  revert i; induction s as [|a s IH]; simpl; intros i; [done |].
  destruct (JS.lastIndex c s) as [j|].
  - intros [= <-]. specialize (IH j eq_refl). lia.
  - destruct (Ascii.eqb a c); intros [= <-]. lia.
Qed.

End JSFacts.

Section SplitMessage.

Import AgentBot.

Lemma splitIndexOf_pos limit remaining :
  0 < limit → 0 < JS.length remaining → 0 < splitIndexOf limit remaining.
Proof.
  intros Hl Hr. unfold splitIndexOf.
  destruct (limit <? JS.length remaining) eqn:E; [|done].
  destruct (JS.lastIndexOf newline remaining limit) as [i|]; [|done].
  destruct (limit <? 2 * i); lia.
Qed.

Lemma splitLoop_concat limit fuel remaining chunks :
  0 < limit → JS.length remaining ≤ fuel →
  JS.concat (splitLoop limit fuel remaining chunks)
  = JS.append (JS.concat chunks) remaining.
Proof.
  intros Hl. revert remaining chunks.
  induction fuel as [|fuel IH]; intros remaining chunks Hf; simpl.
  - destruct remaining; simpl in Hf; [by rewrite append_empty_r | lia].
  - destruct (0 <? JS.length remaining) eqn:E.
    + apply Nat.ltb_lt in E.
      pose proof (splitIndexOf_pos limit remaining Hl E) as Hp.
      rewrite IH by (rewrite length_drop; lia).
      rewrite concat_app; simpl. rewrite append_empty_r, append_assoc.
      by rewrite take_drop.
    + apply Nat.ltb_ge in E. destruct remaining; simpl in E; [|lia].
      by rewrite append_empty_r.
Qed.

Lemma splitMessageAt_concat limit content :
  0 < limit → JS.concat (splitMessageAt limit content) = content.
Proof.
  intros Hl. unfold splitMessageAt.
  destruct (JS.length content <=? limit).
  - simpl. apply append_empty_r.
  - by rewrite splitLoop_concat.
Qed.

Lemma MAX_MESSAGE_SIZE_pos : 0 < MAX_MESSAGE_SIZE.
Proof. unfold MAX_MESSAGE_SIZE. lia. Qed.

Lemma splitIndexOf_le limit remaining :
  splitIndexOf limit remaining ≤ limit + 1.
Proof.
  unfold splitIndexOf.
  destruct (limit <? JS.length remaining) eqn:E.
  - destruct (JS.lastIndexOf newline remaining limit) as [i|] eqn:L; [| lia].
    destruct (limit <? 2 * i); [| lia].
    apply lastIndex_lt in L. rewrite length_take in L. lia.
  - apply Nat.ltb_ge in E. lia.
Qed.

Lemma splitLoop_bounded limit fuel remaining chunks :
  Forall (λ c, JS.length c ≤ limit + 1) chunks →
  Forall (λ c, JS.length c ≤ limit + 1) (splitLoop limit fuel remaining chunks).
Proof.
  revert remaining chunks.
  induction fuel as [|fuel IH]; intros remaining chunks H; simpl; [done |].
  destruct (0 <? JS.length remaining); [| done].
  apply IH. apply Forall_app. split; [done |].
  constructor; [| constructor].
  rewrite length_take. pose proof (splitIndexOf_le limit remaining). lia.
Qed.

(** What the code keeps: no chunk is longer than the limit plus one. *)
Lemma splitMessage_chunks_bounded content :
  Forall (λ c, JS.length c ≤ MAX_MESSAGE_SIZE + 1) (splitMessage content).
Proof.
  unfold splitMessage, splitMessageAt.
  destruct (JS.length content <=? MAX_MESSAGE_SIZE) eqn:E.
  - apply Nat.leb_le in E. constructor; [lia | constructor].
  - apply splitLoop_bounded. constructor.
Qed.

End SplitMessage.

Section SplitMessageClaims.

Import AgentBot.

(** C7: for every text longer than [MAX_MESSAGE_SIZE], joining the chunks
    of [splitMessage] in order gives back the text. *)
Theorem splitMessage_roundtrip (content : string) :
  MAX_MESSAGE_SIZE < JS.length content →
  JS.concat (splitMessage content) = content.
Proof.
  intros _. apply splitMessageAt_concat, MAX_MESSAGE_SIZE_pos.
Qed.

(** A text of [MAX_MESSAGE_SIZE] letters, a newline and one more letter. *)
Definition boundary_text : string :=
  JS.append (JS.repeat "a"%char MAX_MESSAGE_SIZE)
    (String newline (String "b"%char EmptyString)).

Lemma splitMessage_roundtrip_witness :
  MAX_MESSAGE_SIZE < JS.length boundary_text ∧
  JS.concat (splitMessage boundary_text) = boundary_text.
Proof.
  assert (H : MAX_MESSAGE_SIZE < JS.length boundary_text).
  { apply Nat.ltb_lt. vm_compute. reflexivity. }
  split; [exact H | exact (splitMessage_roundtrip boundary_text H)].
Defined.

(** C10 fails on the code: when the code unit at index [MAX_MESSAGE_SIZE]
    is a newline, [lastIndexOf('\n', MAX_MESSAGE_SIZE)] finds it and the
    first chunk has [MAX_MESSAGE_SIZE + 1] code units. *)
Theorem splitMessage_chunk_over_limit :
  splitMessage boundary_text
  = [JS.append (JS.repeat "a"%char MAX_MESSAGE_SIZE) (String newline EmptyString);
     String "b"%char EmptyString]
  ∧ JS.length (JS.append (JS.repeat "a"%char MAX_MESSAGE_SIZE)
                 (String newline EmptyString)) = MAX_MESSAGE_SIZE + 1.
Proof.
  split.
  - eapply (bool_decide_eq_true_1 _). vm_compute. reflexivity.
  - rewrite length_append, length_repeat. reflexivity.
Qed.

End SplitMessageClaims.

Section RegistryFacts.

Import Persistence.

(** The body of [update] for an id that is not registered throws before
    it touches the registry. *)
Lemma update_unknown_id (agentId : string) (updates : Registry.Updates)
    (st : Registry.State) :
  Registry.get agentId st = None →
  Registry.update agentId updates st
  = (Throw ("Agent not found: " +:+ agentId), st).
Proof.
  unfold Registry.get, Registry.update. intros ->. reflexivity.
Qed.

(** Awaiting the call of an [async] function runs its body. *)
Lemma await_async {S A} (body : M S A) (s : S) :
  (let* p := async body in await p) s = body s.
Proof.
  unfold bind, async, await.
  destruct (body s) as [[a|e] s']; reflexivity.
Qed.

(** C9, amended: [update] is an [async] function.  Called on an id that
    is not registered it throws nothing to its caller: the call returns a
    promise that is rejected with [Agent not found], and the registry (the
    in-memory map and the persistence with the list it holds and the files
    it wrote) is the one it was given.  A caller that awaits the call has
    the error thrown at the [await]. *)
Theorem update_unknown_id_rejects (agentId : string)
    (updates : Registry.Updates) (st : Registry.State) :
  Registry.get agentId st = None →
  async (Registry.update agentId updates) st
  = (Return (Rejected ("Agent not found: " +:+ agentId)), st) ∧
  (let* p := async (Registry.update agentId updates) in await p) st
  = (Throw ("Agent not found: " +:+ agentId), st).
Proof.
  intros Hget. split.
  - unfold async. by rewrite (update_unknown_id _ _ _ Hget).
  - rewrite await_async. by apply update_unknown_id.
Qed.

Definition fox : Agent :=
  {| id := "swift-fox"; type := "claude-code"; jid := "swift-fox@localhost";
     workDir := "/work/proj-x"; createdAt := "2025-01-01T00:00:00.000Z";
     createdBy := "operator@localhost"; status := running;
     pid := None; sessionId := Some "sess-1" |}.

Definition fox_registry : Registry.State :=
  {| Registry.agents := {[ "swift-fox" := fox ]};
     Registry.persistence := {| agents := [fox]; disk := [[fox]] |} |}.

Lemma update_unknown_id_rejects_witness :
  Registry.get "calm-owl" fox_registry = None ∧
  async (Registry.update "calm-owl" (Registry.statusUpdate stopped)) fox_registry
  = (Return (Rejected "Agent not found: calm-owl"), fox_registry) ∧
  (let* p := async (Registry.update "calm-owl" (Registry.statusUpdate stopped)) in
   await p) fox_registry
  = (Throw "Agent not found: calm-owl", fox_registry).
Proof.
  assert (H : Registry.get "calm-owl" fox_registry = None) by reflexivity.
  split; [exact H |].
  exact (update_unknown_id_rejects "calm-owl" (Registry.statusUpdate stopped)
           fox_registry H).
Defined.

(** The claim as the spec has it fails: the error is not surfaced
    synchronously.  The call of [update] on the unknown id [calm-owl]
    returns to its caller, with a promise; a caller that does not await it,
    or attach a handler, runs on. *)
Lemma update_unknown_id_returns_a_promise :
  fst (async (Registry.update "calm-owl" (Registry.statusUpdate stopped))
         fox_registry)
  = Return (Rejected "Agent not found: calm-owl") ∧
  (∀ e, fst (async (Registry.update "calm-owl" (Registry.statusUpdate stopped))
               fox_registry)
        ≠ Throw e).
Proof. split; [reflexivity | intros e; discriminate]. Qed.

(** [update] on a registered id stores the merged record in the map and
    writes the persisted list. *)
Lemma update_known_id agentId updates st existing :
  Registry.get agentId st = Some existing →
  Registry.update agentId updates st
  = (Return tt,
     {| Registry.agents :=
          <[agentId := Registry.merge existing updates]> (Registry.agents st);
        Registry.persistence :=
          upsertAgent (Registry.merge existing updates) (Registry.persistence st) |}).
Proof.
  unfold Registry.get, Registry.update. intros ->. reflexivity.
Qed.

Lemma get_after_update agentId updates st existing :
  Registry.get agentId st = Some existing →
  Registry.get agentId (snd (Registry.update agentId updates st))
  = Some (Registry.merge existing updates).
Proof.
  intros H. rewrite (update_known_id _ _ _ _ H). simpl.
  unfold Registry.get. simpl. apply lookup_insert_eq.
Qed.

End RegistryFacts.

Section RecoveryFacts.

Import Persistence.

Variable spawnError : ClaudeCode.AgentConfig → option string.
Variable mcpServerUrl : string.

Lemma findAgent_upsert (a : Agent) (st : Store) :
  getAgent (id a) (upsertAgent a st) = Some a.
Proof.
  unfold getAgent, upsertAgent, save, findAgent; simpl.
  induction (agents st) as [|b l IH]; simpl.
  - rewrite filter_cons_True by done. reflexivity.
  - case_bool_decide as Hb; simpl.
    + rewrite filter_cons_True by done. reflexivity.
    + destruct (findIndex (id a) l) as [i|]; simpl in *.
      * rewrite filter_cons_False by done. exact IH.
      * rewrite filter_cons_False by done. exact IH.
Qed.

Lemma disk_upsert (a : Agent) (st : Store) :
  disk (upsertAgent a st) = disk st ++ [agents (upsertAgent a st)].
Proof. reflexivity. Qed.

(** The configuration [recover] spawns with. *)
Definition recoveryConfig (agent : Agent) : ClaudeCode.AgentConfig :=
  {| ClaudeCode.workDir := workDir agent;
     ClaudeCode.initialPrompt := None;
     ClaudeCode.agentId := id agent;
     ClaudeCode.mcpServerUrl := mcpServerUrl;
     ClaudeCode.resumeSessionId :=
       if JS.truthyOpt (sessionId agent) then sessionId agent else None |}.

Lemma attemptAutoRecovery_resumes (agent current : Agent) (token : string)
    (w : Recovery.World) :
  Registry.get (id agent) (Recovery.registry w) = Some current →
  sessionId agent = Some token → JS.truthy token = true →
  spawnError (recoveryConfig agent) = None →
  ∃ r w',
    Recovery.attemptAutoRecovery spawnError mcpServerUrl agent (Some 1%Z) w
    = (Return (Some r), w') ∧
    Recovery.success r = true ∧ Recovery.resumed r = true ∧
    Recovery.spawned w' = Recovery.spawned w ++ [recoveryConfig agent] ∧
    ClaudeCode.resumeSessionId (recoveryConfig agent) = Some token ∧
    status <$> Registry.get (id agent) (Recovery.registry w') = Some running ∧
    ∃ s1 s2,
      disk (Registry.persistence (Recovery.registry w'))
      = disk (Registry.persistence (Recovery.registry w)) ++ [s1; s2] ∧
      status <$> findAgent (id current) s1 = Some starting ∧
      status <$> findAgent (id current) s2 = Some running.
Proof.
  intros Hget Hsid Htok Hspawn.
  unfold Recovery.attemptAutoRecovery, Recovery.recover. cbn.
  unfold bind, tryCatch, Recovery.onRegistry, Recovery.spawn, ret.
  rewrite (update_known_id _ _ _ _ Hget). cbn.
  fold (recoveryConfig agent). rewrite Hspawn. cbn.
  erewrite update_known_id
    by (unfold Registry.get; cbn; apply lookup_insert_eq).
  cbn. eexists _, _. split; [reflexivity |]. cbn.
  rewrite Hsid. cbn. rewrite Htok.
  repeat split.
  - unfold Registry.get. cbn. rewrite lookup_insert_eq. reflexivity.
  - eexists _, _. split.
    + rewrite !disk_upsert, <- app_assoc. reflexivity.
    + assert (Hid : ∀ s, id current = id (Registry.merge current (Registry.statusUpdate s)))
        by reflexivity.
      split.
      * rewrite (Hid starting).
        pose proof (findAgent_upsert
          (Registry.merge current (Registry.statusUpdate starting))) as E.
        unfold getAgent in E. rewrite E. reflexivity.
      * rewrite (Hid running).
        pose proof (findAgent_upsert
          (Registry.merge (Registry.merge current (Registry.statusUpdate starting))
             (Registry.statusUpdate running))) as E.
        unfold getAgent in E. cbn in E. cbn. rewrite E. reflexivity.
Qed.

End RecoveryFacts.

Section IndexFacts.

Import Persistence.

Variable spawnError : ClaudeCode.AgentConfig → option string.
Variable mcpServerUrl : string.

(** Whatever the exit code of the subprocess was, the stop handler hands
    [null] to [attemptAutoRecovery]: nothing is spawned and the agent is
    left [stopped]. *)
Lemma onStopped_process_exit_stops (agentId : string) (a : Agent) (w : Index.World) :
  Registry.get agentId (Recovery.registry (Index.recovery w)) = Some a →
  id a = agentId →
  ∃ w',
    Index.onStopped spawnError mcpServerUrl agentId Index.process_exit w
    = (Return tt, w') ∧
    Recovery.spawned (Index.recovery w') = Recovery.spawned (Index.recovery w) ∧
    status <$> Registry.get agentId (Recovery.registry (Index.recovery w'))
    = Some stopped.
Proof.
  intros Hget Hid.
  unfold Index.onStopped, Index.registryUpdate, Index.registryGet,
    Index.onRecovery, Recovery.onRegistry, bind, modify, gets, ret.
  cbn. rewrite (update_known_id _ _ _ _ Hget). cbn.
  rewrite bool_decide_eq_true_2 by done. cbn.
  unfold Registry.get at 1. cbn. rewrite lookup_insert_eq.
  unfold Recovery.attemptAutoRecovery. cbn.
  unfold bind, Recovery.onRegistry, ret. cbn. rewrite Hid.
  erewrite update_known_id
    by (unfold Registry.get; cbn; apply lookup_insert_eq).
  cbn. eexists. split; [reflexivity |]. cbn. split; [reflexivity |].
  unfold Registry.get. cbn. rewrite lookup_insert_eq. reflexivity.
Qed.

End IndexFacts.

Section RecoveryScenario.

Import Persistence.

Definition crashed_world : Index.World :=
  {| Index.recovery :=
       {| Recovery.registry := fox_registry; Recovery.spawned := [] |};
     Index.permissionTool := Permission.initial;
     Index.agentHandlers := ["swift-fox"] |}.

Definition fox_stopped : Agent :=
  {| id := "swift-fox"; type := "claude-code"; jid := "swift-fox@localhost";
     workDir := "/work/proj-x"; createdAt := "2025-01-01T00:00:00.000Z";
     createdBy := "operator@localhost"; status := stopped;
     pid := None; sessionId := Some "sess-1" |}.

(** C1 fails on the code.  The agent [swift-fox] is running with session id
    [sess-1]; its subprocess exits with code 1.  The handlers of
    [handleAgentCreated] spawn nothing and leave the agent [stopped],
    because the stop handler calls [attemptAutoRecovery(currentAgent, null)]
    and [null] is classified as an intended kill. *)
Theorem exit_code_1_is_not_recovered :
  ∃ w',
    Index.processExited (λ _, None) "http://localhost:3001/mcp" "swift-fox"
      (Some "sess-1") (Some 1%Z) crashed_world
    = (Return tt, w') ∧
    Recovery.spawned (Index.recovery w') = [] ∧
    Registry.get "swift-fox" (Recovery.registry (Index.recovery w'))
    = Some fox_stopped ∧
    map (findAgent "swift-fox")
      (disk (Registry.persistence (Recovery.registry (Index.recovery w'))))
    = [Some fox; Some fox; Some fox_stopped; Some fox_stopped].
Proof.
  eexists. split; [vm_compute; reflexivity |].
  repeat split; vm_compute; reflexivity.
Qed.

(** The recovery manager itself, given the exit code 1, resumes the
    session: the slip is in the argument it is called with. *)
Lemma attemptAutoRecovery_exit_code_1 :
  ∃ r w',
    Recovery.attemptAutoRecovery (λ _, None) "http://localhost:3001/mcp"
      fox (Some 1%Z) (Index.recovery crashed_world)
    = (Return (Some r), w') ∧
    Recovery.resumed r = true ∧
    ClaudeCode.resumeSessionId <$> Recovery.spawned w' = [Some "sess-1"] ∧
    map (λ s, status <$> findAgent "swift-fox" s)
      (disk (Registry.persistence (Recovery.registry w')))
    = [Some running; Some starting; Some running].
Proof.
  eexists _, _. split; [vm_compute; reflexivity |].
  repeat split; vm_compute; reflexivity.
Qed.

End RecoveryScenario.

Section ManagerBotFacts.

Import ManagerBot.

Variable env : Env.

(** In [awaiting_type] the word [cancel] is an invalid selection: the
    conversations, the registry and the events are untouched, one message
    is sent. *)
Lemma awaiting_type_ignores_cancel (userJid : string) (state : ConversationState)
    (w : World) :
  step state = awaiting_type →
  handleConversationStep env userJid "cancel" state w
  = (Return tt,
     {| conversations := conversations w; registry := registry w;
        sent := sent w ++
          [(userJid, "Invalid selection. Please enter '1' for Claude Code or type 'cancel' to abort.")];
        xmppUsers := xmppUsers w; created := created w |}).
Proof.
  unfold handleConversationStep. intros ->. reflexivity.
Qed.

(** In [awaiting_repo] and [awaiting_task] the word [cancel], in any
    letter case, sets the step to [idle] and sends one message; the
    registry, the XMPP users and the events are untouched. *)
Lemma cancel_in_awaiting_repo_or_task (userJid input : string)
    (state : ConversationState) (w : World) :
  JS.toLowerCase input = "cancel" →
  step state = awaiting_repo ∨ step state = awaiting_task →
  handleConversationStep env userJid input state w
  = (Return tt,
     {| conversations := alter (setStep idle) userJid (conversations w);
        registry := registry w;
        sent := sent w ++ [(userJid, "Agent creation cancelled.")];
        xmppUsers := xmppUsers w; created := created w |}).
Proof.
  unfold handleConversationStep, handleRepoSelection, handleTaskInput.
  intros Hc [-> | ->]; rewrite Hc; reflexivity.
Qed.

End ManagerBotFacts.

Section ManagerBotScenario.

Import ManagerBot.

Definition operator : string := "operator@localhost".

(** The message of Node for [path.join(basePath, undefined)]. *)
Definition doubleQuote : string := String (ascii_of_nat 34) EmptyString.

Definition env0 : Env :=
  {| repos := ["proj-x"; "proj-y"]; basePath := "/work"; domain := "localhost";
     draw1 := λ _, (0, 0); draw2 := λ _, (1, 1); password := "0123456789abcdef";
     isoNow := "2025-01-01T00:00:00.000Z"; createUserError := None;
     joinTypeError :=
       "The " +:+ doubleQuote +:+ "path" +:+ doubleQuote
       +:+ " argument must be of type string. Received undefined" |}.

Definition asked_type : ConversationState :=
  {| step := awaiting_type; agentType := None; repo := None |}.

Definition world0 : World :=
  {| conversations := {[ operator := asked_type ]};
     registry := {| Registry.agents := ∅;
                    Registry.persistence :=
                      {| Persistence.agents := []; Persistence.disk := [] |} |};
     sent := []; xmppUsers := []; created := [] |}.

(** C8 fails on the code in the state [awaiting_type]: [handleTypeSelection]
    has no test for [cancel]; the conversation stays in [awaiting_type] and
    the operator is told the selection is invalid. *)
Theorem cancel_in_awaiting_type_stays :
  ∃ w',
    handleConversationStep env0 operator "cancel" asked_type world0
    = (Return tt, w') ∧
    step <$> conversations w' !! operator = Some awaiting_type ∧
    sent w'
    = [(operator, "Invalid selection. Please enter '1' for Claude Code or type 'cancel' to abort.")].
Proof.
  eexists. split; [apply awaiting_type_ignores_cancel; reflexivity |].
  split; reflexivity.
Qed.

End ManagerBotScenario.

Section ClaudeCodeFacts.

Import ClaudeCode.

(** Whether a turn is in flight after the actions [tr]: the last write is
    not yet followed by a decoded [result]. *)
Definition inFlight (tr : list Action) : bool :=
  foldl (λ flag a, match a with Wrote _ => true | Decoded_result => false end)
        false tr.

(** A trace is serialised when every write after the first comes after a
    [result] decoded since the write before it. *)
Definition serialised (tr : list Action) : Prop :=
  ∀ l1 a l2 b l3,
    tr = l1 ++ Wrote a :: l2 ++ Wrote b :: l3 → Decoded_result ∈ l2.

Lemma inFlight_snoc tr a :
  inFlight (tr ++ [a])
  = match a with Wrote _ => true | Decoded_result => false end.
Proof. unfold inFlight. rewrite foldl_app. reflexivity. Qed.

Lemma inFlight_after_write l1 a l2 :
  Decoded_result ∉ l2 → inFlight (l1 ++ Wrote a :: l2) = true.
Proof.
  induction l2 as [|x l2 IH] using rev_ind; intros Hn.
  - apply inFlight_snoc.
  - replace (l1 ++ Wrote a :: l2 ++ [x]) with ((l1 ++ Wrote a :: l2) ++ [x])
      by (rewrite <- app_assoc; reflexivity).
    rewrite inFlight_snoc. destruct x; [reflexivity |].
    exfalso. apply Hn. set_solver.
Qed.

Lemma serialised_nil : serialised [].
Proof. intros l1 a l2 b l3 H. destruct l1; discriminate. Qed.

Lemma serialised_snoc_result tr :
  serialised tr → serialised (tr ++ [Decoded_result]).
Proof.
  intros Hs l1 a l2 b l3 H.
  destruct l3 as [|x l3 _] using rev_ind.
  - exfalso.
    replace (l1 ++ Wrote a :: l2 ++ [Wrote b])
      with ((l1 ++ Wrote a :: l2) ++ [Wrote b]) in H
      by (rewrite <- app_assoc; reflexivity).
    apply app_inj_tail in H as [_ ?]. discriminate.
  - replace (l1 ++ Wrote a :: l2 ++ Wrote b :: l3 ++ [x])
      with ((l1 ++ Wrote a :: l2 ++ Wrote b :: l3) ++ [x]) in H
      by (rewrite <- !app_assoc; simpl; rewrite <- !app_assoc; reflexivity).
    apply app_inj_tail in H as [H _]. exact (Hs _ _ _ _ _ H).
Qed.

Lemma serialised_snoc_write tr t :
  serialised tr → inFlight tr = false → serialised (tr ++ [Wrote t]).
Proof.
  intros Hs Hf l1 a l2 b l3 H.
  destruct l3 as [|x l3 _] using rev_ind.
  - replace (l1 ++ Wrote a :: l2 ++ [Wrote b])
      with ((l1 ++ Wrote a :: l2) ++ [Wrote b]) in H
      by (rewrite <- app_assoc; reflexivity).
    apply app_inj_tail in H as [H _]. subst tr.
    destruct (decide (Decoded_result ∈ l2)) as [|Hn]; [assumption |].
    rewrite (inFlight_after_write _ _ _ Hn) in Hf. discriminate.
  - replace (l1 ++ Wrote a :: l2 ++ Wrote b :: l3 ++ [x])
      with ((l1 ++ Wrote a :: l2 ++ Wrote b :: l3) ++ [x]) in H
      by (rewrite <- !app_assoc; simpl; rewrite <- !app_assoc; reflexivity).
    apply app_inj_tail in H as [H _]. exact (Hs _ _ _ _ _ H).
Qed.

(** The invariant of a process: its trace is serialised, and a turn in
    flight means [isReady] is false. *)
Definition turnInvariant (p : Process) : Prop :=
  serialised (trace p) ∧
  (inFlight (trace p) = true → isReady p = false).

Lemma turnInvariant_new : turnInvariant newProcess.
Proof. split; [apply serialised_nil | discriminate]. Qed.

Lemma turnInvariant_step (i : Input) (p : Process) :
  turnInvariant p → turnInvariant (step i p).
Proof.
  intros [Hs Hf]. destruct i as [m | [[sid mode | content | sid stop] |] |]; simpl.
  - unfold send. destruct (isAlive p); simpl; [| by split].
    destruct (isReady p) eqn:Hr; simpl; [| by split].
    split; simpl.
    + apply serialised_snoc_write; [assumption |].
      destruct (inFlight (trace p)); [| reflexivity].
      specialize (Hf eq_refl). discriminate.
    + reflexivity.
  - by split.
  - by split.
  - unfold processQueue; simpl.
    destruct (messageQueue p) as [|next q]; simpl.
    + split; simpl; [by apply serialised_snoc_result |].
      rewrite inFlight_snoc. discriminate.
    + destruct (JS.truthy next); simpl.
      * split; simpl; [| reflexivity].
        apply serialised_snoc_write;
          [by apply serialised_snoc_result | apply inFlight_snoc].
      * split; simpl; [by apply serialised_snoc_result |].
        rewrite inFlight_snoc. discriminate.
  - by split.
  - by split.
Qed.

Lemma turnInvariant_run (inputs : list Input) (p : Process) :
  turnInvariant p → turnInvariant (run inputs p).
Proof.
  revert p. induction inputs as [|i inputs IH]; intros p Hp; [exact Hp |].
  apply IH, turnInvariant_step, Hp.
Qed.

(** Whatever reaches a process, a turn is written to its input only after
    the [result] of the turn written before it was decoded. *)
Lemma writes_are_serialised (inputs : list Input) :
  serialised (trace (run inputs newProcess)).
Proof. apply (turnInvariant_run inputs newProcess turnInvariant_new). Qed.

(** The turns written are the [Wrote] actions of the trace. *)
Definition writesOf (tr : list Action) : list string :=
  omap (λ a, match a with Wrote t => Some t | Decoded_result => None end) tr.

Lemma stdin_step (i : Input) (p : Process) :
  stdin p = writesOf (trace p) → stdin (step i p) = writesOf (trace (step i p)).
Proof.
  unfold writesOf. intros H.
  destruct i as [m | [[sid mode | content | sid stop] |] |]; simpl; try done.
  - unfold send. destruct (isAlive p); simpl; [| done].
    destruct (isReady p); simpl; [| done].
    rewrite omap_app, H. reflexivity.
  - unfold processQueue; simpl.
    destruct (messageQueue p) as [|next q]; simpl.
    + rewrite omap_app, H. simpl. by rewrite app_nil_r.
    + destruct (JS.truthy next); simpl.
      * rewrite !omap_app, H. simpl. by rewrite app_nil_r.
      * rewrite omap_app, H. simpl. by rewrite app_nil_r.
Qed.

Lemma stdin_is_trace (inputs : list Input) :
  stdin (run inputs newProcess) = writesOf (trace (run inputs newProcess)).
Proof.
  assert (G : ∀ p, stdin p = writesOf (trace p) →
                   stdin (run inputs p) = writesOf (trace (run inputs p))).
  { induction inputs as [|i inputs IH]; intros p Hp; [exact Hp |].
    apply IH, stdin_step, Hp. }
  apply G. reflexivity.
Qed.

(** The messages of the calls of [send] that returned, in arrival order. *)
Fixpoint accepted (inputs : list Input) (alive : bool) : list string :=
  match inputs with
  | [] => []
  | Send m :: rest => if alive then m :: accepted rest alive else accepted rest alive
  | Line _ :: rest => accepted rest alive
  | Exit :: rest => accepted rest false
  end.

Definition nonEmptySends (inputs : list Input) : Prop :=
  ∀ m, Send m ∈ inputs → JS.truthy m = true.

Lemma fifo_step (i : Input) (p : Process) :
  (∀ m, i = Send m → JS.truthy m = true) →
  Forall (λ m, JS.truthy m = true) (messageQueue p) →
  (isReady p = true → messageQueue p = []) →
  let p' := step i p in
  stdin p' ++ messageQueue p'
  = stdin p ++ messageQueue p ++ accepted [i] (isAlive p) ∧
  Forall (λ m, JS.truthy m = true) (messageQueue p') ∧
  (isReady p' = true → messageQueue p' = []) ∧
  isAlive p' = match i with Exit => false | _ => isAlive p end.
Proof.
  intros Hm Hq Hr. destruct i as [m | [[sid mode | content | sid stop] |] |];
    simpl; rewrite ?app_nil_r; try done.
  - unfold send. destruct (isAlive p) eqn:Ea; simpl; rewrite ?app_nil_r.
    2:{ done. }
    destruct (isReady p) eqn:E; simpl.
    + rewrite (Hr eq_refl). simpl. rewrite !app_nil_r. done.
    + split; [reflexivity |]. split; [| done].
      apply Forall_app; split; [assumption |].
      constructor; [by apply Hm | constructor].
  - unfold processQueue; simpl.
    destruct (messageQueue p) as [|next q] eqn:E; simpl.
    + by rewrite !app_nil_r.
    + apply Forall_cons in Hq as [Hn Hq]. rewrite Hn. simpl.
      repeat split; [| assumption | done].
      rewrite <- app_assoc. reflexivity.
Qed.

(** When no empty message is sent, the turns written followed by the turns
    still queued are the accepted messages in arrival order: queued turns
    are written first-in first-out. *)
Lemma queue_is_fifo (inputs : list Input) :
  nonEmptySends inputs →
  let p := run inputs newProcess in
  stdin p ++ messageQueue p = accepted inputs true.
Proof.
  intros Hne.
  assert (G : ∀ inputs p,
    (∀ m, Send m ∈ inputs → JS.truthy m = true) →
    Forall (λ m, JS.truthy m = true) (messageQueue p) →
    (isReady p = true → messageQueue p = []) →
    stdin (run inputs p) ++ messageQueue (run inputs p)
    = stdin p ++ messageQueue p ++ accepted inputs (isAlive p)).
  { clear. induction inputs as [|i inputs IH]; intros p Hm Hq Hr.
    - simpl. by rewrite app_nil_r.
    - destruct (fifo_step i p) as (E & Hq' & Hr' & Ha); [| assumption..|].
      { intros m ->. apply Hm. set_solver. }
      change (run (i :: inputs) p) with (run inputs (step i p)).
      rewrite IH; [| intros m ?; apply Hm; set_solver | assumption..].
      rewrite app_assoc, E, Ha, <- !app_assoc. f_equal. f_equal.
      destruct i as [m | l |]; simpl; [destruct (isAlive p) |..]; reflexivity. }
  simpl. rewrite (G inputs newProcess Hne); [reflexivity | constructor | done].
Qed.

(** C2 fails on the code for an empty message.  The turn [a] is in flight
    when the messages [''] (a blank chat message, trimmed) and [b] arrive;
    at the next [result], [processQueue] shifts [''], finds it falsy, writes
    nothing and sets [isReady]; the later message [c] is then written at
    once, ahead of [b], and [''] is never written. *)
Theorem empty_message_breaks_arrival_order :
  let done := Line (Some (result "sess-1" "end_turn")) in
  accepted [Send "a"; Send ""; Send "b"; done; Send "c"; done] true
  = ["a"; ""; "b"; "c"] ∧
  stdin (run [Send "a"; Send ""; Send "b"; done; Send "c"; done] newProcess)
  = ["a"; "c"; "b"] ∧
  messageQueue (run [Send "a"; Send ""; Send "b"; done; Send "c"; done] newProcess)
  = [].
Proof. repeat split. Qed.

End ClaudeCodeFacts.

Section PermissionMapFacts.

Import Permission.

Context {V : Type}.
Implicit Types (m : list (string * V)) (k : string) (v : V).

Lemma map_get_Some m k v : map_get k m = Some v → (k, v) ∈ m.
Proof.
  induction m as [|[k' v'] m IH]; simpl; [done |].
  case_bool_decide as E.
  - intros [= ->]. subst. apply elem_of_cons. by left.
  - intros H. apply elem_of_cons. right. by apply IH.
Qed.

Lemma map_get_None m k : map_get k m = None ↔ k ∉ m.*1.
Proof.
  induction m as [|[k' v'] m IH]; simpl.
  - split; [intros _ H; by apply elem_of_nil in H | done].
  - rewrite not_elem_of_cons. case_bool_decide as E; simpl.
    + split; [done | intros [H _]; by subst].
    + rewrite IH. split; [intros H; split; [congruence | done] | tauto].
Qed.

Lemma map_key_unique m k v1 v2 :
  NoDup m.*1 → (k, v1) ∈ m → (k, v2) ∈ m → v1 = v2.
Proof.
  induction m as [|[k' v'] m IH]; simpl.
  - intros _ H. by apply elem_of_nil in H.
  - rewrite NoDup_cons, !elem_of_cons. intros [Hk Hm] [E1 | H1] [E2 | H2].
    + congruence.
    + exfalso. apply Hk. apply list_elem_of_fmap. exists (k, v2).
      split; [simpl; congruence | done].
    + exfalso. apply Hk. apply list_elem_of_fmap. exists (k, v1).
      split; [simpl; congruence | done].
    + by apply IH.
Qed.

Lemma map_get_NoDup m k v : NoDup m.*1 → (k, v) ∈ m → map_get k m = Some v.
Proof.
  intros Hn Hin. destruct (map_get k m) as [v'|] eqn:E.
  - apply map_get_Some in E. f_equal. exact (map_key_unique m k v' v Hn E Hin).
  - apply map_get_None in E. exfalso. apply E.
    apply list_elem_of_fmap. by exists (k, v).
Qed.

Lemma map_has_true m k : map_has k m = true ↔ k ∈ m.*1.
Proof.
  unfold map_has. destruct (map_get k m) as [v|] eqn:E.
  - apply map_get_Some in E. split; [| done]. intros _.
    apply list_elem_of_fmap. by exists (k, v).
  - apply map_get_None in E. split; [done | contradiction].
Qed.

Lemma elem_of_map_delete m k e : e ∈ map_delete k m ↔ e ∈ m ∧ e.1 ≠ k.
Proof. unfold map_delete. rewrite list_elem_of_filter. tauto. Qed.

Lemma map_delete_absent m k : k ∉ m.*1 → map_delete k m = m.
Proof.
  unfold map_delete. induction m as [|[k' v'] m IH]; simpl; [done |].
  rewrite not_elem_of_cons. intros [Hk Hm].
  rewrite filter_cons_True by (simpl; congruence). by rewrite IH.
Qed.

Lemma NoDup_map_delete m k : NoDup m.*1 → NoDup (map_delete k m).*1.
Proof.
  unfold map_delete. induction m as [|[k' v'] m IH]; simpl; [done |].
  rewrite NoDup_cons. intros [Hk Hm].
  destruct (decide (k' = k)) as [->|Hne].
  - rewrite filter_cons_False by (simpl; tauto). by apply IH.
  - rewrite filter_cons_True by done. simpl. apply NoDup_cons. split; [| by apply IH].
    intros Hin. apply Hk. apply list_elem_of_fmap in Hin as [e [-> He]].
    apply list_elem_of_filter in He as [_ He].
    apply list_elem_of_fmap. by exists e.
Qed.

Lemma elem_of_map_set m k v e :
  NoDup m.*1 → e ∈ map_set k v m → e = (k, v) ∨ (e ∈ m ∧ e.1 ≠ k).
Proof.
  induction m as [|[k' v'] m IH]; simpl.
  - intros _. rewrite list_elem_of_singleton. by left.
  - rewrite NoDup_cons. intros [Hk Hm]. case_bool_decide as E.
    + subst k'. rewrite elem_of_cons. intros [-> | H]; [by left |].
      right. split; [apply elem_of_cons; by right |].
      intros <-. apply Hk. apply list_elem_of_fmap. by exists e.
    + rewrite !elem_of_cons. intros [-> | H]; [right; split; [by left | done] |].
      destruct (IH Hm H) as [-> | [? ?]]; [by left | right; split; [by right | done]].
Qed.

Lemma NoDup_map_set m k v : NoDup m.*1 → NoDup (map_set k v m).*1.
Proof.
  induction m as [|[k' v'] m IH]; simpl.
  - intros _. apply NoDup_singleton.
  - rewrite NoDup_cons. intros [Hk Hm]. case_bool_decide as E; simpl.
    + subst k'. apply NoDup_cons. done.
    + apply NoDup_cons. split; [| by apply IH].
      intros Hin. apply list_elem_of_fmap in Hin as [e [He1 He2]].
      apply (elem_of_map_set _ _ _ _ Hm) in He2 as [-> | [He2 _]].
      * simpl in He1. congruence.
      * apply Hk. apply list_elem_of_fmap. by exists e.
Qed.

Lemma map_set_member m k v : (k, v) ∈ map_set k v m.
Proof.
  induction m as [|[k' v'] m IH]; simpl.
  - by apply list_elem_of_singleton.
  - case_bool_decide; apply elem_of_cons; [by left | by right].
Qed.

End PermissionMapFacts.

Section PermissionSortFacts.

Import Permission.

Lemma head_insertByCreatedAt p l :
  head (insertByCreatedAt p l)
  = match head l with
    | Some q => if (createdAt q - createdAt p <? 0)%Z then Some q else Some p
    | None => Some p
    end.
Proof. destruct l as [|q l]; simpl; [done |]. by destruct (_ <? 0)%Z. Qed.

Lemma sortByCreatedAt_nil l : head (sortByCreatedAt l) = None → l = [].
Proof.
  destruct l as [|a l]; [done |]. simpl. rewrite head_insertByCreatedAt.
  destruct (head (sortByCreatedAt l)); [destruct (_ <? 0)%Z |]; done.
Qed.

(** The head of the sorted list is the first element, in the order given,
    among those with the least [createdAt]. *)
Lemma head_sortByCreatedAt l p :
  head (sortByCreatedAt l) = Some p →
  ∃ before after,
    l = before ++ p :: after ∧
    (∀ q, q ∈ before → (createdAt p < createdAt q)%Z) ∧
    (∀ q, q ∈ after → (createdAt p ≤ createdAt q)%Z).
Proof.
  revert p. induction l as [|a l IH]; intros p; simpl; [done |].
  rewrite head_insertByCreatedAt.
  destruct (head (sortByCreatedAt l)) as [q|] eqn:E.
  - destruct (IH q eq_refl) as (before & after & -> & Hb & Ha).
    destruct (createdAt q - createdAt a <? 0)%Z eqn:C; intros [= <-].
    + apply Z.ltb_lt in C. exists (a :: before), after. split; [done |].
      split; [| done]. intros x [-> | Hx]%elem_of_cons; [lia | by apply Hb].
    + apply Z.ltb_ge in C. exists [], (before ++ q :: after). split; [done |].
      split; [intros x Hx; by apply elem_of_nil in Hx |].
      intros x [Hx | [-> | Hx]%elem_of_cons]%elem_of_app.
      * specialize (Hb x Hx). lia.
      * lia.
      * specialize (Ha x Hx). lia.
  - apply sortByCreatedAt_nil in E as ->. intros [= <-].
    exists [], []. split; [done |].
    split; intros x Hx; by apply elem_of_nil in Hx.
Qed.

End PermissionSortFacts.

Section PermissionReplyFacts.

Import Permission.

(** The representation of the [pending] map: one entry per key, and each
    entry stored under its own [id]. *)
Definition keyed (m : list (string * PendingPermission)) : Prop :=
  NoDup m.*1 ∧ Forall (λ e, id e.2 = e.1) m.

Lemma keyed_id m k p : keyed m → (k, p) ∈ m → id p = k.
Proof.
  intros [_ H] Hin. rewrite Forall_forall in H. exact (H (k, p) Hin).
Qed.

Lemma elem_of_map_values (m : list (string * PendingPermission)) q :
  q ∈ map_values m ↔ ∃ k, (k, q) ∈ m.
Proof.
  unfold map_values. rewrite list_elem_of_fmap. split.
  - intros [[k q'] [-> H]]. by exists k.
  - intros [k H]. by exists (k, q).
Qed.



Definition request (key agent : string) (created : Z) (n : nat) : PendingPermission :=
  {| id := key; agentId := agent; action := "Bash";
     description := "Run a shell command"; details := None;
     createdAt := created; resolve := n; timeoutHandle := n |}.

(** Three requests: the second and third belong to [swift-fox], the third
    is the older of the two. *)
Definition three_pending : State :=
  {| pending := [("0a0a", request "0a0a" "calm-owl" 100 0);
                 ("c3d4", request "c3d4" "swift-fox" 300 1);
                 ("e5f6", request "e5f6" "swift-fox" 200 2)];
     timers := [{| handle := 0; due := 300100; requestId := "0a0a" |};
                {| handle := 1; due := 300300; requestId := "c3d4" |};
                {| handle := 2; due := 300200; requestId := "e5f6" |}];
     settled := []; now := 400; next := 3 |}.


(** A reply naming an id that is not pending for the agent is reported as
    handled and changes nothing. *)
Lemma reply_with_unknown_id (agent message rid response : string) (st : State) :
  matchResponse (JS.toLowerCase (JS.trim message)) = Some (Some rid, response) →
  (∀ p, map_get rid (pending st) = Some p → agentId p ≠ agent) →
  handleUserResponse agent message st = (true, st).
Proof.
  intros Hmatch Hno. unfold handleUserResponse. rewrite Hmatch.
  destruct (map_get rid (pending st)) as [p|]; [| reflexivity].
  rewrite bool_decide_eq_false_2; [reflexivity |]. by apply Hno.
Qed.

(** An id taken by the loop of [generateRequestId] is not pending. *)
Lemma drawRequestId_fresh rand attempts attempt m newId :
  drawRequestId rand attempts attempt m = Some newId → map_has newId m = false.
Proof.
  revert attempt. induction attempts as [|n IH]; intros attempt; simpl; [done |].
  destruct (map_has (requestIdOf (rand attempt)) m) eqn:E; simpl.
  - apply IH.
  - by intros [= <-].
Qed.

Lemma drawRequestId_exhausted rand attempts attempt m :
  (∀ k, attempt ≤ k < attempt + attempts →
        map_has (requestIdOf (rand k)) m = true) →
  drawRequestId rand attempts attempt m = None.
Proof.
  revert attempt. induction attempts as [|n IH]; intros attempt H; simpl; [done |].
  rewrite H by lia. simpl. apply IH. intros k Hk. apply H. lia.
Qed.

(** When the hundred draws all hit pending ids and the last four hex
    digits of the clock are a pending id too, [generateRequestId] returns a
    pending id. *)
Lemma fallback_returns_pending rand dateNow m :
  (∀ k, k < 100 → map_has (requestIdOf (rand k)) m = true) →
  map_has (JS.slice_last 4 (JS.toString16 (Z.to_N dateNow))) m = true →
  map_has (generateRequestId rand dateNow m) m = true.
Proof.
  intros Hdraws Hclock. unfold generateRequestId.
  rewrite drawRequestId_exhausted; [exact Hclock |].
  intros k Hk. apply Hdraws. lia.
Qed.

End PermissionReplyFacts.

Section PermissionScenarios.

Import Permission.

(** One request pending under the id [6800], at a time whose low 16 bits
    are [0x6800]. *)
Definition busy : State :=
  {| pending := [("6800", request "6800" "swift-fox" 1699999990000 0)];
     timers := [{| handle := 0; due := 1700000290000; requestId := "6800" |}];
     settled := []; now := 1700000000000; next := 1 |}.

(** C5 fails on the code on the fallback path.  The id [6800] is pending;
    all hundred draws give [0x6800]; [Date.now()] is 1700000000000, whose
    last four hex digits are [6800].  [generateRequestId] returns the
    pending id, and the new request replaces the pending one in the map
    while both timers stay live. *)
Theorem fallback_id_is_pending :
  generateRequestId (λ _, 26624%N) (now busy) (pending busy) = "6800" ∧
  map_has "6800" (pending busy) = true ∧
  let st' := snd (requestPermission 300000 (Some fox) (λ _, 26624%N) false
                    "swift-fox" "Bash" "Run command: ls" None busy) in
  resolve <$> map_values (pending st') = [1] ∧
  handle <$> timers st' = [0; 1].
Proof. repeat split. Qed.

(** The request [c3d4] of [swift-fox] is pending. *)
Definition one_pending : State :=
  {| pending := [("c3d4", request "c3d4" "swift-fox" 300 0)];
     timers := [{| handle := 0; due := 300300; requestId := "c3d4" |}];
     settled := []; now := 400; next := 1 |}.

Definition fox_handler : AgentBot.Handler :=
  {| AgentBot.userJid := "operator@localhost";
     AgentBot.agentProcess := ClaudeCode.newProcess;
     AgentBot.messageQueue := [] |}.

(** C6 fails on the code.  [handleUserResponse] reports the reply
    [a1b2 yes] as a permission response and leaves the tool as it was, but
    [handleIncomingMessage] never asks it: the reply is written to the
    subprocess as a user turn. *)
Theorem unmatched_reply_reaches_subprocess :
  handleUserResponse "swift-fox" "a1b2 yes" one_pending = (true, one_pending) ∧
  ∃ h',
    AgentBot.handleIncomingMessage "operator@localhost/phone" "a1b2 yes" fox_handler
    = (AgentBot.forwarded "a1b2 yes", h') ∧
    ClaudeCode.stdin (AgentBot.agentProcess h') = ["a1b2 yes"].
Proof.
  split; [reflexivity |]. eexists. split; reflexivity.
Qed.

End PermissionScenarios.

Section PermissionTimeoutFacts.

Import Permission.

Variable timeoutMs : Z.
Hypothesis timeout_positive : (0 < timeoutMs)%Z.

(** What holds of the tool between two events: timer handles are distinct
    and were issued, settled promises were issued and have no live timer,
    and each pending entry is stored under its id and owns a live timer
    that names its key. *)
Record consistent (st : State) : Prop := {
  c_handles : NoDup (handle <$> timers st);
  c_timers_issued : ∀ tm, tm ∈ timers st → handle tm < next st;
  c_settled_issued : ∀ e, e ∈ settled st → promise e < next st;
  c_keys : NoDup (pending st).*1;
  c_pending : ∀ k p, (k, p) ∈ pending st →
    id p = k ∧ resolve p = timeoutHandle p ∧
    ∃ tm, tm ∈ timers st ∧ handle tm = timeoutHandle p ∧ requestId tm = k;
  c_disjoint : ∀ tm e, tm ∈ timers st → e ∈ settled st → promise e ≠ handle tm;
}.

Definition notDue (st : State) : Prop :=
  ∀ tm, tm ∈ timers st → (now st < due tm)%Z.

Definition notOverdue (st : State) : Prop :=
  ∀ tm, tm ∈ timers st → (now st ≤ due tm)%Z.

Lemma handle_unique (l : list Timer) t1 t2 :
  NoDup (handle <$> l) → t1 ∈ l → t2 ∈ l → handle t1 = handle t2 → t1 = t2.
Proof.
  induction l as [|t l IH]; simpl.
  - intros _ H. by apply elem_of_nil in H.
  - rewrite NoDup_cons, !elem_of_cons. intros [Hn Hl] [-> | H1] [-> | H2] E.
    + reflexivity.
    + exfalso. apply Hn. apply list_elem_of_fmap. by exists t2.
    + exfalso. apply Hn. apply list_elem_of_fmap. by exists t1.
    + by apply IH.
Qed.

Lemma NoDup_fmap_filter {A B} (f : A → B) (P : A → Prop)
    `{∀ t, Decision (P t)} (l : list A) :
  NoDup (f <$> l) → NoDup (f <$> filter P l).
Proof.
  induction l as [|t l IH]; simpl; [done |].
  rewrite NoDup_cons. intros [Hn Hl].
  destruct (decide (P t)).
  - rewrite filter_cons_True by done. simpl. apply NoDup_cons. split; [| by apply IH].
    intros Hin. apply Hn. apply list_elem_of_fmap in Hin as [u [-> Hu]].
    apply list_elem_of_filter in Hu as [_ Hu].
    apply list_elem_of_fmap. by exists u.
  - rewrite filter_cons_False by done. by apply IH.
Qed.

Lemma consistent_initial : consistent initial.
Proof.
  split; simpl; try apply NoDup_nil_2;
    intros; match goal with H : _ ∈ [] |- _ => by apply elem_of_nil in H end.
Qed.

Lemma consistent_setNow t st : consistent st → consistent (setNow t st).
Proof. intros [? ? ? ? ? ?]. by split. Qed.

(** Settling an entry of the map. *)
Lemma consistent_settle c r p st :
  consistent st → (id p, p) ∈ pending st → consistent (settle c r p st).
Proof.
  intros [Hh Hti Hsi Hk Hp Hd] Hin.
  destruct (Hp _ _ Hin) as (_ & Hres & tp & Htp & Hhp & Hkp).
  split; simpl.
  - by apply NoDup_fmap_filter.
  - intros tm [_ Htm]%list_elem_of_filter. by apply Hti.
  - intros e [He | ->%list_elem_of_singleton]%elem_of_app; [by apply Hsi |].
    simpl. rewrite Hres, <- Hhp. by apply Hti.
  - by apply NoDup_map_delete.
  - intros k q [Hq Hne]%elem_of_map_delete. simpl in Hne.
    destruct (Hp _ _ Hq) as (Hid & Hrq & tq & Htq & Hhq & Hkq).
    split; [done |]. split; [done |]. exists tq. split; [| done].
    apply list_elem_of_filter. split; [| done].
    intros E. apply Hne. rewrite <- Hkq, <- Hkp. f_equal.
    apply (handle_unique (timers st)); [done.. | congruence].
  - intros tm e [Hne Htm]%list_elem_of_filter
      [He | ->%list_elem_of_singleton]%elem_of_app; [by apply Hd |].
    simpl. rewrite Hres. congruence.
Qed.

(** Running the callback of a live timer. *)
Lemma consistent_fire tm st :
  consistent st → tm ∈ timers st → consistent (fire tm st).
Proof.
  intros [Hh Hti Hsi Hk Hp Hd] Hin. split; simpl.
  - by apply NoDup_fmap_filter.
  - intros u [_ Hu]%list_elem_of_filter. by apply Hti.
  - intros e [He | ->%list_elem_of_singleton]%elem_of_app; [by apply Hsi |].
    simpl. by apply Hti.
  - by apply NoDup_map_delete.
  - intros k q [Hq Hne]%elem_of_map_delete. simpl in Hne.
    destruct (Hp _ _ Hq) as (Hid & Hrq & tq & Htq & Hhq & Hkq).
    split; [done |]. split; [done |]. exists tq. split; [| done].
    apply list_elem_of_filter. split; [| done].
    intros E. apply Hne. rewrite <- Hkq. f_equal.
    by apply (handle_unique (timers st)).
  - intros u e [Hne Hu]%list_elem_of_filter
      [He | ->%list_elem_of_singleton]%elem_of_app; [by apply Hd |].
    simpl. congruence.
Qed.

(** Registering a request under any id, pending or not. *)
Lemma consistent_register newId agentName actionName descr det st :
  consistent st →
  consistent (registerRequest timeoutMs newId agentName actionName descr det st).
Proof.
  intros Hc.
  destruct Hc as [Hh Hti Hsi Hk Hp Hd].
  split; simpl.
  - rewrite fmap_app. simpl. apply NoDup_app. split; [done |].
    split; [| apply NoDup_singleton].
    intros h [tm [-> Htm]]%list_elem_of_fmap E%list_elem_of_singleton.
    specialize (Hti _ Htm). lia.
  - intros tm [Htm | ->%list_elem_of_singleton]%elem_of_app; simpl; [| lia].
    specialize (Hti _ Htm). lia.
  - intros e He. specialize (Hsi _ He). lia.
  - by apply NoDup_map_set.
  - intros k q [[= -> ->] | [Hq Hne]]%elem_of_map_set; [| | done].
    + simpl. split; [done |]. split; [done |].
      eexists. split; [apply elem_of_app; right; by apply list_elem_of_singleton |].
      done.
    + destruct (Hp _ _ Hq) as (Hid & Hrq & tq & Htq & Hhq & Hkq).
      split; [done |]. split; [done |]. exists tq.
      split; [apply elem_of_app; by left | done].
  - intros tm e [Htm | ->%list_elem_of_singleton]%elem_of_app He;
      [by apply Hd |].
    simpl. specialize (Hsi _ He). lia.
Qed.

Lemma consistent_request agent rand sendFails agentName actionName descr det st :
  consistent st →
  consistent (snd (requestPermission timeoutMs agent rand sendFails
                     agentName actionName descr det st)).
Proof.
  intros Hc. unfold requestPermission.
  destruct agent as [a|]; [| exact Hc]. destruct sendFails; [exact Hc |].
  by apply consistent_register.
Qed.

Lemma found_is_pending (agent : string) st (rid : option string) p :
  consistent st →
  match rid with
  | Some r =>
      match map_get r (pending st) with
      | Some q => if bool_decide (agentId q = agent) then Some q else None
      | None => None
      end
  | None => findOldestPending agent (pending st)
  end = Some p →
  (id p, p) ∈ pending st.
Proof.
  intros Hc Hf. destruct rid as [r|].
  - destruct (map_get r (pending st)) as [q|] eqn:E; [| done].
    destruct (bool_decide (agentId q = agent)); [| done].
    injection Hf as ->. apply map_get_Some in E.
    destruct (c_pending st Hc _ _ E) as [-> _]. exact E.
  - destruct (head_sortByCreatedAt _ _ Hf) as (before & after & Hs & _).
    assert (Hin : p ∈ getPending agent (pending st)).
    { rewrite Hs. apply elem_of_app. right. apply elem_of_cons. by left. }
    apply list_elem_of_filter in Hin as [_ Hin].
    apply elem_of_map_values in Hin as [k Hk].
    destruct (c_pending st Hc _ _ Hk) as [-> _]. exact Hk.
Qed.

(** What [handleUserResponse] does to the tool: nothing, or it settles one
    entry of the map as a reply. *)
Lemma handleUserResponse_cases agent message st :
  consistent st →
  snd (handleUserResponse agent message st) = st ∨
  ∃ r p, (id p, p) ∈ pending st ∧
         snd (handleUserResponse agent message st) = settle by_reply r p st.
Proof.
  intros Hc. unfold handleUserResponse.
  destruct (matchResponse _) as [[rid response]|]; [| by left].
  match goal with
  | |- context [match ?f with Some _ => _ | None => _ end] =>
      destruct f as [p|] eqn:Hf
  end; [| by left].
  right. eexists _, p. split; [| reflexivity].
  exact (found_is_pending agent st rid p Hc Hf).
Qed.

Lemma ids_of_values st :
  consistent st → id <$> map_values (pending st) = (pending st).*1.
Proof.
  intros Hc. pose proof (c_pending st Hc) as Hp. unfold map_values.
  induction (pending st) as [|[k p] m IH]; simpl; [done |].
  f_equal.
  - apply (Hp k p). apply elem_of_cons. by left.
  - apply IH. intros k' q Hq. apply Hp. apply elem_of_cons. by right.
Qed.

Definition settleAll (c : Cause) (r : PermissionResult)
    (l : list PendingPermission) (st : State) : State :=
  foldl (λ s p, settle c r p s) st l.

Lemma cancelAll_settleAll agent st :
  cancelAll agent st
  = settleAll by_cancel {| approved := false; reason := Some "cancelled" |}
      (getPending agent (pending st)) st.
Proof. reflexivity. Qed.

Lemma getPending_distinct agent st :
  consistent st →
  NoDup (id <$> getPending agent (pending st)) ∧
  ∀ p, p ∈ getPending agent (pending st) → (id p, p) ∈ pending st.
Proof.
  intros Hc. split.
  - unfold getPending. apply NoDup_fmap_filter.
    rewrite (ids_of_values st Hc). apply (c_keys st Hc).
  - intros p [_ Hin]%list_elem_of_filter.
    apply elem_of_map_values in Hin as [k Hk].
    destruct (c_pending st Hc _ _ Hk) as [-> _]. exact Hk.
Qed.

(** An invariant of single settlements is an invariant of [settleAll] on
    distinct entries of the map. *)
Lemma settleAll_invariant (I : State → Prop) c r :
  (∀ p st, consistent st → (id p, p) ∈ pending st → I st → I (settle c r p st)) →
  ∀ l st,
    consistent st → NoDup (id <$> l) → (∀ p, p ∈ l → (id p, p) ∈ pending st) →
    I st → consistent (settleAll c r l st) ∧ I (settleAll c r l st).
Proof.
  intros Hstep. induction l as [|p l IH]; intros st Hc Hn Hin HI; [done |].
  simpl in Hn. apply NoDup_cons in Hn as [Hp Hn]. simpl.
  assert (Hpin : (id p, p) ∈ pending st) by (apply Hin, elem_of_cons; by left).
  apply IH.
  - by apply consistent_settle.
  - exact Hn.
  - intros q Hq. simpl. apply elem_of_map_delete. split.
    + apply Hin, elem_of_cons. by right.
    + simpl. intros E. apply Hp. rewrite <- E.
      apply list_elem_of_fmap. by exists q.
  - by apply Hstep.
Qed.

Lemma notDue_settle c r p st : notDue st → notDue (settle c r p st).
Proof. intros H tm [_ Htm]%list_elem_of_filter. by apply H. Qed.

Lemma settleAll_notDue c r l st : notDue st → notDue (settleAll c r l st).
Proof.
  revert st. induction l as [|p l IH]; intros st H; [done |].
  simpl. apply IH. by apply notDue_settle.
Qed.

Lemma earliest_None ts : earliest ts = None → ts = [].
Proof.
  destruct ts as [|t ts]; [done |]. simpl.
  destruct (earliest ts); [destruct (_ <? _)%Z |]; done.
Qed.

Lemma earliest_Some ts tm :
  earliest ts = Some tm → tm ∈ ts ∧ ∀ u, u ∈ ts → (due tm ≤ due u)%Z.
Proof.
  revert tm. induction ts as [|t ts IH]; intros tm; simpl; [done |].
  destruct (earliest ts) as [v|] eqn:E.
  - destruct (IH v eq_refl) as [Hv Hmin].
    destruct (due v <? due t)%Z eqn:C; intros [= <-].
    + apply Z.ltb_lt in C. split; [apply elem_of_cons; by right |].
      intros u [-> | Hu]%elem_of_cons; [lia | by apply Hmin].
    + apply Z.ltb_ge in C. split; [apply elem_of_cons; by left |].
      intros u [-> | Hu]%elem_of_cons; [lia |]. specialize (Hmin u Hu). lia.
  - apply earliest_None in E as ->. intros [= <-].
    split; [apply elem_of_cons; by left |].
    intros u [-> | Hu]%elem_of_cons; [lia | by apply elem_of_nil in Hu].
Qed.

Lemma filter_shorter (tm : Timer) (ts : list Timer) :
  tm ∈ ts → length (filter (λ u, handle u ≠ handle tm) ts) < length ts.
Proof.
  induction ts as [|t ts IH]; [intros H; by apply elem_of_nil in H |].
  intros [<- | H]%elem_of_cons.
  - rewrite filter_cons_False by tauto. simpl.
    pose proof (length_filter (λ u, handle u ≠ handle tm) ts). lia.
  - specialize (IH H). destruct (decide (handle t ≠ handle tm)).
    + rewrite filter_cons_True by done. simpl. lia.
    + rewrite filter_cons_False by done. simpl. lia.
Qed.

(** The state in which the callback of [tm] runs. *)
Definition atDue (tm : Timer) (st : State) : State :=
  setNow (Z.max (now st) (due tm)) st.

(** An invariant of single timer callbacks, run in order of their due
    times, is an invariant of [runTimers]; afterwards no timer due by [t]
    is left and the clock has not passed [t]. *)
Lemma runTimers_invariant (I : State → Prop) (t : Z) :
  (∀ tm st, consistent st → notOverdue st → tm ∈ timers st → I st →
            I (fire tm (atDue tm st))) →
  ∀ fuel st,
    consistent st → notOverdue st → length (timers st) ≤ fuel → I st →
    let st' := runTimers fuel t st in
    consistent st' ∧ I st' ∧
    (∀ tm, tm ∈ timers st' → tm ∈ timers st ∧ (t < due tm)%Z) ∧
    (now st' ≤ Z.max (now st) t)%Z.
Proof.
  intros Hstep. induction fuel as [|fuel IH]; intros st Hc Ho Hlen HI; simpl.
  - assert (E : timers st = [])
      by (destruct (timers st); [done | simpl in Hlen; lia]).
    split; [done |]. split; [done |]. split; [| lia].
    intros tm Htm. rewrite E in Htm. by apply elem_of_nil in Htm.
  - destruct (earliest (timers st)) as [tm|] eqn:E.
    + destruct (earliest_Some _ _ E) as [Hin Hmin].
      destruct (due tm <=? t)%Z eqn:C.
      * apply Z.leb_le in C.
        assert (Hc' : consistent (fire tm (atDue tm st))).
        { apply consistent_fire; [by apply consistent_setNow | exact Hin]. }
        assert (Ho' : notOverdue (fire tm (atDue tm st))).
        { intros u [_ Hu]%list_elem_of_filter. simpl.
          specialize (Hmin u Hu). specialize (Ho u Hu). lia. }
        destruct (IH (fire tm (atDue tm st)) Hc' Ho') as (H1 & H2 & H3 & H4).
        { simpl. pose proof (filter_shorter tm (timers st) Hin). lia. }
        { by apply Hstep. }
        split; [exact H1 |]. split; [exact H2 |]. split.
        -- intros u Hu. destruct (H3 u Hu) as [Hu' ?]. split; [| done].
           simpl in Hu'. by apply list_elem_of_filter in Hu' as [_ ?].
        -- simpl in H4. unfold atDue in H4. specialize (Ho tm Hin). lia.
      * apply Z.leb_gt in C.
        split; [done |]. split; [done |]. split; [| lia].
        intros u Hu. split; [done |]. specialize (Hmin u Hu). lia.
    + apply earliest_None in E.
      split; [done |]. split; [done |]. split; [| lia].
      intros u Hu. rewrite E in Hu. by apply elem_of_nil in Hu.
Qed.

Lemma notDue_notOverdue st : notDue st → notOverdue st.
Proof. intros H tm Htm. specialize (H tm Htm). lia. Qed.

Lemma advance_invariant (I : State → Prop) (t : Z) :
  (∀ tm st, consistent st → notOverdue st → tm ∈ timers st → I st →
            I (fire tm (atDue tm st))) →
  (∀ t' st, I st → I (setNow t' st)) →
  ∀ st, consistent st → notDue st → I st →
        consistent (advance t st) ∧ notDue (advance t st) ∧ I (advance t st) ∧
        (t ≤ now (advance t st))%Z.
Proof.
  intros Hfire Hnow st Hc Hd HI. unfold advance.
  destruct (runTimers_invariant I t Hfire (length (timers st)) st Hc
              (notDue_notOverdue st Hd) (le_n _) HI) as (H1 & H2 & H3 & H4).
  split; [by apply consistent_setNow |]. split; [| split; [by apply Hnow |]].
  - intros tm Htm. simpl in *. destruct (H3 tm Htm) as [Hin Hlt].
    specialize (Hd tm Hin). lia.
  - simpl. lia.
Qed.

Lemma timerDelay_positive delay : (0 < timerDelay delay)%Z.
Proof.
  unfold timerDelay.
  destruct (Z.ltb_spec delay 1); simpl; [lia |].
  destruct (Z.ltb_spec 2147483647 delay); lia.
Qed.

Lemma timerDelay_in_range delay :
  (1 ≤ delay ≤ 2147483647)%Z → timerDelay delay = delay.
Proof.
  intros H. unfold timerDelay.
  destruct (Z.ltb_spec delay 1); simpl; [lia |].
  destruct (Z.ltb_spec 2147483647 delay); lia.
Qed.

Lemma notDue_register newId agentName actionName descr det st :
  notDue st →
  notDue (registerRequest timeoutMs newId agentName actionName descr det st).
Proof.
  intros Hd tm [Htm | ->%list_elem_of_singleton]%elem_of_app; simpl.
  - by apply Hd.
  - pose proof (timerDelay_positive timeoutMs). lia.
Qed.

Lemma notDue_request agent rand sendFails agentName actionName descr det st :
  notDue st →
  notDue (snd (requestPermission timeoutMs agent rand sendFails
                 agentName actionName descr det st)).
Proof.
  intros Hd. unfold requestPermission.
  destruct agent as [a|]; [| exact Hd]. destruct sendFails; [exact Hd |].
  by apply notDue_register.
Qed.

(** Every event keeps the tool consistent and its live timers not yet due. *)
Lemma consistent_step e st :
  consistent st → notDue st →
  consistent (step timeoutMs e st) ∧ notDue (step timeoutMs e st).
Proof.
  intros Hc Hd.
  destruct e as [agent rand sendFails an ac de dt | newId an ac de dt
                 | agent message | agent | t];
    simpl.
  - split; [by apply consistent_request | by apply notDue_request].
  - split; [by apply consistent_register | by apply notDue_register].
  - destruct (handleUserResponse_cases agent message st Hc) as [-> | (r & p & Hin & ->)].
    + done.
    + split; [by apply consistent_settle | by apply notDue_settle].
  - rewrite cancelAll_settleAll.
    destruct (getPending_distinct agent st Hc) as [Hn Hin].
    split; [| by apply settleAll_notDue].
    by apply (settleAll_invariant (λ _, True) _ _ (λ _ _ _ _ _, I) _ st Hc Hn Hin I).
  - destruct (advance_invariant (λ _, True) t (λ _ _ _ _ _ _, I) (λ _ _ _, I)
                st Hc Hd I) as (? & ? & _). done.
Qed.

Lemma consistent_run events st :
  consistent st → notDue st →
  consistent (run timeoutMs events st) ∧ notDue (run timeoutMs events st).
Proof.
  revert st. induction events as [|e events IH]; intros st Hc Hd; [done |].
  destruct (consistent_step e st Hc Hd) as [Hc' Hd']. by apply IH.
Qed.

(** *** The fate of one request

    The request numbered [n], whose timer is due at [d], is in one of three
    conditions. *)

Definition timeoutEntry (n : nat) (d : Z) : Settled :=
  {| promise := n; at_time := d; cause := by_timeout;
     result := {| approved := false; reason := Some "timeout" |} |}.

(** The calls of the [resolve] function of request [n]. *)
Definition entriesOf (n : nat) (st : State) : list Settled :=
  filter (λ e, promise e = n) (settled st).

(** Its timer is live and [resolve] was not called. *)
Definition live (n : nat) (d : Z) (st : State) : Prop :=
  (∃ tm, tm ∈ timers st ∧ handle tm = n ∧ due tm = d) ∧ entriesOf n st = [].

(** [resolve] was called once, by the timer at [d]; no timer and no
    pending entry of the request is left. *)
Definition timedOut (n : nat) (d : Z) (st : State) : Prop :=
  entriesOf n st = [timeoutEntry n d] ∧
  (∀ tm, tm ∈ timers st → handle tm ≠ n) ∧
  (∀ k q, (k, q) ∈ pending st → resolve q ≠ n).

(** [resolve] was called by a reply or by [cancelAll]. *)
Definition answered (n : nat) (st : State) : Prop :=
  ∃ e, e ∈ settled st ∧ promise e = n ∧ cause e ≠ by_timeout.

Definition tracked (n : nat) (d : Z) (st : State) : Prop :=
  live n d st ∨ timedOut n d st ∨ answered n st.

Lemma entriesOf_snoc n st e (f : State → State) :
  settled (f st) = settled st ++ [e] →
  entriesOf n (f st)
  = entriesOf n st ++ (if decide (promise e = n) then [e] else []).
Proof.
  unfold entriesOf. intros ->. rewrite filter_app. reflexivity.
Qed.

Lemma tracked_settle n d c r p st :
  consistent st → (id p, p) ∈ pending st → c ≠ by_timeout →
  tracked n d st → tracked n d (settle c r p st).
Proof.
  intros Hc Hin Hcause.
  destruct (c_pending st Hc _ _ Hin) as (_ & Hres & tp & Htp & Hhp & Hkp).
  intros [[(tm & Htm & Hh & Hdue) He] | [(He & Ht & Hp) | (e & He & Hn & Hca)]].
  - destruct (decide (resolve p = n)) as [E | E].
    + right. right.
      exists {| promise := resolve p; at_time := now st; cause := c; result := r |}.
      split; [| split; [exact E | exact Hcause]].
      simpl. apply elem_of_app. right. by apply list_elem_of_singleton.
    + left. split.
      * exists tm. split; [| done]. simpl. apply list_elem_of_filter.
        split; [congruence | done].
      * rewrite (entriesOf_snoc n st _ (settle c r p) eq_refl). simpl.
        rewrite He. by rewrite decide_False.
  - right. left. pose proof (Hp _ _ Hin) as Hpn. split; [| split].
    + rewrite (entriesOf_snoc n st _ (settle c r p) eq_refl). simpl.
      rewrite He. by rewrite decide_False.
    + intros tm [_ Htm]%list_elem_of_filter. by apply Ht.
    + intros k q [Hq _]%elem_of_map_delete. by apply (Hp k q).
  - right. right. exists e. split; [| done]. simpl. apply elem_of_app. by left.
Qed.

Lemma tracked_fire n d tm st :
  consistent st → tm ∈ timers st → now st = due tm →
  tracked n d st → tracked n d (fire tm st).
Proof.
  intros Hc Hin Hnow.
  intros [[(tn & Htn & Hh & Hdue) He] | [(He & Ht & Hp) | (e & He & Hn & Hca)]].
  - destruct (decide (handle tm = n)) as [E | E].
    + assert (tm = tn) as ->.
      { apply (handle_unique (timers st)); [apply (c_handles st Hc) | done.. |].
        congruence. }
      right. left. split; [| split].
      * rewrite (entriesOf_snoc n st _ (fire tn) eq_refl). simpl.
        rewrite He, decide_True by done. simpl. unfold timeoutEntry.
        by rewrite Hnow, Hdue, Hh.
      * intros u [Hu _]%list_elem_of_filter. congruence.
      * intros k q [Hq Hne]%elem_of_map_delete Hr. simpl in Hne.
        destruct (c_pending st Hc _ _ Hq) as (_ & Hrq & tq & Htq & Hhq & Hkq).
        apply Hne. rewrite <- Hkq. f_equal.
        apply (handle_unique (timers st)); [apply (c_handles st Hc) | done.. |].
        congruence.
    + left. split.
      * exists tn. split; [| done]. simpl. apply list_elem_of_filter.
        split; [congruence | done].
      * rewrite (entriesOf_snoc n st _ (fire tm) eq_refl). simpl.
        rewrite He. by rewrite decide_False.
  - right. left. pose proof (Ht _ Hin) as Htn. split; [| split].
    + rewrite (entriesOf_snoc n st _ (fire tm) eq_refl). simpl.
      rewrite He. by rewrite decide_False.
    + intros u [_ Hu]%list_elem_of_filter. by apply Ht.
    + intros k q [Hq _]%elem_of_map_delete. by apply (Hp k q).
  - right. right. exists e. split; [| done]. simpl. apply elem_of_app. by left.
Qed.

Lemma tracked_setNow n d t st : tracked n d st → tracked n d (setNow t st).
Proof. done. Qed.

Lemma entriesOf_member n st e : e ∈ entriesOf n st → e ∈ settled st ∧ promise e = n.
Proof. intros [? ?]%list_elem_of_filter. done. Qed.

Lemma tracked_register n d newId agentName actionName descr det st :
  consistent st → tracked n d st →
  tracked n d (registerRequest timeoutMs newId agentName actionName descr det st).
Proof.
  intros Hc Ht.
  destruct Ht as [[(tn & Htn & Hh & Hdue) He] | [(He & Ht & Hp) | (e & He & Hn & Hca)]].
  - left. split; [| exact He]. exists tn. split; [| done].
    simpl. apply elem_of_app. by left.
  - assert (Hlt : n < next st).
    { assert (Hin : timeoutEntry n d ∈ entriesOf n st)
        by (rewrite He; by apply list_elem_of_singleton).
      apply entriesOf_member in Hin as [Hin _].
      apply (c_settled_issued st Hc _ Hin). }
    right. left. split; [exact He |]. split.
    + intros tm [Htm | ->%list_elem_of_singleton]%elem_of_app; [by apply Ht |].
      simpl. lia.
    + intros k q [[= -> ->] | [Hq _]]%elem_of_map_set;
        [simpl; lia | by apply (Hp k q) | apply (c_keys st Hc)].
  - right. right. by exists e.
Qed.

Lemma tracked_request n d agent rand sendFails agentName actionName descr det st :
  consistent st → tracked n d st →
  tracked n d (snd (requestPermission timeoutMs agent rand sendFails
                      agentName actionName descr det st)).
Proof.
  intros Hc Ht. unfold requestPermission.
  destruct agent as [a|]; [| exact Ht]. destruct sendFails; [exact Ht |].
  by apply tracked_register.
Qed.

(** A request that has just been registered is [live]. *)
Lemma registered_is_live newId agentName actionName descr det st :
  consistent st →
  live (next st) (now st + timerDelay timeoutMs)
    (registerRequest timeoutMs newId agentName actionName descr det st).
Proof.
  intros Hc. split.
  - eexists. split; [simpl; apply elem_of_app; right; by apply list_elem_of_singleton |].
    done.
  - unfold entriesOf. simpl.
    destruct (filter _ (settled st)) as [|e l] eqn:E; [done |].
    assert (Hin : e ∈ filter (λ e, promise e = next st) (settled st))
      by (rewrite E; apply elem_of_cons; by left).
    apply list_elem_of_filter in Hin as [Hp Hin].
    pose proof (c_settled_issued st Hc _ Hin). lia.
Qed.

Lemma tracked_step n d e st :
  consistent st → notDue st → tracked n d st → tracked n d (step timeoutMs e st).
Proof.
  intros Hc Hd Ht.
  destruct e as [agent rand sendFails an ac de dt | newId an ac de dt
                 | agent message | agent | t]; simpl.
  - by apply tracked_request.
  - by apply tracked_register.
  - destruct (handleUserResponse_cases agent message st Hc) as [-> | (r & p & Hin & ->)].
    + done.
    + by apply tracked_settle.
  - rewrite cancelAll_settleAll.
    destruct (getPending_distinct agent st Hc) as [Hn Hin].
    apply (settleAll_invariant (tracked n d) by_cancel _); try done.
    intros p s Hcs Hp Hs. by apply tracked_settle.
  - apply (advance_invariant (tracked n d) t); try done.
    intros tm s Hcs Ho Hin Hs. apply tracked_fire.
    + by apply consistent_setNow.
    + exact Hin.
    + simpl. specialize (Ho tm Hin). lia.
    + exact Hs.
Qed.

Lemma tracked_run n d events st :
  consistent st → notDue st → tracked n d st →
  consistent (run timeoutMs events st) ∧ notDue (run timeoutMs events st) ∧
  tracked n d (run timeoutMs events st).
Proof.
  revert st. induction events as [|e events IH]; intros st Hc Hd Ht; [done |].
  destruct (consistent_step e st Hc Hd) as [Hc' Hd'].
  apply IH; [done.. |]. by apply tracked_step.
Qed.

(** The fate of a request registered in a state the tool can reach, after
    any further events.  The registration is the one of a call that ran
    without a break or that was overtaken while it waited. *)
Lemma request_fate
    (earlier later : list Event) (newId agentName actionName descr : string)
    (det : option string) :
  let st0 := run timeoutMs earlier initial in
  let registered :=
    registerRequest timeoutMs newId agentName actionName descr det st0 in
  let st := run timeoutMs later registered in
  consistent registered ∧ notDue registered ∧
  entriesOf (next st0) registered = [] ∧
  notDue st ∧ tracked (next st0) (now st0 + timerDelay timeoutMs) st.
Proof.
  intros st0 registered st.
  destruct (consistent_run earlier initial consistent_initial) as [Hc0 Hd0].
  { intros tm Htm. by apply elem_of_nil in Htm. }
  fold st0 in Hc0, Hd0.
  pose proof (registered_is_live newId agentName actionName descr det st0 Hc0)
    as Hlive.
  fold registered in Hlive.
  assert (Hc1 : consistent registered) by (by apply consistent_register).
  assert (Hd1 : notDue registered) by (by apply notDue_register).
  destruct (tracked_run (next st0) (now st0 + timerDelay timeoutMs)%Z later
              registered Hc1 Hd1)
    as (_ & Hd & Ht); [by left |].
  split; [exact Hc1 |]. split; [exact Hd1 |].
  split; [by destruct Hlive |]. split; [exact Hd | exact Ht].
Qed.

(** C4, amended: a request is registered in a state the tool can reach,
    with a configured timeout that [setTimeout] takes as it is (at most
    2147483647 ms), and more events follow.  If no reply and no [cancelAll]
    settled the request and the clock has reached the time of the
    registration plus [timeoutMs], then [resolve] was called exactly once,
    at that time, with a denial for the reason [timeout]; no pending entry
    and no timer of the request is left. *)
Theorem unanswered_request_times_out
    (earlier later : list Event) (newId agentName actionName descr : string)
    (det : option string) :
  let st0 := run timeoutMs earlier initial in
  let n := next st0 in
  let st :=
    run timeoutMs later
      (registerRequest timeoutMs newId agentName actionName descr det st0) in
  (timeoutMs ≤ 2147483647)%Z →
  (now st0 + timeoutMs ≤ now st)%Z →
  (∀ e, e ∈ settled st → promise e = n → cause e = by_timeout) →
  filter (λ e, promise e = n) (settled st)
  = [{| promise := n; at_time := now st0 + timeoutMs; cause := by_timeout;
        result := {| approved := false; reason := Some "timeout" |} |}] ∧
  (∀ k q, (k, q) ∈ pending st → resolve q ≠ n) ∧
  (∀ tm, tm ∈ timers st → handle tm ≠ n).
Proof.
  intros st0 n st Hrange Hnow Hun.
  destruct (request_fate earlier later newId agentName actionName descr det)
    as (_ & _ & _ & Hd & Hfate).
  fold st0 in Hd, Hfate. fold st in Hd, Hfate. fold n in Hfate.
  rewrite timerDelay_in_range in Hfate by lia.
  destruct Hfate
    as [[(tm & Htm & Hh & Hdue) He] | [(He & Ht & Hp) | (e & He & Hn & Hca)]].
  - exfalso. specialize (Hd tm Htm). lia.
  - done.
  - exfalso. apply Hca. by apply Hun.
Qed.

(** Events that are neither replies nor cancellations. *)
Definition quiet (e : Event) : bool :=
  match e with
  | Request _ _ _ _ _ _ _ | Register _ _ _ _ _ | Advance _ => true
  | Reply _ _ | CancelAll _ => false
  end.

(** Every call of [resolve] not yet in [base] came from a timer. *)
Definition onlyTimeouts (base : list Settled) (st : State) : Prop :=
  ∀ e, e ∈ settled st → e ∈ base ∨ cause e = by_timeout.

Lemma onlyTimeouts_step base e st :
  quiet e = true → consistent st → notDue st →
  onlyTimeouts base st → onlyTimeouts base (step timeoutMs e st).
Proof.
  intros Hq Hc Hd Ho.
  destruct e as [agent rand sendFails an ac de dt | newId an ac de dt
                 | agent message | agent | t];
    try discriminate; simpl.
  - unfold requestPermission. destruct agent; [| done]. by destruct sendFails.
  - done.
  - apply (advance_invariant (onlyTimeouts base) t); try done.
    intros tm s _ _ _ Hs x [Hx | ->%list_elem_of_singleton]%elem_of_app.
    + by apply Hs.
    + by right.
Qed.

Lemma onlyTimeouts_run base events st :
  forallb quiet events = true → consistent st → notDue st →
  onlyTimeouts base st → onlyTimeouts base (run timeoutMs events st).
Proof.
  revert st. induction events as [|e events IH]; intros st Hq Hc Hd Ho; [done |].
  simpl in Hq. apply andb_prop in Hq as [Hq1 Hq2].
  destruct (consistent_step e st Hc Hd) as [Hc' Hd'].
  apply IH; [done.. |]. by apply onlyTimeouts_step.
Qed.

(** When only requests and the passing of time follow, the request is
    settled by its timer, after the delay that [setTimeout] made of the
    configured timeout. *)
Corollary undisturbed_request_times_out
    (earlier later : list Event) (newId agentName actionName descr : string)
    (det : option string) :
  let st0 := run timeoutMs earlier initial in
  let n := next st0 in
  let st :=
    run timeoutMs later
      (registerRequest timeoutMs newId agentName actionName descr det st0) in
  forallb quiet later = true →
  (now st0 + timerDelay timeoutMs ≤ now st)%Z →
  filter (λ e, promise e = n) (settled st)
  = [{| promise := n; at_time := now st0 + timerDelay timeoutMs;
        cause := by_timeout;
        result := {| approved := false; reason := Some "timeout" |} |}].
Proof.
  intros st0 n st Hq Hnow.
  destruct (request_fate earlier later newId agentName actionName descr det)
    as (Hc1 & Hd1 & Hnil & Hd & Hfate).
  fold st0 in Hc1, Hd1, Hnil, Hd, Hfate. fold st in Hd, Hfate.
  fold n in Hnil, Hfate.
  destruct Hfate
    as [[(tm & Htm & Hh & Hdue) He] | [(He & Ht & Hp) | (e & He & Hn & Hca)]].
  - exfalso. specialize (Hd tm Htm). lia.
  - exact He.
  - exfalso.
    set (registered :=
      registerRequest timeoutMs newId agentName actionName descr det st0) in *.
    assert (Ho : onlyTimeouts (settled registered) st).
    { apply onlyTimeouts_run; try done. intros x Hx. by left. }
    destruct (Ho e He) as [Hin | Hc]; [| done].
    assert (Hf : e ∈ entriesOf n registered)
      by (apply list_elem_of_filter; split; done).
    rewrite Hnil in Hf. by apply elem_of_nil in Hf.
Qed.

(** In every state the tool can reach, the [pending] map has one entry
    per key and stores each entry under its [id]. *)
Lemma reachable_keyed (events : list Event) :
  keyed (pending (run timeoutMs events initial)).
Proof.
  destruct (consistent_run events initial consistent_initial) as [Hc _].
  { intros tm Htm. by apply elem_of_nil in Htm. }
  split; [apply (c_keys _ Hc) |].
  apply Forall_forall. intros [k p] Hin.
  by destruct (c_pending _ Hc _ _ Hin) as [? _].
Qed.

End PermissionTimeoutFacts.

Section PermissionTimeoutScenario.

Import Permission.

(** One request, registered at time 0 with a timeout of five minutes. *)
Definition first_request : State :=
  snd (requestPermission 300000 (Some fox) (λ _, 41%N) false
         "swift-fox" "Bash" "Run command: ls" None (run 300000 [] initial)).

Definition five_minutes_later : State :=
  run 300000 [Advance 300000] first_request.

Lemma unanswered_request_times_out_witness :
  filter (λ e, promise e = 0) (settled five_minutes_later)
  = [{| promise := 0; at_time := now (run 300000 [] initial) + 300000;
        cause := by_timeout;
        result := {| approved := false; reason := Some "timeout" |} |}] ∧
  (∀ k q, (k, q) ∈ pending five_minutes_later → resolve q ≠ 0) ∧
  (∀ tm, tm ∈ timers five_minutes_later → handle tm ≠ 0).
Proof.
  apply (unanswered_request_times_out 300000 ltac:(lia) [] [Advance 300000]
           "0029" "swift-fox" "Bash" "Run command: ls" None).
  - lia.
  - vm_compute. discriminate.
  - intros e He. vm_compute in He.
    apply list_elem_of_singleton in He as ->. reflexivity.
Defined.

(** The claim as the spec has it fails for a configured timeout that
    [setTimeout] does not take as it is.  With a timeout of 2147483648 ms a
    request registered at time 0 and left alone is denied for the reason
    [timeout] at time 1, not at time 2147483648. *)
Lemma timeout_beyond_timer_range_fires_at_once :
  settled (run 2147483648 [Advance 1]
             (registerRequest 2147483648 "0029" "swift-fox" "Bash"
                "Run command: ls" None (run 2147483648 [] initial)))
  = [{| promise := 0; at_time := 1; cause := by_timeout;
        result := {| approved := false; reason := Some "timeout" |} |}] ∧
  (now (run 2147483648 [] initial) + 2147483648 ≠ 1)%Z.
Proof. split; [reflexivity | vm_compute; discriminate]. Qed.

End PermissionTimeoutScenario.

(** * Further properties of the code *)

Section SplitMessageSizes.

Import AgentBot.

Lemma splitLoop_sizes limit fuel remaining chunks :
  0 < limit →
  Forall (λ c, 1 ≤ JS.length c ≤ limit + 1) chunks →
  Forall (λ c, 1 ≤ JS.length c ≤ limit + 1) (splitLoop limit fuel remaining chunks).
Proof.
  intros Hl. revert remaining chunks.
  induction fuel as [|fuel IH]; intros remaining chunks H; simpl; [done |].
  destruct (0 <? JS.length remaining) eqn:E; [| done].
  apply Nat.ltb_lt in E.
  apply IH. apply Forall_app. split; [done |].
  constructor; [| constructor].
  rewrite length_take.
  pose proof (splitIndexOf_le limit remaining).
  pose proof (splitIndexOf_pos limit remaining Hl E). lia.
Qed.

Lemma splitMessageAt_sizes limit content :
  0 < limit → content ≠ EmptyString →
  Forall (λ c, 1 ≤ JS.length c ≤ limit + 1) (splitMessageAt limit content).
Proof.
  intros Hl Hne. unfold splitMessageAt.
  destruct (JS.length content <=? limit) eqn:E.
  - apply Nat.leb_le in E. constructor; [| constructor].
    destruct content as [|a s]; [done |].
    change (JS.length (String a s)) with (S (JS.length s)) in *. lia.
  - apply splitLoop_sizes; [done | constructor].
Qed.

(** X1: the chunks of a non-empty text are never empty and never longer
    than [MAX_MESSAGE_SIZE + 1] code units. *)
Theorem splitMessage_chunk_sizes (content : string) :
  content ≠ EmptyString →
  Forall (λ c, 1 ≤ JS.length c ≤ MAX_MESSAGE_SIZE + 1) (splitMessage content).
Proof.
  intros Hne. apply splitMessageAt_sizes; [apply MAX_MESSAGE_SIZE_pos | done].
Qed.

Lemma splitMessage_chunk_sizes_witness :
  Forall (λ c, 1 ≤ JS.length c ≤ MAX_MESSAGE_SIZE + 1) (splitMessage "hello").
Proof. apply (splitMessage_chunk_sizes "hello"). discriminate. Defined.

(** X2: [sendToUser] enqueues nothing for a blank text; for any other text
    it appends chunks that join to the text and leaves the queued messages
    in place. *)
Theorem sendToUser_enqueues (content : string) (queue : list string) :
  (JS.trim content = EmptyString → sendToUser content queue = queue) ∧
  (JS.trim content ≠ EmptyString →
   ∃ chunks, sendToUser content queue = queue ++ chunks ∧
             JS.concat chunks = content).
Proof.
  unfold sendToUser. split; intros H.
  - by rewrite H.
  - destruct (JS.trim content) eqn:E; [done |]. simpl.
    exists (splitMessage content). split; [done |].
    apply splitMessageAt_concat, MAX_MESSAGE_SIZE_pos.
Qed.

End SplitMessageSizes.

Section InboundRouting.

Import AgentBot.

(** What reaches the bridge of one agent: a chat message, or a line decoded
    from the subprocess output. *)
Inductive BridgeInput : Type :=
| Incoming (from body : string)
| Output (line : option ClaudeCode.ClaudeCodeEvent).

Definition bridgeStep (i : BridgeInput) (h : Handler) : Handler :=
  match i with
  | Incoming from body => snd (handleIncomingMessage from body h)
  | Output line =>
      {| userJid := userJid h;
         agentProcess := snd (ClaudeCode.handleLine line (agentProcess h));
         messageQueue := messageQueue h |}
  end.

Definition bridgeRun (inputs : list BridgeInput) (h : Handler) : Handler :=
  foldl (λ k i, bridgeStep i k) h inputs.

Definition reservedWords : list string := ["quit"; "exit"; "status"; "help"; "?"].

(** A turn that came from a chat message of the operator and is not a
    reserved command. *)
Definition operatorTurn (user : string) (inputs : list BridgeInput)
    (turn : string) : Prop :=
  ∃ from body,
    Incoming from body ∈ inputs ∧ bareJid from = bareJid user ∧
    turn = JS.trim body ∧ JS.toLowerCase turn ∉ reservedWords.

Lemma operatorTurn_mono user inputs i turn :
  operatorTurn user inputs turn → operatorTurn user (inputs ++ [i]) turn.
Proof.
  intros (from & body & Hin & ?). exists from, body.
  split; [apply elem_of_app; by left | done].
Qed.

Lemma eqb_false_ne s t : JS.eqb s t = false → s ≠ t.
Proof. unfold JS.eqb. by intros H%bool_decide_eq_false. Qed.

Lemma eqb_true_eq s t : JS.eqb s t = true → s = t.
Proof. unfold JS.eqb. by intros H%bool_decide_eq_true. Qed.

(** A turn that was in the process before the bridge ran (one for which
    [before] holds), or that came from the operator. *)
Definition turnFrom (before : string → Prop) (user : string)
    (inputs : list BridgeInput) (turn : string) : Prop :=
  before turn ∨ operatorTurn user inputs turn.

Lemma bridgeStep_turns before user inputs i h :
  userJid h = user →
  Forall (turnFrom before user inputs)
    (ClaudeCode.stdin (agentProcess h) ++ ClaudeCode.messageQueue (agentProcess h)) →
  let h' := bridgeStep i h in
  userJid h' = user ∧
  Forall (turnFrom before user (inputs ++ [i]))
    (ClaudeCode.stdin (agentProcess h') ++ ClaudeCode.messageQueue (agentProcess h')).
Proof.
  intros Hu Hall.
  assert (Hmono : Forall (turnFrom before user (inputs ++ [i]))
    (ClaudeCode.stdin (agentProcess h) ++ ClaudeCode.messageQueue (agentProcess h))).
  { eapply Forall_impl; [exact Hall |].
    intros t [Ht | Ht]; [by left | right; by apply operatorTurn_mono]. }
  destruct i as [from body | line]; simpl.
  - unfold handleIncomingMessage.
    destruct (JS.eqb (bareJid from) (bareJid (userJid h))) eqn:Efrom; simpl; [| done].
    apply eqb_true_eq in Efrom. rewrite Hu in Efrom.
    destruct (JS.eqb _ "quit") eqn:E1; simpl; [done |].
    destruct (JS.eqb _ "exit") eqn:E2; simpl; [done |].
    destruct (JS.eqb _ "status") eqn:E3; simpl; [done |].
    destruct (JS.eqb _ "help") eqn:E4; simpl; [done |].
    destruct (JS.eqb _ "?") eqn:E5; simpl; [done |].
    apply eqb_false_ne in E1, E2, E3, E4, E5.
    assert (Hturn : turnFrom before user (inputs ++ [Incoming from body])
                      (JS.trim body)).
    { right. exists from, body.
      split; [apply elem_of_app; right; by apply list_elem_of_singleton |].
      split; [done |]. split; [done |].
      unfold reservedWords. rewrite !not_elem_of_cons. repeat split; try done.
      intros H. by apply elem_of_nil in H. }
    unfold ClaudeCode.send.
    destruct (ClaudeCode.isAlive (agentProcess h)); simpl; [| done].
    destruct (ClaudeCode.isReady (agentProcess h)); simpl.
    + split; [done |]. apply Forall_app in Hmono as [H1 H2].
      apply Forall_app. split; [| done]. apply Forall_app. split; [done |].
      by constructor.
    + split; [done |]. apply Forall_app in Hmono as [H1 H2].
      apply Forall_app. split; [done |]. apply Forall_app. split; [done |].
      by constructor.
  - split; [done |].
    destruct line as [[sid mode | content | sid stop] |]; simpl; try done.
    unfold ClaudeCode.processQueue; simpl.
    destruct (ClaudeCode.messageQueue (agentProcess h)) as [|next q] eqn:E; simpl;
      [done |].
    destruct (JS.truthy next); simpl.
    + by rewrite <- app_assoc.
    + apply Forall_app in Hmono as [H1 H2]. apply Forall_cons in H2 as [_ H2].
      apply Forall_app. done.
Qed.

Lemma bridgeRun_turns before user later earlier h :
  userJid h = user →
  Forall (turnFrom before user earlier)
    (ClaudeCode.stdin (agentProcess h) ++ ClaudeCode.messageQueue (agentProcess h)) →
  Forall (turnFrom before user (earlier ++ later))
    (ClaudeCode.stdin (agentProcess (bridgeRun later h)) ++
     ClaudeCode.messageQueue (agentProcess (bridgeRun later h))).
Proof.
  revert earlier h. induction later as [|i later IH]; intros earlier h Hu Hall.
  - by rewrite app_nil_r.
  - destruct (bridgeStep_turns before user earlier i h Hu Hall) as [Hu' Hall'].
    replace (earlier ++ i :: later) with ((earlier ++ [i]) ++ later)
      by (by rewrite <- app_assoc).
    apply (IH (earlier ++ [i]) (bridgeStep i h) Hu' Hall').
Qed.

(** The process that [spawn] returns holds at most one turn, the initial
    prompt of its configuration. *)
Lemma spawnedProcess_turns (config : ClaudeCode.AgentConfig) :
  Forall (λ turn, ClaudeCode.initialPrompt config = Some turn)
    (ClaudeCode.stdin (ClaudeCode.spawnedProcess config)
     ++ ClaudeCode.messageQueue (ClaudeCode.spawnedProcess config)).
Proof.
  unfold ClaudeCode.spawnedProcess.
  destruct (ClaudeCode.initialPrompt config) as [prompt|]; simpl; [| done].
  destruct (JS.truthy prompt && negb (JS.truthyOpt (ClaudeCode.resumeSessionId config)));
    simpl; [| done].
  by repeat constructor.
Qed.

(** X3: the bridge of an agent is given the process that [spawn]
    returned, to which [spawn] may have written the initial prompt of its
    configuration.  Whatever messages and output lines reach the bridge
    then, every turn written to the subprocess or queued for it is that
    initial prompt, or the trimmed body of a chat message sent from the
    operator's bare JID that is none of the reserved commands [quit],
    [exit], [status], [help], [?]. *)
Theorem turns_are_the_prompt_or_operator_messages (inputs : list BridgeInput)
    (user : string) (config : ClaudeCode.AgentConfig) :
  let h := bridgeRun inputs
             {| userJid := user;
                agentProcess := ClaudeCode.spawnedProcess config;
                messageQueue := [] |} in
  Forall (λ turn, ClaudeCode.initialPrompt config = Some turn
                  ∨ operatorTurn user inputs turn)
    (ClaudeCode.stdin (agentProcess h) ++ ClaudeCode.messageQueue (agentProcess h)).
Proof.
  intros h.
  apply (bridgeRun_turns (λ turn, ClaudeCode.initialPrompt config = Some turn)
           user inputs []
           {| userJid := user; agentProcess := ClaudeCode.spawnedProcess config;
              messageQueue := [] |}); [reflexivity |].
  eapply Forall_impl; [apply spawnedProcess_turns |].
  intros turn Hturn. by left.
Qed.

End InboundRouting.

Section TurnProperties.

Import ClaudeCode.

(** X4: whatever reaches a process (calls of [send], decoded lines, the
    exit), a turn is written to the subprocess only after the [result] of
    the turn written before it was decoded, and while a turn is in flight
    [isReady] is false. *)
Theorem turns_are_serialised (inputs : list Input) :
  turnInvariant (run inputs newProcess).
Proof. apply (turnInvariant_run inputs newProcess turnInvariant_new). Qed.

Definition sendsNonEmpty (i : Input) : bool :=
  match i with Send m => JS.truthy m | _ => true end.

(** X5: when no empty message is sent, the turns written to the subprocess
    followed by the turns still queued are the accepted messages in the
    order they arrived: nothing is lost or reordered. *)
Theorem queued_turns_are_fifo (inputs : list Input) :
  forallb sendsNonEmpty inputs = true →
  stdin (run inputs newProcess) ++ messageQueue (run inputs newProcess)
  = accepted inputs true.
Proof.
  intros H. apply queue_is_fifo. intros m Hm.
  rewrite forallb_forall in H. apply list_elem_of_In in Hm.
  exact (H (Send m) Hm).
Qed.

Lemma queued_turns_are_fifo_witness :
  stdin (run [Send "a"; Send "b"; Line (Some (result "s" "end")); Send "c"] newProcess)
  ++ messageQueue (run [Send "a"; Send "b"; Line (Some (result "s" "end")); Send "c"] newProcess)
  = accepted [Send "a"; Send "b"; Line (Some (result "s" "end")); Send "c"] true.
Proof.
  apply (queued_turns_are_fifo
           [Send "a"; Send "b"; Line (Some (result "s" "end")); Send "c"]).
  reflexivity.
Defined.

End TurnProperties.

Section FilterFacts.

Context {A : Type}.

Lemma filter_ext_in (P Q : A → Prop) `{!∀ x, Decision (P x), !∀ x, Decision (Q x)}
    (l : list A) :
  (∀ x, x ∈ l → (P x ↔ Q x)) → filter P l = filter Q l.
Proof.
  induction l as [|a l IH]; intros Hx; [done |].
  assert (Ha : P a ↔ Q a) by (apply Hx, elem_of_cons; by left).
  assert (Hl : filter P l = filter Q l)
    by (apply IH; intros x Hin; apply Hx, elem_of_cons; by right).
  destruct (decide (P a)) as [HP | HP].
  - rewrite !filter_cons_True by tauto. by rewrite Hl.
  - rewrite !filter_cons_False by tauto. exact Hl.
Qed.

Lemma filter_all (P : A → Prop) `{!∀ x, Decision (P x)} (l : list A) :
  (∀ x, x ∈ l → P x) → filter P l = l.
Proof.
  induction l as [|a l IH]; intros Hx; [done |].
  rewrite filter_cons_True by (apply Hx, elem_of_cons; by left).
  f_equal. apply IH. intros x Hin. apply Hx, elem_of_cons. by right.
Qed.

Lemma filter_none (P : A → Prop) `{!∀ x, Decision (P x)} (l : list A) :
  (∀ x, x ∈ l → ¬ P x) → filter P l = [].
Proof.
  induction l as [|a l IH]; intros Hx; [done |].
  rewrite filter_cons_False by (apply Hx, elem_of_cons; by left).
  apply IH. intros x Hin. apply Hx, elem_of_cons. by right.
Qed.

End FilterFacts.

Section CancelAllProperties.

Import Permission.

Definition cancelledEntry (time : Z) (p : PendingPermission) : Settled :=
  {| promise := resolve p; at_time := time; cause := by_cancel;
     result := {| approved := false; reason := Some "cancelled" |} |}.

Lemma settleAll_fields c r l st :
  pending (settleAll c r l st)
  = filter (λ e, e.1 ∉ id <$> l) (pending st) ∧
  timers (settleAll c r l st)
  = filter (λ t, handle t ∉ timeoutHandle <$> l) (timers st) ∧
  settled (settleAll c r l st)
  = settled st ++
    map (λ p, {| promise := resolve p; at_time := now st; cause := c; result := r |}) l ∧
  now (settleAll c r l st) = now st.
Proof.
  revert st. induction l as [|p l IH]; intros st.
  - simpl. repeat split.
    + symmetry. apply filter_all. intros e _ H. by apply elem_of_nil in H.
    + symmetry. apply filter_all. intros e _ H. by apply elem_of_nil in H.
    + by rewrite app_nil_r.
  - destruct (IH (settle c r p st)) as (H1 & H2 & H3 & H4).
    change (settleAll c r (p :: l) st) with (settleAll c r l (settle c r p st)).
    rewrite H1, H2, H3, H4. simpl. repeat split.
    + unfold map_delete. rewrite list_filter_filter.
      apply list_filter_iff. intros e. rewrite not_elem_of_cons. tauto.
    + rewrite list_filter_filter.
      apply list_filter_iff. intros e. rewrite not_elem_of_cons. tauto.
    + by rewrite <- app_assoc.
Qed.

Lemma getPending_filter other (Q : string * PendingPermission → Prop)
    `{!∀ e, Decision (Q e)} (m : list (string * PendingPermission)) :
  (∀ e, e ∈ m → ¬ Q e → agentId e.2 ≠ other) →
  getPending other (filter Q m) = getPending other m.
Proof.
  unfold getPending, map_values.
  induction m as [|[k q] m IH]; intros Hm; [done |].
  assert (IH' : filter (λ p, agentId p = other) (filter Q m).*2
                = filter (λ p, agentId p = other) m.*2).
  { apply IH. intros e He. apply Hm, elem_of_cons. by right. }
  destruct (decide (Q (k, q))) as [HQ | HQ].
  - rewrite filter_cons_True by done. rewrite !fmap_cons.
    destruct (decide (agentId q = other)).
    + rewrite !filter_cons_True by done. by rewrite IH'.
    + rewrite !filter_cons_False by done. exact IH'.
  - rewrite filter_cons_False by done. rewrite fmap_cons.
    rewrite (filter_cons_False (λ p, agentId p = other)); [exact IH' |].
    apply (Hm (k, q)); [apply elem_of_cons; by left | done].
Qed.

(** After [cancelAll] the agent has no pending request and the pending
    requests of the other agents are the ones they had. *)
Lemma cancelAll_pending (agent : string) (st : State) :
  keyed (pending st) →
  getPending agent (pending (cancelAll agent st)) = [] ∧
  (∀ other, other ≠ agent →
     getPending other (pending (cancelAll agent st))
     = getPending other (pending st)).
Proof.
  intros Hkeyed. rewrite cancelAll_settleAll.
  destruct (settleAll_fields by_cancel
              {| approved := false; reason := Some "cancelled" |}
              (getPending agent (pending st)) st) as (H1 & _).
  rewrite H1.
  pose proof (λ k p, keyed_id (pending st) k p Hkeyed) as Hid.
  destruct Hkeyed as [Hn _].
  assert (Hmem : ∀ k q, (k, q) ∈ pending st →
            (k ∈ id <$> getPending agent (pending st) ↔ agentId q = agent)).
  { intros k q Hq. split.
    - intros [p [-> Hp]]%list_elem_of_fmap.
      apply list_elem_of_filter in Hp as [Ha Hp].
      apply elem_of_map_values in Hp as [k' Hp].
      pose proof (Hid _ _ Hp) as E. subst k'.
      by rewrite (map_key_unique _ _ _ _ Hn Hq Hp).
    - intros Ha. apply list_elem_of_fmap. exists q. split; [symmetry; by apply Hid |].
      apply list_elem_of_filter. split; [done |].
      apply elem_of_map_values. by exists k. }
  split.
  - unfold getPending, map_values. apply filter_none.
    intros q [[k q'] [-> Hq]]%list_elem_of_fmap Ha. simpl in Ha.
    apply list_elem_of_filter in Hq as [Hnot Hq]. simpl in Hnot.
    apply Hnot. by apply (Hmem k q').
  - intros other Hother. apply getPending_filter.
    intros [k q] Hq Hnot. simpl in *.
    assert (Hin : k ∈ id <$> getPending agent (pending st)).
    { destruct (decide (k ∈ id <$> getPending agent (pending st))); [done |].
      by exfalso. }
    apply (Hmem k q Hq) in Hin. congruence.
Qed.

(** X6: [cancelAll] for an agent leaves none of its requests pending,
    leaves the pending requests of every other agent as they were, and calls
    [resolve] once for each cancelled request, with a denial for the reason
    [cancelled]; the timers of the cancelled requests are cleared. *)
Theorem cancelAll_cancels_the_agent (agent : string) (st : State) :
  keyed (pending st) →
  getPending agent (pending (cancelAll agent st)) = [] ∧
  (∀ other, other ≠ agent →
     getPending other (pending (cancelAll agent st))
     = getPending other (pending st)) ∧
  settled (cancelAll agent st)
  = settled st ++ map (cancelledEntry (now st)) (getPending agent (pending st)) ∧
  timers (cancelAll agent st)
  = filter (λ t, handle t ∉ timeoutHandle <$> getPending agent (pending st))
      (timers st).
Proof.
  intros Hkeyed.
  destruct (cancelAll_pending agent st Hkeyed) as [Hnone Hothers].
  split; [exact Hnone | split; [exact Hothers |]].
  rewrite cancelAll_settleAll.
  destruct (settleAll_fields by_cancel
              {| approved := false; reason := Some "cancelled" |}
              (getPending agent (pending st)) st) as (_ & H2 & H3 & _).
  rewrite H2, H3. split; reflexivity.
Qed.

End CancelAllProperties.

Section RequestIdProperties.

Import Permission.

Fixpoint allFrom (f : N → bool) (start : N) (count : nat) : bool :=
  match count with
  | 0 => true
  | S c => f start && allFrom f (N.succ start) c
  end.

Lemma allFrom_spec f start count k :
  allFrom f start count = true →
  (start ≤ k)%N → (k < start + N.of_nat count)%N → f k = true.
Proof.
  revert start. induction count as [|c IH]; intros start H Hlo Hhi; [lia |].
  simpl in H. apply andb_prop in H as [Hs Hrest].
  destruct (decide (k = start)) as [-> | Hne]; [exact Hs |].
  apply (IH (N.succ start) Hrest); lia.
Qed.

Definition wellFormedId (newId : string) : bool :=
  (JS.length newId =? 4) && allHex newId.

Lemma requestIdOf_wellFormed draw :
  (draw < 65536)%N → wellFormedId (requestIdOf draw) = true.
Proof.
  intros H.
  assert (All : allFrom (λ d, wellFormedId (requestIdOf d)) 0 (N.to_nat 65536) = true)
    by (vm_compute; reflexivity).
  apply (allFrom_spec _ _ _ draw All); lia.
Qed.

Lemma hex_not_space a : isHexDigit a = true → JS.is_space a = false.
Proof.
  destruct a as [[] [] [] [] [] [] [] []]; try discriminate; reflexivity.
Qed.

Lemma hex_lower a : isHexDigit a = true → JS.lower a = a.
Proof.
  destruct a as [[] [] [] [] [] [] [] []]; try discriminate; reflexivity.
Qed.

(** No white space and no upper-case letter. *)
Fixpoint plain (s : string) : bool :=
  match s with
  | EmptyString => true
  | String a s' =>
      negb (JS.is_space a) && bool_decide (JS.lower a = a) && plain s'
  end.

Lemma plain_cons a s :
  plain (String a s) = true →
  JS.is_space a = false ∧ JS.lower a = a ∧ plain s = true.
Proof.
  simpl. intros H. apply andb_prop in H as [H Hs]. apply andb_prop in H as [Ha Hl].
  apply negb_true_iff in Ha. by apply bool_decide_eq_true in Hl.
Qed.

Lemma allHex_plain s : allHex s = true → plain s = true.
Proof.
  induction s as [|a s IH]; [done |]. simpl. intros H.
  apply andb_prop in H as [Ha Hs].
  rewrite (hex_not_space a Ha), (bool_decide_eq_true_2 _ (hex_lower a Ha)).
  by apply IH.
Qed.

Lemma string_app_cons a s t : String a s +:+ t = String a (s +:+ t).
Proof. reflexivity. Qed.

Lemma string_app_nil t : EmptyString +:+ t = t.
Proof. reflexivity. Qed.

Lemma all_space_app s t : JS.all_space (s +:+ t) = JS.all_space s && JS.all_space t.
Proof.
  induction s as [|a s IH]; [done |].
  rewrite string_app_cons. simpl. by rewrite IH, andb_assoc.
Qed.

Lemma all_space_plain a s : plain (String a s) = true → JS.all_space (String a s) = false.
Proof. intros (Ha & _ & _)%plain_cons. simpl. by rewrite Ha. Qed.

Lemma trimEnd_plain s : plain s = true → JS.trimEnd s = s.
Proof.
  induction s as [|a s IH]; [done |]. intros H.
  pose proof (all_space_plain a s H) as Hs.
  apply plain_cons in H as (_ & _ & H).
  change (JS.trimEnd (String a s))
    with (if JS.all_space (String a s) then EmptyString else String a (JS.trimEnd s)).
  by rewrite Hs, IH.
Qed.

Lemma trimEnd_app s a t :
  plain (String a t) = true →
  JS.trimEnd (s +:+ String a t) = s +:+ String a t.
Proof.
  intros H. induction s as [|b s IH].
  - rewrite string_app_nil. by apply trimEnd_plain.
  - rewrite string_app_cons.
    change (JS.trimEnd (String b (s +:+ String a t)))
      with (if JS.all_space (String b (s +:+ String a t)) then EmptyString
            else String b (JS.trimEnd (s +:+ String a t))).
    replace (JS.all_space (String b (s +:+ String a t))) with false.
    + by rewrite IH.
    + symmetry. simpl. rewrite all_space_app, (all_space_plain a t H).
      by rewrite !andb_false_r.
Qed.

Lemma toLowerCase_plain s : plain s = true → JS.toLowerCase s = s.
Proof.
  induction s as [|a s IH]; [done |].
  intros (_ & Ha & Hs)%plain_cons. simpl. by rewrite Ha, IH.
Qed.

Lemma toLowerCase_app s t :
  JS.toLowerCase (s +:+ t) = JS.toLowerCase s +:+ JS.toLowerCase t.
Proof.
  induction s as [|a s IH]; [done |].
  rewrite string_app_cons. simpl. by rewrite IH.
Qed.

Lemma responseWords_plain word :
  word ∈ responseWords → plain word = true ∧ word ≠ EmptyString.
Proof.
  unfold responseWords. intros H.
  repeat (apply elem_of_cons in H as [-> | H]; [by split |]).
  by apply elem_of_nil in H.
Qed.

Lemma wellFormedId_inv newId :
  wellFormedId newId = true →
  ∃ a b c d, newId = String a (String b (String c (String d EmptyString))).
Proof.
  unfold wellFormedId.
  destruct newId as [|a [|b [|c [|d [|e s]]]]]; try discriminate.
  intros _. by exists a, b, c, d.
Qed.

Lemma not_a_bare_word a b c d rest :
  String a (String b (String c (String d (String " " rest)))) ∉ responseWords.
Proof.
  unfold responseWords. intros H.
  repeat (apply elem_of_cons in H as [H | H]; [discriminate H |]).
  by apply elem_of_nil in H.
Qed.

(** The reply [<id> <word>] is matched as that id and that word. *)
Lemma matchResponse_id_word newId word :
  wellFormedId newId = true → word ∈ responseWords →
  matchResponse (JS.toLowerCase (JS.trim (newId +:+ " " +:+ word)))
  = Some (Some newId, word).
Proof.
  intros Hwf Hw.
  destruct (responseWords_plain word Hw) as [Hplain Hne].
  assert (Hhex : allHex newId = true)
    by (unfold wellFormedId in Hwf; by apply andb_prop in Hwf as [_ ?]).
  pose proof (allHex_plain newId Hhex) as Hid.
  destruct (wellFormedId_inv newId Hwf) as (a & b & c & d & E).
  destruct word as [|w0 word]; [done |].
  (* trim *)
  assert (Htrim : JS.trim (newId +:+ " " +:+ String w0 word)
                  = newId +:+ " " +:+ String w0 word).
  { unfold JS.trim.
    replace (JS.trimStart (newId +:+ " " +:+ String w0 word))
      with (newId +:+ " " +:+ String w0 word).
    - subst newId.
      change (String a (String b (String c (String d EmptyString)))
              +:+ " " +:+ String w0 word)
        with (String a (String b (String c (String d (String " " EmptyString))))
              +:+ String w0 word).
      by apply trimEnd_app.
    - subst newId. apply plain_cons in Hid as (Ha & _).
      rewrite !string_app_cons. simpl. by rewrite Ha. }
  rewrite Htrim.
  assert (Hlow : JS.toLowerCase (newId +:+ " " +:+ String w0 word)
                 = newId +:+ " " +:+ String w0 word).
  { rewrite !toLowerCase_app, (toLowerCase_plain _ Hid),
      (toLowerCase_plain _ Hplain). reflexivity. }
  rewrite Hlow. unfold matchResponse.
  rewrite bool_decide_eq_false_2
    by (subst newId; apply not_a_bare_word).
  replace (JS.take 4 (newId +:+ " " +:+ String w0 word)) with newId
    by (subst newId; reflexivity).
  replace (JS.drop 4 (newId +:+ " " +:+ String w0 word)) with (String " " (String w0 word))
    by (subst newId; reflexivity).
  replace (JS.trimStart (String " " (String w0 word))) with (String w0 word).
  2:{ apply plain_cons in Hplain as (Hs & _).
      change (JS.trimStart (String " " (String w0 word)))
        with (JS.trimStart (String w0 word)).
      simpl. by rewrite Hs. }
  rewrite Hhex, (bool_decide_eq_true_2 _ Hw).
  replace (JS.length newId =? 4) with true by (subst newId; reflexivity).
  replace (JS.length (String w0 word) <? JS.length (String " " (String w0 word)))
    with true; [reflexivity |].
  symmetry. apply Nat.ltb_lt. simpl. lia.
Qed.

Lemma drawRequestId_Some rand attempts attempt m newId :
  drawRequestId rand attempts attempt m = Some newId →
  ∃ k, attempt ≤ k < attempt + attempts ∧ newId = requestIdOf (rand k).
Proof.
  revert attempt. induction attempts as [|n IH]; intros attempt; simpl; [done |].
  destruct (map_has (requestIdOf (rand attempt)) m); simpl.
  - intros H. destruct (IH _ H) as (k & Hk & ->). exists k. split; [lia | done].
  - intros [= <-]. exists attempt. split; [lia | done].
Qed.

Lemma drawRequestId_None rand attempts attempt m k :
  drawRequestId rand attempts attempt m = None →
  attempt ≤ k < attempt + attempts → map_has (requestIdOf (rand k)) m = true.
Proof.
  revert attempt. induction attempts as [|n IH]; intros attempt; simpl; [lia |].
  destruct (map_has (requestIdOf (rand attempt)) m) eqn:E; simpl; [| done].
  intros H Hk. destruct (decide (k = attempt)) as [-> | Hne]; [done |].
  apply (IH (S attempt) H). lia.
Qed.

(** X7: when the draws are below [0x10000] and one of the hundred is not a
    pending id, [generateRequestId] returns an id of four lower-case hex
    digits that is not pending. *)
Theorem generated_id_is_fresh (rand : nat → N) (dateNow : Z)
    (m : list (string * PendingPermission)) (k : nat) :
  (∀ j, j < 100 → (rand j < 65536)%N) →
  k < 100 → map_has (requestIdOf (rand k)) m = false →
  map_has (generateRequestId rand dateNow m) m = false ∧
  JS.length (generateRequestId rand dateNow m) = 4 ∧
  allHex (generateRequestId rand dateNow m) = true.
Proof.
  intros Hrange Hk Hfresh. unfold generateRequestId.
  destruct (drawRequestId rand 100 0 m) as [newId|] eqn:E.
  - split; [by apply (drawRequestId_fresh _ _ _ _ _ E) |].
    destruct (drawRequestId_Some _ _ _ _ _ E) as (j & Hj & ->).
    assert (Hwf : wellFormedId (requestIdOf (rand j)) = true)
      by (apply requestIdOf_wellFormed, Hrange; lia).
    unfold wellFormedId in Hwf. apply andb_prop in Hwf as [Hlen Hhex].
    by apply Nat.eqb_eq in Hlen.
  - rewrite (drawRequestId_None _ _ _ _ k E) in Hfresh by lia. discriminate.
Qed.

Lemma generated_id_is_fresh_witness :
  map_has (generateRequestId (λ _, 41%N) 0 (pending three_pending))
    (pending three_pending) = false ∧
  JS.length (generateRequestId (λ _, 41%N) 0 (pending three_pending)) = 4 ∧
  allHex (generateRequestId (λ _, 41%N) 0 (pending three_pending)) = true.
Proof.
  apply (generated_id_is_fresh (λ _, 41%N) 0 (pending three_pending) 0).
  - intros j _. reflexivity.
  - lia.
  - reflexivity.
Defined.

Lemma map_get_set {V} (k : string) (v : V) (m : list (string * V)) :
  map_get k (map_set k v m) = Some v.
Proof.
  induction m as [|[k' v'] m IH]; simpl.
  - by rewrite bool_decide_eq_true_2.
  - case_bool_decide as E; simpl.
    + by rewrite bool_decide_eq_true_2.
    + by rewrite bool_decide_eq_false_2.
Qed.

Definition yesWords : list string := ["yes"; "y"; "ok"; "approve"; "allow"].

(** X8: a request is registered under a fresh generated id; the reply
    made of that id, a space and a response word is handled, settles that
    request with the approval the word stands for, and takes it off the
    pending map. *)
Theorem reply_with_shown_id_settles (timeoutMs : Z) (a : Persistence.Agent)
    (rand : nat → N) (agentName actionName descr word : string)
    (det : option string) (k : nat) (st : State) :
  (∀ j, j < 100 → (rand j < 65536)%N) →
  k < 100 → map_has (requestIdOf (rand k)) (pending st) = false →
  word ∈ responseWords →
  let shown := generateRequestId rand (now st) (pending st) in
  let st1 := snd (requestPermission timeoutMs (Some a) rand false
                    agentName actionName descr det st) in
  let st2 := snd (handleUserResponse agentName (shown +:+ " " +:+ word) st1) in
  fst (handleUserResponse agentName (shown +:+ " " +:+ word) st1) = true ∧
  settled st2 = settled st ++
    [{| promise := next st; at_time := now st; cause := by_reply;
        result := {| approved := bool_decide (word ∈ yesWords);
                     reason := None |} |}] ∧
  map_get shown (pending st2) = None.
Proof.
  intros Hrange Hk Hfresh Hw shown st1 st2.
  destruct (generated_id_is_fresh rand (now st) (pending st) k Hrange Hk Hfresh)
    as (_ & Hlen & Hhex).
  fold shown in Hlen, Hhex.
  assert (Hwf : wellFormedId shown = true)
    by (unfold wellFormedId; by rewrite Hlen, Hhex).
  pose proof (matchResponse_id_word shown word Hwf Hw) as Hmatch.
  subst st2 st1. unfold handleUserResponse. rewrite Hmatch.
  unfold requestPermission, registerRequest. fold shown. cbn [snd pending].
  rewrite map_get_set. cbn [agentId].
  rewrite bool_decide_eq_true_2 by done.
  split; [reflexivity |]. split; [reflexivity |].
  cbn [snd pending settle id]. apply map_get_None.
  intros [e [He Hin]]%list_elem_of_fmap.
  apply elem_of_map_delete in Hin as [_ Hne]. by apply Hne.
Qed.

Lemma reply_with_shown_id_settles_witness :
  let shown := generateRequestId (λ _, 41%N) (now three_pending) (pending three_pending) in
  let st1 := snd (requestPermission 300000 (Some fox) (λ _, 41%N) false
                    "swift-fox" "Bash" "Run command: ls" None three_pending) in
  let st2 := snd (handleUserResponse "swift-fox" (shown +:+ " " +:+ "allow") st1) in
  fst (handleUserResponse "swift-fox" (shown +:+ " " +:+ "allow") st1) = true ∧
  settled st2 = settled three_pending ++
    [{| promise := next three_pending; at_time := now three_pending; cause := by_reply;
        result := {| approved := bool_decide ("allow" ∈ yesWords);
                     reason := None |} |}] ∧
  map_get shown (pending st2) = None.
Proof.
  apply (reply_with_shown_id_settles 300000 fox (λ _, 41%N)
           "swift-fox" "Bash" "Run command: ls" "allow" None 0 three_pending).
  - intros j _. reflexivity.
  - lia.
  - reflexivity.
  - apply (bool_decide_unpack _). vm_compute. exact I.
Defined.

End RequestIdProperties.

Section ReplyIsolation.

Import Permission.

Lemma found_belongs (agent : string) (m : list (string * PendingPermission))
    (rid : option string) p :
  keyed m →
  match rid with
  | Some r =>
      match map_get r m with
      | Some q => if bool_decide (agentId q = agent) then Some q else None
      | None => None
      end
  | None => findOldestPending agent m
  end = Some p →
  agentId p = agent ∧ (id p, p) ∈ m.
Proof.
  intros Hkeyed Hf. destruct rid as [r|].
  - destruct (map_get r m) as [q|] eqn:E; [| done].
    case_bool_decide as Ha; [| done]. injection Hf as ->.
    apply map_get_Some in E. split; [done |].
    by rewrite (keyed_id m r p Hkeyed E).
  - destruct (head_sortByCreatedAt _ _ Hf) as (before & after & Hs & _).
    assert (Hin : p ∈ getPending agent m).
    { rewrite Hs. apply elem_of_app. right. apply elem_of_cons. by left. }
    apply list_elem_of_filter in Hin as [Ha Hin]. split; [done |].
    apply elem_of_map_values in Hin as [k Hk].
    by rewrite (keyed_id m k p Hkeyed Hk).
Qed.

(** X9: whatever the message, [handleUserResponse] for an agent either
    leaves the tool as it was or settles exactly one pending request, which
    belongs to that agent; the pending requests of every other agent stay
    as they were, and a message that is reported as not handled changes
    nothing. *)
Theorem reply_stays_with_its_agent (agent message : string) (st : State) :
  keyed (pending st) →
  let st' := snd (handleUserResponse agent message st) in
  (st' = st ∨
   ∃ p r, agentId p = agent ∧ (id p, p) ∈ pending st ∧
          st' = settle by_reply r p st ∧
          length (pending st') + 1 = length (pending st)) ∧
  (∀ other, other ≠ agent →
     getPending other (pending st') = getPending other (pending st)) ∧
  (fst (handleUserResponse agent message st) = false → st' = st).
Proof.
  intros Hkeyed. unfold handleUserResponse.
  destruct (matchResponse _) as [[rid response]|]; [| by repeat split; [left |..]].
  match goal with
  | |- context [match ?f with Some _ => _ | None => _ end] =>
      destruct f as [p|] eqn:Hf
  end; cbn [fst snd]; [| by repeat split; [left |..]].
  destruct (found_belongs agent (pending st) rid p Hkeyed Hf) as [Ha Hin].
  split; [| split; [| done]].
  - right. eexists p, _. split; [done |]. split; [done |]. split; [reflexivity |].
    cbn [pending settle]. destruct Hkeyed as [Hn _].
    clear Hf. revert Hn Hin. generalize (id p) as k. intros k.
    induction (pending st) as [|[k' q] m IH]; intros Hn Hin.
    + by apply elem_of_nil in Hin.
    + simpl in Hn. apply NoDup_cons in Hn as [Hk' Hn].
      unfold map_delete in *. destruct (decide (k' = k)) as [-> | Hne].
      * rewrite filter_cons_False by (simpl; tauto).
        fold (map_delete k m). rewrite (map_delete_absent m k Hk'). simpl. lia.
      * rewrite filter_cons_True by done. simpl. f_equal. apply IH; [done |].
        apply elem_of_cons in Hin as [[= -> ->] | Hin]; [done | exact Hin].
  - intros other Hother. cbn [pending settle]. apply getPending_filter.
    intros [k q] Hq Hnot. simpl in *.
    assert (k = id p) as -> by (destruct (decide (k = id p)); [done | by exfalso]).
    destruct Hkeyed as [Hn _].
    rewrite (map_key_unique _ _ _ _ Hn Hq Hin). congruence.
Qed.

Lemma reply_stays_with_its_agent_witness :
  let st' := snd (handleUserResponse "swift-fox" "e5f6 no" three_pending) in
  (st' = three_pending ∨
   ∃ p r, agentId p = "swift-fox" ∧ (id p, p) ∈ pending three_pending ∧
          st' = settle by_reply r p three_pending ∧
          length (pending st') + 1 = length (pending three_pending)) ∧
  (∀ other, other ≠ "swift-fox" →
     getPending other (pending st') = getPending other (pending three_pending)) ∧
  (fst (handleUserResponse "swift-fox" "e5f6 no" three_pending) = false →
   st' = three_pending).
Proof.
  apply (reply_stays_with_its_agent "swift-fox" "e5f6 no" three_pending).
  apply (bool_decide_unpack _). vm_compute. exact I.
Defined.

Lemma cancelAll_cancels_the_agent_witness :
  getPending "swift-fox" (pending (cancelAll "swift-fox" three_pending)) = [] ∧
  (∀ other, other ≠ "swift-fox" →
     getPending other (pending (cancelAll "swift-fox" three_pending))
     = getPending other (pending three_pending)) ∧
  settled (cancelAll "swift-fox" three_pending)
  = settled three_pending ++
    map (cancelledEntry (now three_pending))
      (getPending "swift-fox" (pending three_pending)) ∧
  timers (cancelAll "swift-fox" three_pending)
  = filter (λ t, handle t ∉ timeoutHandle <$> getPending "swift-fox" (pending three_pending))
      (timers three_pending).
Proof.
  apply (cancelAll_cancels_the_agent "swift-fox" three_pending).
  apply (bool_decide_unpack _). vm_compute. exact I.
Defined.

End ReplyIsolation.

Section ExactlyOnce.

Import Permission.

Variable timeoutMs : Z.
Hypothesis timeout_positive : (0 < timeoutMs)%Z.

(** No promise was settled twice. *)
Definition settledOnce (st : State) : Prop := NoDup (promise <$> settled st).

Lemma settledOnce_snoc st e (f : State → State) :
  settled (f st) = settled st ++ [e] →
  promise e ∉ promise <$> settled st →
  settledOnce st → settledOnce (f st).
Proof.
  unfold settledOnce. intros -> Hnew Hn. rewrite fmap_app. simpl.
  apply NoDup_app. split; [done |]. split; [| apply NoDup_singleton].
  intros x Hx ->%list_elem_of_singleton. by apply Hnew.
Qed.

Lemma settledOnce_settle c r p st :
  consistent st → (id p, p) ∈ pending st →
  settledOnce st → settledOnce (settle c r p st).
Proof.
  intros Hc Hin. apply (settledOnce_snoc st _ (settle c r p) eq_refl). simpl.
  destruct (c_pending st Hc _ _ Hin) as (_ & Hres & tp & Htp & Hhp & _).
  intros [e [He Hin']]%list_elem_of_fmap.
  apply (c_disjoint st Hc tp e Htp Hin'). congruence.
Qed.

Lemma settledOnce_fire tm st :
  consistent st → tm ∈ timers st → settledOnce st → settledOnce (fire tm st).
Proof.
  intros Hc Hin. apply (settledOnce_snoc st _ (fire tm) eq_refl). simpl.
  intros [e [He Hin']]%list_elem_of_fmap.
  by apply (c_disjoint st Hc tm e Hin Hin').
Qed.

Lemma settledOnce_step e st :
  consistent st → notDue st → settledOnce st → settledOnce (step timeoutMs e st).
Proof.
  intros Hc Hd Hs.
  destruct e as [agent rand sendFails an ac de dt | newId an ac de dt
                 | agent message | agent | t]; simpl.
  - unfold requestPermission. destruct agent; [| done]. by destruct sendFails.
  - done.
  - destruct (handleUserResponse_cases agent message st Hc) as [-> | (r & p & Hin & ->)];
      [done | by apply settledOnce_settle].
  - rewrite cancelAll_settleAll.
    destruct (getPending_distinct agent st Hc) as [Hn Hin].
    apply (settleAll_invariant settledOnce by_cancel _); try done.
    intros p s Hcs Hp. by apply settledOnce_settle.
  - apply (advance_invariant settledOnce t); try done.
    intros tm s Hcs _ Hin Hss.
    apply (settledOnce_fire tm (atDue tm s));
      [by apply consistent_setNow | done | exact Hss].
Qed.

(** X10: in every state the tool can reach, whatever requests, replies,
    cancellations and timeouts came before, no promise was settled more
    than once, no settled promise has a live timer, every pending entry has
    its live timer, and no timer is overdue. *)
Theorem resolution_is_exactly_once (events : list Event) :
  let st := run timeoutMs events initial in
  NoDup (promise <$> settled st) ∧
  (∀ e tm, e ∈ settled st → tm ∈ timers st → promise e ≠ handle tm) ∧
  (∀ k p, (k, p) ∈ pending st →
     ∃ tm, tm ∈ timers st ∧ handle tm = timeoutHandle p ∧ requestId tm = k) ∧
  (∀ tm, tm ∈ timers st → (now st < due tm)%Z).
Proof using timeout_positive.
  assert (G : ∀ events st,
    consistent st → notDue st → settledOnce st →
    consistent (run timeoutMs events st) ∧ notDue (run timeoutMs events st) ∧
    settledOnce (run timeoutMs events st)).
  { clear events. induction events as [|e events IH]; intros st Hc Hd Hs; [done |].
    destruct (consistent_step timeoutMs e st Hc Hd) as [Hc' Hd'].
    apply IH; [done.. |]. by apply settledOnce_step. }
  destruct (G events initial consistent_initial) as (Hc & Hd & Hs).
  { intros tm Htm. by apply elem_of_nil in Htm. }
  { apply NoDup_nil_2. }
  split; [exact Hs |]. split; [| split; [| exact Hd]].
  - intros e tm He Htm. by apply (c_disjoint _ Hc).
  - intros k p Hin. by destruct (c_pending _ Hc _ _ Hin) as (_ & _ & ?).
Qed.

End ExactlyOnce.

Section ExactlyOnceScenario.

Import Permission.

Lemma resolution_is_exactly_once_witness :
  NoDup (promise <$> settled five_minutes_later) ∧
  (∀ e tm, e ∈ settled five_minutes_later → tm ∈ timers five_minutes_later →
           promise e ≠ handle tm) ∧
  (∀ k p, (k, p) ∈ pending five_minutes_later →
     ∃ tm, tm ∈ timers five_minutes_later ∧ handle tm = timeoutHandle p ∧
           requestId tm = k) ∧
  (∀ tm, tm ∈ timers five_minutes_later → (now five_minutes_later < due tm)%Z).
Proof.
  exact (resolution_is_exactly_once 300000 ltac:(lia)
           [Request (Some fox) (λ _, 41%N) false "swift-fox" "Bash"
              "Run command: ls" None; Advance 300000]).
Defined.

End ExactlyOnceScenario.

Section RecoveryProperties.

Import Persistence.

Variable spawnError : ClaudeCode.AgentConfig → option string.
Variable mcpServerUrl : string.

(** An agent record with its status replaced. *)
Definition withStatus (s : AgentStatus) (a : Agent) : Agent :=
  {| id := id a; type := type a; jid := jid a; workDir := workDir a;
     createdAt := createdAt a; createdBy := createdBy a; status := s;
     pid := pid a; sessionId := sessionId a |}.

Lemma merge_statusUpdate s a :
  Registry.merge a (Registry.statusUpdate s) = withStatus s a.
Proof. reflexivity. Qed.

Lemma withStatus_withStatus s1 s2 a :
  withStatus s2 (withStatus s1 a) = withStatus s2 a.
Proof. reflexivity. Qed.

(** [registry.update(id, { status })] inside the recovery manager. *)
Definition setStatus (agentId : string) (s : AgentStatus) (current : Agent)
    (w : Recovery.World) : Recovery.World :=
  {| Recovery.registry :=
       {| Registry.agents :=
            <[agentId := withStatus s current]>
              (Registry.agents (Recovery.registry w));
          Registry.persistence :=
            upsertAgent (withStatus s current)
              (Registry.persistence (Recovery.registry w)) |};
     Recovery.spawned := Recovery.spawned w |}.

Lemma onRegistry_update_known agentId s current w :
  Registry.get agentId (Recovery.registry w) = Some current →
  Recovery.onRegistry (Registry.update agentId (Registry.statusUpdate s)) w
  = (Return tt, setStatus agentId s current w).
Proof.
  intros Hget. unfold Recovery.onRegistry.
  rewrite (update_known_id _ _ _ _ Hget). reflexivity.
Qed.

Lemma onRegistry_update_unknown agentId u w :
  Registry.get agentId (Recovery.registry w) = None →
  Recovery.onRegistry (Registry.update agentId u) w
  = (Throw ("Agent not found: " +:+ agentId), w).
Proof.
  intros Hget. unfold Recovery.onRegistry, Registry.update.
  unfold Registry.get in Hget. rewrite Hget. by destruct w.
Qed.

Lemma get_setStatus agentId s current w :
  Registry.get agentId (Recovery.registry (setStatus agentId s current w))
  = Some (withStatus s current).
Proof. unfold Registry.get. cbn. apply lookup_insert_eq. Qed.

Lemma get_setStatus_ne agentId other s current w :
  other ≠ agentId →
  Registry.get other (Recovery.registry (setStatus agentId s current w))
  = Registry.get other (Recovery.registry w).
Proof. intros H. unfold Registry.get. cbn. by apply lookup_insert_ne. Qed.

(** X11: for an agent that is registered, [recover] returns a result in
    both cases.  When the spawn succeeds the result reports success, the
    subprocess was spawned once with the recovery configuration and the
    registry entry is [running]; when the spawn throws the result carries
    the error, nothing was spawned and the entry is [stopped].  The other
    fields of the entry and the other agents are untouched. *)
Theorem recover_outcome (agent current : Agent) (w : Recovery.World) :
  Registry.get (id agent) (Recovery.registry w) = Some current →
  ∃ r w',
    Recovery.recover spawnError mcpServerUrl agent w = (Return r, w') ∧
    (∀ other, other ≠ id agent →
       Registry.get other (Recovery.registry w')
       = Registry.get other (Recovery.registry w)) ∧
    match spawnError (recoveryConfig mcpServerUrl agent) with
    | None =>
        r = {| Recovery.success := true;
               Recovery.resumed := JS.truthyOpt (sessionId agent);
               Recovery.process :=
                 Some (ClaudeCode.spawnedProcess (recoveryConfig mcpServerUrl agent));
               Recovery.error := None |} ∧
        Recovery.spawned w'
        = Recovery.spawned w ++ [recoveryConfig mcpServerUrl agent] ∧
        Registry.get (id agent) (Recovery.registry w')
        = Some (withStatus running current)
    | Some e =>
        r = {| Recovery.success := false; Recovery.resumed := false;
               Recovery.process := None; Recovery.error := Some e |} ∧
        Recovery.spawned w' = Recovery.spawned w ∧
        Registry.get (id agent) (Recovery.registry w')
        = Some (withStatus stopped current)
    end.
Proof.
  intros Hget. unfold Recovery.recover, tryCatch, bind.
  rewrite (onRegistry_update_known _ starting _ _ Hget).
  unfold Recovery.spawn. fold (recoveryConfig mcpServerUrl agent).
  destruct (spawnError (recoveryConfig mcpServerUrl agent)) as [e|] eqn:Hspawn.
  - cbn [Recovery.registry setStatus].
    rewrite (onRegistry_update_known _ stopped (withStatus starting current))
      by apply get_setStatus.
    eexists _, _. split; [reflexivity |]. split; [| split; [reflexivity |]; split].
    + intros other Hother. unfold Registry.get. cbn.
      by rewrite !lookup_insert_ne.
    + reflexivity.
    + unfold Registry.get. cbn. by rewrite lookup_insert_eq.
  - cbn [Recovery.registry setStatus].
    rewrite (onRegistry_update_known _ running (withStatus starting current))
      by (unfold Registry.get; cbn; apply lookup_insert_eq).
    eexists _, _. split; [reflexivity |]. split; [| split; [reflexivity |]; split].
    + intros other Hother. unfold Registry.get. cbn.
      by rewrite !lookup_insert_ne.
    + reflexivity.
    + unfold Registry.get. cbn. by rewrite lookup_insert_eq.
Qed.

(** X12: for an agent that is not registered, [recover] does not return a
    failed result: the update in its [catch] block throws again, so the
    call is rejected with [Agent not found]; nothing is spawned and the
    registry is as it was. *)
Theorem recover_unregistered_throws (agent : Agent) (w : Recovery.World) :
  Registry.get (id agent) (Recovery.registry w) = None →
  Recovery.recover spawnError mcpServerUrl agent w
  = (Throw ("Agent not found: " +:+ id agent), w).
Proof.
  intros Hget. unfold Recovery.recover, tryCatch, bind.
  rewrite (onRegistry_update_unknown _ _ _ Hget).
  by rewrite (onRegistry_update_unknown _ _ _ Hget).
Qed.

(** The exit codes after which no recovery is attempted: [null], 0, and
    the codes from 127 on. *)
Definition declined (exitCode : option Z) : Prop :=
  match exitCode with
  | None => True
  | Some c => (c = 0 ∨ 127 ≤ c)%Z
  end.

Lemma handleProcessExit_declined agent exitCode :
  fst (Recovery.handleProcessExit agent exitCode) = false ↔ declined exitCode.
Proof.
  unfold Recovery.handleProcessExit, declined.
  destruct exitCode as [c|]; [| done].
  destruct (Z.eqb_spec c 0); [simpl; split; [auto | done] |].
  destruct (Z.leb_spec 128 c); [simpl; split; [lia | done] |].
  destruct (Z.eqb_spec c 127); [simpl; split; [lia | done] |].
  simpl. split; [done | lia].
Qed.

(** X13: [attemptAutoRecovery] on a registered agent whose subprocess was
    killed ([null]), exited with 0, or exited with a code from 127 on,
    returns [undefined], spawns nothing and leaves the entry [stopped]. *)
Theorem attemptAutoRecovery_declines (agent current : Agent)
    (exitCode : option Z) (w : Recovery.World) :
  declined exitCode →
  Registry.get (id agent) (Recovery.registry w) = Some current →
  ∃ w',
    Recovery.attemptAutoRecovery spawnError mcpServerUrl agent exitCode w
    = (Return None, w') ∧
    Recovery.spawned w' = Recovery.spawned w ∧
    Registry.get (id agent) (Recovery.registry w')
    = Some (withStatus stopped current) ∧
    (∀ other, other ≠ id agent →
       Registry.get other (Recovery.registry w')
       = Registry.get other (Recovery.registry w)).
Proof.
  intros Hd Hget. apply handleProcessExit_declined with (agent := agent) in Hd.
  unfold Recovery.attemptAutoRecovery. rewrite Hd. cbn [negb].
  unfold bind. rewrite (onRegistry_update_known _ stopped _ _ Hget).
  eexists. split; [reflexivity |]. split; [reflexivity |]. split.
  - apply get_setStatus.
  - intros other Hother. by apply get_setStatus_ne.
Qed.

(** For every other exit code (not 0, below 127) the call is the call of
    [recover], its result wrapped. *)
Lemma attemptAutoRecovery_recovers (agent : Agent) (c : Z)
    (w : Recovery.World) :
  c ≠ 0%Z → (c < 127)%Z →
  Recovery.attemptAutoRecovery spawnError mcpServerUrl agent (Some c) w
  = match Recovery.recover spawnError mcpServerUrl agent w with
    | (Return r, w') => (Return (Some r), w')
    | (Throw e, w') => (Throw e, w')
    end.
Proof.
  intros H0 H127.
  assert (Hd : fst (Recovery.handleProcessExit agent (Some c)) = true).
  { destruct (fst (Recovery.handleProcessExit agent (Some c))) eqn:E; [done |].
    apply handleProcessExit_declined in E. simpl in E. lia. }
  unfold Recovery.attemptAutoRecovery. rewrite Hd. cbn [negb].
  unfold bind.
  destruct (Recovery.recover spawnError mcpServerUrl agent w) as [[r|e] w'];
    reflexivity.
Qed.

End RecoveryProperties.

Section RecoveryPropertiesScenario.

Import Persistence.

Definition no_spawn_error : ClaudeCode.AgentConfig → option string := λ _, None.

Definition fox_world : Recovery.World :=
  {| Recovery.registry := fox_registry; Recovery.spawned := [] |}.

Lemma recover_outcome_witness :
  Registry.get (id fox) (Recovery.registry fox_world) = Some fox ∧
  ∃ r w',
    Recovery.recover no_spawn_error "http://localhost:3001/mcp" fox fox_world
    = (Return r, w') ∧
    Recovery.success r = true ∧ Recovery.resumed r = true ∧
    Recovery.spawned w' = [recoveryConfig "http://localhost:3001/mcp" fox] ∧
    Registry.get "swift-fox" (Recovery.registry w')
    = Some (withStatus running fox).
Proof.
  assert (H : Registry.get (id fox) (Recovery.registry fox_world) = Some fox)
    by reflexivity.
  split; [exact H |].
  destruct (recover_outcome no_spawn_error "http://localhost:3001/mcp"
              fox fox fox_world H) as (r & w' & Hrun & _ & Hr & Hs & Hg).
  exists r, w'. subst r. repeat split; assumption.
Defined.

Definition owl : Agent :=
  {| id := "calm-owl"; type := "claude-code"; jid := "calm-owl@localhost";
     workDir := "/work/proj-y"; createdAt := "2025-01-02T00:00:00.000Z";
     createdBy := "operator@localhost"; status := running;
     pid := None; sessionId := None |}.

Lemma recover_unregistered_throws_witness :
  Registry.get (id owl) (Recovery.registry fox_world) = None ∧
  Recovery.recover no_spawn_error "http://localhost:3001/mcp" owl fox_world
  = (Throw "Agent not found: calm-owl", fox_world).
Proof.
  assert (H : Registry.get (id owl) (Recovery.registry fox_world) = None)
    by reflexivity.
  split; [exact H |].
  exact (recover_unregistered_throws no_spawn_error "http://localhost:3001/mcp"
           owl fox_world H).
Defined.

Lemma attemptAutoRecovery_declines_witness :
  declined (Some 137%Z) ∧
  Registry.get (id fox) (Recovery.registry fox_world) = Some fox ∧
  ∃ w',
    Recovery.attemptAutoRecovery no_spawn_error "http://localhost:3001/mcp"
      fox (Some 137%Z) fox_world
    = (Return None, w') ∧
    Recovery.spawned w' = [] ∧
    Registry.get "swift-fox" (Recovery.registry w')
    = Some (withStatus stopped fox).
Proof.
  assert (Hd : declined (Some 137%Z)) by (simpl; lia).
  assert (H : Registry.get (id fox) (Recovery.registry fox_world) = Some fox)
    by reflexivity.
  split; [exact Hd |]. split; [exact H |].
  destruct (attemptAutoRecovery_declines no_spawn_error
              "http://localhost:3001/mcp" fox fox (Some 137%Z) fox_world Hd H)
    as (w' & Hrun & Hs & Hg & _).
  exists w'. repeat split; assumption.
Defined.

End RecoveryPropertiesScenario.

Section IndexProperties.

Import Persistence.

Variable spawnError : ClaudeCode.AgentConfig → option string.
Variable mcpServerUrl : string.

(** An agent record with its session id replaced. *)
Definition withSession (sid : string) (a : Agent) : Agent :=
  {| id := id a; type := type a; jid := jid a; workDir := workDir a;
     createdAt := createdAt a; createdBy := createdBy a; status := status a;
     pid := pid a; sessionId := Some sid |}.

Definition onRecoveryWorld (f : Recovery.World → Recovery.World)
    (w : Index.World) : Index.World :=
  {| Index.recovery := f (Index.recovery w);
     Index.permissionTool := Index.permissionTool w;
     Index.agentHandlers := Index.agentHandlers w |}.

Definition registryOf (w : Index.World) : Registry.State :=
  Recovery.registry (Index.recovery w).

Lemma registryUpdate_status agentId s current w :
  Registry.get agentId (registryOf w) = Some current →
  Index.registryUpdate agentId (Registry.statusUpdate s) w
  = (Return tt, onRecoveryWorld (setStatus agentId s current) w).
Proof.
  intros Hget. unfold Index.registryUpdate, Index.onRecovery.
  rewrite (onRegistry_update_known _ _ _ _ Hget). reflexivity.
Qed.

Lemma registryUpdate_unknown agentId u w :
  Registry.get agentId (registryOf w) = None →
  Index.registryUpdate agentId u w
  = (Throw ("Agent not found: " +:+ agentId), w).
Proof.
  intros Hget. unfold Index.registryUpdate, Index.onRecovery.
  rewrite (onRegistry_update_unknown _ _ _ Hget). by destruct w.
Qed.

(** What the stop handler does before it looks at the reason. *)
Definition cleaned (agentId : string) (w : Index.World) : Index.World :=
  {| Index.recovery := Index.recovery w;
     Index.permissionTool := Permission.cancelAll agentId (Index.permissionTool w);
     Index.agentHandlers := filter (λ k, k ≠ agentId) (Index.agentHandlers w) |}.

(** The run of the stop handler on a registered agent. *)
Lemma onStopped_effect (agentId : string) (reason : Index.StopReason)
    (a : Agent) (w : Index.World) :
  Registry.get agentId (registryOf w) = Some a →
  id a = agentId →
  keyed (Permission.pending (Index.permissionTool w)) →
  ∃ w',
    Index.onStopped spawnError mcpServerUrl agentId reason w = (Return tt, w') ∧
    Index.agentHandlers w' = filter (λ k, k ≠ agentId) (Index.agentHandlers w) ∧
    Index.permissionTool w'
    = Permission.cancelAll agentId (Index.permissionTool w) ∧
    Permission.getPending agentId (Permission.pending (Index.permissionTool w'))
    = [] ∧
    Recovery.spawned (Index.recovery w') = Recovery.spawned (Index.recovery w) ∧
    Registry.get agentId (registryOf w') = Some (withStatus stopped a) ∧
    (∀ other, other ≠ agentId →
       Registry.get other (registryOf w') = Registry.get other (registryOf w)).
Proof.
  intros Hget Hid Hkeyed. unfold Index.onStopped, bind, modify.
  cbn [fst snd].
  match goal with
  | |- context [Index.registryUpdate _ _ ?w0] =>
      rewrite (registryUpdate_status agentId stopped a w0) by exact Hget
  end.
  pose proof (cancelAll_pending agentId _ Hkeyed) as [Hnone _].
  case_bool_decide as Hreason.
  - unfold Index.registryGet, gets.
    unfold registryOf, onRecoveryWorld. cbn [Index.recovery].
    rewrite get_setStatus.
    unfold Index.onRecovery, Recovery.attemptAutoRecovery. cbn [Index.recovery].
    cbn [Recovery.handleProcessExit fst negb]. unfold bind.
    cbn [id withStatus]. rewrite Hid.
    rewrite (onRegistry_update_known _ stopped (withStatus stopped a))
      by apply get_setStatus.
    eexists. split; [reflexivity |]. cbn.
    repeat split; try done.
    + unfold Registry.get. cbn. by rewrite lookup_insert_eq.
    + intros other Hother. unfold Registry.get. cbn.
      by rewrite !lookup_insert_ne.
  - eexists. split; [reflexivity |]. cbn.
    repeat split; try done.
    + unfold registryOf. cbn. apply get_setStatus.
    + intros other Hother. unfold registryOf. cbn. by apply get_setStatus_ne.
Qed.

(** X14: the stop handler on a registered agent, whatever the reason:
    the handler is dropped from [agentHandlers] and the other handlers
    stay, the permission requests of the agent are cancelled, the entry is
    [stopped] with its other fields kept, the other agents are untouched
    and no subprocess is spawned, also for the reason [process_exit]. *)
Theorem onStopped_cleans_up (agentId : string) (reason : Index.StopReason)
    (a : Agent) (w : Index.World) :
  Registry.get agentId (registryOf w) = Some a →
  id a = agentId →
  keyed (Permission.pending (Index.permissionTool w)) →
  ∃ w',
    Index.onStopped spawnError mcpServerUrl agentId reason w = (Return tt, w') ∧
    (agentId ∉ Index.agentHandlers w') ∧
    (∀ k, k ≠ agentId → k ∈ Index.agentHandlers w' ↔ k ∈ Index.agentHandlers w) ∧
    Permission.getPending agentId (Permission.pending (Index.permissionTool w'))
    = [] ∧
    (∀ other, other ≠ agentId →
       Permission.getPending other (Permission.pending (Index.permissionTool w'))
       = Permission.getPending other (Permission.pending (Index.permissionTool w))) ∧
    Recovery.spawned (Index.recovery w') = Recovery.spawned (Index.recovery w) ∧
    Registry.get agentId (registryOf w') = Some (withStatus stopped a) ∧
    (∀ other, other ≠ agentId →
       Registry.get other (registryOf w') = Registry.get other (registryOf w)).
Proof.
  intros Hget Hid Hkeyed.
  destruct (onStopped_effect agentId reason a w Hget Hid Hkeyed)
    as (w' & Hrun & Hh & Hp & Hnone & Hs & Hg & Hothers).
  destruct (cancelAll_pending agentId _ Hkeyed) as [_ Hkept].
  exists w'. split; [exact Hrun |]. rewrite Hh.
  split; [| split; [| split; [exact Hnone | split; [| done]]]].
  - intros [Hne _]%list_elem_of_filter. done.
  - intros k Hk. rewrite list_elem_of_filter. tauto.
  - intros other Hother. rewrite Hp. by apply Hkept.
Qed.

(** X15: the stop handler on an agent that is no longer registered (after
    [kill], for one) is rejected with [Agent not found]; by then the handler
    was dropped and the permission requests of the agent were cancelled. *)
Theorem onStopped_unregistered (agentId : string) (reason : Index.StopReason)
    (w : Index.World) :
  Registry.get agentId (registryOf w) = None →
  Index.onStopped spawnError mcpServerUrl agentId reason w
  = (Throw ("Agent not found: " +:+ agentId),
     {| Index.recovery := Index.recovery w;
        Index.permissionTool :=
          Permission.cancelAll agentId (Index.permissionTool w);
        Index.agentHandlers :=
          filter (λ k, k ≠ agentId) (Index.agentHandlers w) |}).
Proof.
  intros Hget. unfold Index.onStopped, bind, modify. cbn [fst snd].
  match goal with
  | |- context [Index.registryUpdate _ _ ?w0] =>
      rewrite (registryUpdate_unknown agentId (Registry.statusUpdate stopped) w0)
        by exact Hget
  end.
  reflexivity.
Qed.

(** The exit callback returns and touches at most the session id of its
    agent. *)
Lemma onExit_cases (agentId : string) (processSession : option string)
    (exitCode : option Z) (w : Index.World) :
  ∃ w',
    Index.onExit agentId processSession exitCode w = (Return tt, w') ∧
    Index.permissionTool w' = Index.permissionTool w ∧
    Index.agentHandlers w' = Index.agentHandlers w ∧
    Recovery.spawned (Index.recovery w') = Recovery.spawned (Index.recovery w) ∧
    (∀ other, other ≠ agentId →
       Registry.get other (registryOf w') = Registry.get other (registryOf w)) ∧
    (Registry.get agentId (registryOf w') = Registry.get agentId (registryOf w) ∨
     ∃ a c sid,
       exitCode = Some c ∧ c ≠ 0%Z ∧ processSession = Some sid ∧
       JS.truthy sid = true ∧
       Registry.get agentId (registryOf w) = Some a ∧ status a = running ∧
       Registry.get agentId (registryOf w') = Some (withSession sid a)).
Proof.
  assert (Hsame : ∃ w', (Return tt, w) = (Return tt, w') ∧
    Index.permissionTool w' = Index.permissionTool w ∧
    Index.agentHandlers w' = Index.agentHandlers w ∧
    Recovery.spawned (Index.recovery w') = Recovery.spawned (Index.recovery w) ∧
    (∀ other, other ≠ agentId →
       Registry.get other (registryOf w') = Registry.get other (registryOf w)) ∧
    (Registry.get agentId (registryOf w') = Registry.get agentId (registryOf w) ∨
     ∃ a c sid,
       exitCode = Some c ∧ c ≠ 0%Z ∧ processSession = Some sid ∧
       JS.truthy sid = true ∧
       Registry.get agentId (registryOf w) = Some a ∧ status a = running ∧
       Registry.get agentId (registryOf w') = Some (withSession sid a))).
  { exists w. repeat split; try done. by left. }
  unfold Index.onExit.
  destruct exitCode as [c|]; [| exact Hsame].
  destruct (Z.eqb_spec c 0) as [Hc | Hc]; cbn [negb]; [exact Hsame |].
  unfold bind, Index.registryGet, gets. fold (registryOf w).
  destruct (Registry.get agentId (registryOf w)) as [a|] eqn:Hget;
    [| exact Hsame].
  case_bool_decide as Hrun; [| exact Hsame].
  destruct processSession as [sid|]; [| exact Hsame].
  destruct (JS.truthy sid) eqn:Htruthy; [| exact Hsame].
  unfold Index.registryUpdate, Index.onRecovery, Recovery.onRegistry.
  rewrite (update_known_id _ _ _ _ Hget).
  eexists. split; [reflexivity |]. cbn. repeat split; try done.
  - intros other Hother. unfold registryOf, Registry.get. cbn.
    by rewrite lookup_insert_ne.
  - right. exists a, c, sid. repeat split; try done.
    unfold registryOf, Registry.get. cbn. by rewrite lookup_insert_eq.
Qed.

(** X16: the subprocess of a registered agent exits.  Whatever the exit
    code and the session of the process, the two callbacks return, nothing
    is spawned, the handler is dropped, the agent has no pending permission
    request and its entry is [stopped]; the entry is the one it was, but
    for a session id that the exit callback may have stored. *)
Theorem process_exit_never_respawns (agentId : string)
    (processSession : option string) (exitCode : option Z)
    (a : Agent) (w : Index.World) :
  Registry.get agentId (registryOf w) = Some a →
  id a = agentId →
  keyed (Permission.pending (Index.permissionTool w)) →
  ∃ w',
    Index.processExited spawnError mcpServerUrl agentId processSession exitCode w
    = (Return tt, w') ∧
    Recovery.spawned (Index.recovery w') = Recovery.spawned (Index.recovery w) ∧
    (agentId ∉ Index.agentHandlers w') ∧
    Permission.getPending agentId (Permission.pending (Index.permissionTool w'))
    = [] ∧
    (Registry.get agentId (registryOf w') = Some (withStatus stopped a) ∨
     ∃ sid, processSession = Some sid ∧
       Registry.get agentId (registryOf w')
       = Some (withStatus stopped (withSession sid a))).
Proof.
  intros Hget Hid Hkeyed. unfold Index.processExited, bind.
  destruct (onExit_cases agentId processSession exitCode w)
    as (w1 & -> & Hp & Hh & Hs & _ & Hcases).
  assert (Hk1 : keyed (Permission.pending (Index.permissionTool w1)))
    by (by rewrite Hp).
  destruct Hcases as [Hsame | (a0 & c & sid & _ & _ & Hsess & _ & Ha0 & _ & Hnew)].
  - rewrite Hget in Hsame.
    destruct (onStopped_effect agentId Index.process_exit a w1 Hsame Hid Hk1)
      as (w' & -> & Hh' & _ & Hnone & Hs' & Hg & _).
    exists w'. split; [reflexivity |]. split; [congruence |].
    split; [| split; [exact Hnone | by left]].
    rewrite Hh'. intros [Hne _]%list_elem_of_filter. done.
  - assert (a0 = a) by congruence. subst a0.
    destruct (onStopped_effect agentId Index.process_exit (withSession sid a)
                w1 Hnew Hid Hk1)
      as (w' & -> & Hh' & _ & Hnone & Hs' & Hg & _).
    exists w'. split; [reflexivity |]. split; [congruence |].
    split; [| split; [exact Hnone | right; by exists sid]].
    rewrite Hh'. intros [Hne _]%list_elem_of_filter. done.
Qed.

End IndexProperties.

Section AgentCreatedProperties.

Import Persistence.

Variable spawnError : ClaudeCode.AgentConfig → option string.
Variable mcpServerUrl : string.

(** The configuration [handleAgentCreated] spawns with. *)
Definition creationConfig (event : ManagerBot.AgentCreatedEvent)
    : ClaudeCode.AgentConfig :=
  {| ClaudeCode.workDir := workDir (ManagerBot.agent event);
     ClaudeCode.initialPrompt := Some (ManagerBot.initialPrompt event);
     ClaudeCode.agentId := id (ManagerBot.agent event);
     ClaudeCode.mcpServerUrl := mcpServerUrl;
     ClaudeCode.resumeSessionId := None |}.

(** The error that stops the initialisation, if any: the one of
    [connect], else the one of [spawn]. *)
Definition initError (connectError : option string)
    (event : ManagerBot.AgentCreatedEvent) : option string :=
  match connectError with
  | Some e => Some e
  | None => spawnError (creationConfig event)
  end.

Lemma elem_of_setHandler k agentId keys :
  k ∈ Index.setHandler agentId keys ↔ k = agentId ∨ k ∈ keys.
Proof.
  unfold Index.setHandler. case_bool_decide as Hin.
  - split; [by right | intros [-> | H]; done].
  - rewrite elem_of_app, list_elem_of_singleton. tauto.
Qed.

(** X17: [handleAgentCreated] for a registered agent.  When the XMPP
    connection and the spawn succeed, the call returns, the subprocess was
    spawned once, with the initial prompt and no session to resume, the entry
    is [running] and the agent has a handler.  When either throws, the call
    is rejected with that error, the entry is [stopped], no handler is stored
    and nothing is spawned.  The permission tool is untouched in both
    cases. *)
Theorem handleAgentCreated_outcome (connectError : option string)
    (event : ManagerBot.AgentCreatedEvent) (current : Agent) (w : Index.World) :
  Registry.get (id (ManagerBot.agent event)) (registryOf w) = Some current →
  ∃ r w',
    Index.handleAgentCreated connectError spawnError mcpServerUrl event w
    = (r, w') ∧
    Index.permissionTool w' = Index.permissionTool w ∧
    match initError connectError event with
    | None =>
        r = Return tt ∧
        Recovery.spawned (Index.recovery w')
        = Recovery.spawned (Index.recovery w) ++ [creationConfig event] ∧
        Registry.get (id (ManagerBot.agent event)) (registryOf w')
        = Some (withStatus running current) ∧
        (∀ k, k ∈ Index.agentHandlers w'
              ↔ k = id (ManagerBot.agent event) ∨ k ∈ Index.agentHandlers w)
    | Some e =>
        r = Throw e ∧
        Recovery.spawned (Index.recovery w') = Recovery.spawned (Index.recovery w) ∧
        Registry.get (id (ManagerBot.agent event)) (registryOf w')
        = Some (withStatus stopped current) ∧
        Index.agentHandlers w' = Index.agentHandlers w
    end.
Proof.
  intros Hget. unfold Index.handleAgentCreated, initError, tryCatch, bind.
  destruct connectError as [e|].
  - unfold throw.
    rewrite (registryUpdate_status _ stopped current w Hget).
    eexists _, _. split; [reflexivity |]. cbn. repeat split.
    unfold registryOf. cbn. apply get_setStatus.
  - unfold ret at 1. unfold Index.onRecovery, Recovery.spawn.
    fold (creationConfig event).
    destruct (spawnError (creationConfig event)) as [e|].
    + match goal with
      | |- context [Index.registryUpdate _ _ ?w0] =>
          rewrite (registryUpdate_status _ stopped current w0)
            by (destruct w; exact Hget)
      end.
      eexists _, _. split; [reflexivity |]. cbn. repeat split.
      unfold registryOf. cbn. apply get_setStatus.
    + match goal with
      | |- context [Index.registryUpdate _ _ ?w0] =>
          rewrite (registryUpdate_status _ running current w0) by exact Hget
      end.
      eexists _, _. split; [reflexivity |]. cbn. repeat split.
      * unfold registryOf. cbn. apply get_setStatus.
      * by intros ?%elem_of_setHandler.
      * by intros ?%elem_of_setHandler.
Qed.

End AgentCreatedProperties.

Section IndexScenario.

Import Persistence.

(** [swift-fox] is registered and running, with a handler and with the
    permission request [c3d4] pending; [calm-owl] has a handler only. *)
Definition live_world : Index.World :=
  {| Index.recovery := fox_world;
     Index.permissionTool := one_pending;
     Index.agentHandlers := ["swift-fox"; "calm-owl"] |}.

Lemma live_world_keyed : keyed (Permission.pending (Index.permissionTool live_world)).
Proof. apply (bool_decide_unpack _). vm_compute. exact I. Qed.

Lemma onStopped_cleans_up_witness :
  ∃ w',
    Index.onStopped no_spawn_error "http://localhost:3001/mcp" "swift-fox"
      Index.user_quit live_world
    = (Return tt, w') ∧
    Index.agentHandlers w' = ["calm-owl"] ∧
    Recovery.spawned (Index.recovery w') = [] ∧
    Registry.get "swift-fox" (registryOf w') = Some (withStatus stopped fox).
Proof.
  destruct (onStopped_cleans_up no_spawn_error "http://localhost:3001/mcp"
              "swift-fox" Index.user_quit fox live_world
              eq_refl eq_refl live_world_keyed)
    as (w' & Hrun & _ & _ & _ & _ & Hs & Hg & _).
  exists w'. split; [exact Hrun |].
  split; [| split; [exact Hs | exact Hg]].
  vm_compute in Hrun. by injection Hrun as <-.
Defined.

Lemma onStopped_unregistered_witness :
  Registry.get "calm-owl" (registryOf live_world) = None ∧
  ∃ w',
    Index.onStopped no_spawn_error "http://localhost:3001/mcp" "calm-owl"
      Index.process_exit live_world
    = (Throw "Agent not found: calm-owl", w') ∧
    Index.agentHandlers w' = ["swift-fox"].
Proof.
  assert (H : Registry.get "calm-owl" (registryOf live_world) = None)
    by reflexivity.
  split; [exact H |]. eexists. split.
  - exact (onStopped_unregistered no_spawn_error "http://localhost:3001/mcp"
             "calm-owl" Index.process_exit live_world H).
  - reflexivity.
Defined.

Lemma process_exit_never_respawns_witness :
  ∃ w',
    Index.processExited no_spawn_error "http://localhost:3001/mcp" "swift-fox"
      (Some "sess-2") (Some 1%Z) live_world
    = (Return tt, w') ∧
    Recovery.spawned (Index.recovery w') = [] ∧
    Permission.getPending "swift-fox" (Permission.pending (Index.permissionTool w'))
    = [].
Proof.
  destruct (process_exit_never_respawns no_spawn_error
              "http://localhost:3001/mcp" "swift-fox" (Some "sess-2")
              (Some 1%Z) fox live_world eq_refl eq_refl live_world_keyed)
    as (w' & Hrun & Hs & _ & Hnone & _).
  exists w'. split; [exact Hrun |]. split; [exact Hs | exact Hnone].
Defined.

Definition fox_created : ManagerBot.AgentCreatedEvent :=
  {| ManagerBot.agent := fox; ManagerBot.initialPrompt := "fix the tests" |}.

Lemma handleAgentCreated_outcome_witness :
  ∃ w',
    Index.handleAgentCreated (Some "ECONNREFUSED") no_spawn_error
      "http://localhost:3001/mcp" fox_created live_world
    = (Throw "ECONNREFUSED", w') ∧
    Recovery.spawned (Index.recovery w') = [] ∧
    Registry.get "swift-fox" (registryOf w') = Some (withStatus stopped fox).
Proof.
  destruct (handleAgentCreated_outcome no_spawn_error "http://localhost:3001/mcp"
              (Some "ECONNREFUSED") fox_created fox live_world eq_refl)
    as (r & w' & Hrun & _ & Hr & Hs & Hg & _).
  exists w'. subst r. split; [exact Hrun |]. split; [exact Hs | exact Hg].
Defined.

End IndexScenario.

Section PersistenceProperties.

Import Persistence.

Lemma findIndex_None k l : findIndex k l = None ↔ k ∉ id <$> l.
Proof.
  induction l as [|a l IH]; simpl.
  - split; [intros _ H; by apply elem_of_nil in H | done].
  - rewrite not_elem_of_cons. case_bool_decide as Ha.
    + split; [done | intros [Hne _]; by subst].
    + destruct (findIndex k l); simpl.
      * split; [done | intros [_ Hl]]. by apply IH in Hl.
      * split; [intros _; split; [congruence | by apply IH] | done].
Qed.

Lemma findIndex_Some k l i :
  findIndex k l = Some i → id <$> l !! i = Some k.
Proof.
  revert i. induction l as [|a l IH]; intros i; simpl; [done |].
  case_bool_decide as Ha.
  - intros [= <-]. simpl. by rewrite Ha.
  - destruct (findIndex k l) as [j|]; simpl; [| done].
    intros [= <-]. simpl. by apply IH.
Qed.

(** The agents after [upsertAgent], apart from the write. *)
Definition upserted (a : Agent) (l : list Agent) : list Agent :=
  match findIndex (id a) l with
  | Some existingIndex => <[existingIndex := a]> l
  | None => l ++ [a]
  end.

Lemma agents_upsertAgent a st : agents (upsertAgent a st) = upserted a (agents st).
Proof. reflexivity. Qed.

Lemma ids_upserted a l :
  id <$> upserted a l
  = if bool_decide (id a ∈ id <$> l) then id <$> l else (id <$> l) ++ [id a].
Proof.
  unfold upserted. destruct (findIndex (id a) l) as [i|] eqn:Hi.
  - rewrite bool_decide_eq_true_2.
    + rewrite list_fmap_insert. apply findIndex_Some in Hi.
      apply list_insert_id. by rewrite list_lookup_fmap.
    + destruct (decide (id a ∈ id <$> l)) as [|Hn]; [done |].
      apply findIndex_None in Hn. congruence.
  - apply findIndex_None in Hi. rewrite bool_decide_eq_false_2 by done.
    by rewrite fmap_app.
Qed.

Lemma NoDup_upserted a l : NoDup (id <$> l) → NoDup (id <$> upserted a l).
Proof.
  intros Hn. rewrite ids_upserted. case_bool_decide as Hin; [done |].
  apply NoDup_app. split; [done |]. split; [| apply NoDup_singleton].
  intros k Hk ->%list_elem_of_singleton. done.
Qed.

Lemma findAgent_upserted a l k :
  findAgent k (upserted a l)
  = if bool_decide (k = id a) then Some a else findAgent k l.
Proof.
  case_bool_decide as Hk.
  - subst k.
    pose proof (findAgent_upsert a {| agents := l; disk := [] |}) as E.
    exact E.
  - unfold findAgent, upserted.
    destruct (findIndex (id a) l) as [i|] eqn:Hi.
    + apply findIndex_Some in Hi.
      destruct (l !! i) as [b|] eqn:Hb; [| done]. simpl in Hi.
      injection Hi as Hid.
      rewrite <- (take_drop_middle l i b Hb) at 2.
      rewrite insert_take_drop by (by apply lookup_lt_Some in Hb).
      rewrite !filter_app.
      rewrite (filter_cons_False _ a) by congruence.
      rewrite (filter_cons_False _ b) by congruence. reflexivity.
    + rewrite filter_app. rewrite (filter_cons_False _ a) by congruence.
      rewrite filter_nil. by rewrite app_nil_r.
Qed.

Lemma findAgent_removed k0 l k :
  findAgent k (filter (λ a, id a ≠ k0) l)
  = if bool_decide (k = k0) then None else findAgent k l.
Proof.
  unfold findAgent. rewrite list_filter_filter. case_bool_decide as Hk.
  - subst k. rewrite filter_none; [done |]. intros x _ [H1 H2]. done.
  - f_equal. apply filter_ext_in. intros x _. split; [tauto |].
    intros Hx. split; [done | congruence].
Qed.

Lemma findAgent_Some k l a : findAgent k l = Some a → a ∈ l ∧ id a = k.
Proof.
  unfold findAgent. intros H.
  assert (Hin : a ∈ filter (λ b, id b = k) l).
  { destruct (filter (λ b, id b = k) l) as [|b t]; [done |].
    injection H as ->. apply elem_of_cons. by left. }
  apply list_elem_of_filter in Hin. tauto.
Qed.

Lemma findAgent_None k l : findAgent k l = None ↔ k ∉ id <$> l.
Proof.
  unfold findAgent. split.
  - intros H [a [-> Ha]]%list_elem_of_fmap.
    assert (Hin : a ∈ filter (λ b, id b = id a) l)
      by (by apply list_elem_of_filter).
    destruct (filter (λ b, id b = id a) l); [by apply elem_of_nil in Hin | done].
  - intros Hn. rewrite filter_none; [done |].
    intros x Hx Hid. apply Hn. apply list_elem_of_fmap. by exists x.
Qed.

End PersistenceProperties.

Section RegistryProperties.

Import Persistence.

(** The registry and the persistence agree: [registry.get(id)] and
    [persistence.getAgent(id)] give the same record for every id, the
    persisted list has one entry per id, and the last write of [save], when
    there is one, holds the persisted list. *)
Record agreed (st : Registry.State) : Prop := {
  a_get : ∀ k, Registry.get k st = getAgent k (Registry.persistence st);
  a_unique : NoDup (id <$> agents (Registry.persistence st));
  a_saved : default [] (last (disk (Registry.persistence st)))
            = agents (Registry.persistence st);
}.

Lemma agreed_key st k a : agreed st → Registry.get k st = Some a → id a = k.
Proof.
  intros [Hg _ _] H. rewrite Hg in H. by apply findAgent_Some in H as [_ ?].
Qed.

(** The calls that change the registry. *)
Inductive Call : Type :=
| Register (draw : nat → nat * nat) (isoNow : string) (agent : Agent)
| Update (agentId : string) (updates : Registry.Updates)
| Remove (agentId : string).

Definition call (c : Call) (st : Registry.State) : Registry.State :=
  match c with
  | Register draw isoNow agent => snd (Registry.register draw isoNow agent st)
  | Update agentId updates => snd (Registry.update agentId updates st)
  | Remove agentId => snd (Registry.remove agentId st)
  end.

Definition calls (l : list Call) (st : Registry.State) : Registry.State :=
  foldl (λ s c, call c s) st l.

(** A registry before [load]. *)
Definition emptyRegistry : Registry.State :=
  {| Registry.agents := ∅;
     Registry.persistence := {| agents := []; disk := [] |} |}.

Lemma generateIdFrom_fresh draw attempts attempt st newId :
  Registry.generateIdFrom draw attempts attempt st = Some newId →
  Registry.get newId st = None.
Proof.
  revert attempt. induction attempts as [|n IH]; intros attempt; simpl; [done |].
  destruct (Registry.agents st !! _) eqn:E; [apply IH |].
  by intros [= <-].
Qed.

Lemma agreed_insert (a : Agent) (st : Registry.State) :
  agreed st →
  agreed {| Registry.agents := <[id a := a]> (Registry.agents st);
            Registry.persistence := upsertAgent a (Registry.persistence st) |}.
Proof.
  intros [Hg Hn Hs]. split.
  - intros k. unfold Registry.get, getAgent. cbn.
    rewrite agents_upsertAgent, findAgent_upserted. case_bool_decide as Hk.
    + subst k. apply lookup_insert_eq.
    + rewrite lookup_insert_ne by done. apply Hg.
  - cbn. rewrite agents_upsertAgent. by apply NoDup_upserted.
  - cbn. by rewrite disk_upsert, last_snoc.
Qed.

Lemma agreed_call c st : agreed st → agreed (call c st).
Proof.
  intros Hst. destruct c as [draw isoNow agent | agentId updates | agentId]; simpl.
  - unfold Registry.register, Registry.generateId, bind.
    destruct (Registry.generateIdFrom draw 10 0 st) as [newId|]; [| done].
    cbn. by apply (agreed_insert
      {| id := newId; type := type agent; jid := jid agent;
         workDir := workDir agent; createdAt := isoNow;
         createdBy := createdBy agent; status := status agent;
         pid := pid agent; sessionId := sessionId agent |}).
  - unfold Registry.update.
    destruct (Registry.agents st !! agentId) as [existing|] eqn:E; [| done].
    cbn. assert (Hid : id existing = agentId) by (by apply (agreed_key st)).
    rewrite <- Hid at 1.
    by apply (agreed_insert (Registry.merge existing updates)).
  - destruct Hst as [Hg Hn Hs]. split.
    + intros k. unfold Registry.get, getAgent. cbn.
      rewrite findAgent_removed. case_bool_decide as Hk.
      * subst k. apply lookup_delete_eq.
      * rewrite lookup_delete_ne by done. apply Hg.
    + cbn. by apply NoDup_fmap_filter.
    + cbn. by rewrite last_snoc.
Qed.

Lemma agreed_calls l st : agreed st → agreed (calls l st).
Proof.
  revert st. induction l as [|c l IH]; intros st Hst; [done |].
  apply IH. by apply agreed_call.
Qed.

Lemma lookup_loaded (l : list Agent) (m : gmap string Agent) k :
  NoDup (id <$> l) →
  foldl (λ m a, <[id a := a]> m) m l !! k
  = match findAgent k l with
    | Some a => Some a
    | None => m !! k
    end.
Proof.
  revert m. induction l as [|a l IH]; intros m; [done |].
  rewrite fmap_cons, NoDup_cons. intros [Ha Hl]. simpl.
  rewrite (IH _ Hl). unfold findAgent.
  destruct (decide (id a = k)) as [Hk | Hk].
  - rewrite filter_cons_True by done. subst k.
    apply findAgent_None in Ha. unfold findAgent in Ha. rewrite Ha. simpl.
    apply lookup_insert_eq.
  - rewrite filter_cons_False by done.
    destruct (head _); [done |]. by apply lookup_insert_ne.
Qed.

Lemma ids_markStopped (l : list Agent) :
  id <$> (markStopped <$> l) = id <$> l.
Proof. rewrite <- list_fmap_compose. by apply list_fmap_ext. Qed.

Lemma agreed_load file :
  NoDup (id <$> default [] file) →
  agreed (snd (Registry.load file emptyRegistry)).
Proof.
  intros Hn. destruct file as [loaded|]; simpl in *.
  - split.
    + intros k. unfold Registry.get, getAgent. cbn.
      rewrite lookup_loaded by (by rewrite ids_markStopped).
      destruct (findAgent k _); [done | apply lookup_empty].
    + cbn. by rewrite ids_markStopped.
    + reflexivity.
  - split; [intros k; apply lookup_empty | apply NoDup_nil_2 | reflexivity].
Qed.

(** X18: the registry is loaded from a state file that lists each id
    once, or from none, and then any calls of [register], [update] and
    [remove] are made, failed ones included.  Afterwards [registry.get] and
    [persistence.getAgent] agree on every id, the persisted list has one
    entry per id, and the last write holds that list. *)
Theorem registry_agrees_with_persistence (file : option (list Agent))
    (l : list Call) :
  NoDup (id <$> default [] file) →
  agreed (calls l (snd (Registry.load file emptyRegistry))).
Proof.
  intros Hn. by apply agreed_calls, agreed_load.
Qed.

Lemma loaded_values (l : list Agent) (m : gmap string Agent) k a :
  foldl (λ m a, <[id a := a]> m) m l !! k = Some a →
  a ∈ l ∨ m !! k = Some a.
Proof.
  revert m. induction l as [|b l IH]; intros m; simpl; [by right |].
  intros [H | H]%IH.
  - left. apply elem_of_cons. by right.
  - destruct (decide (id b = k)) as [Hk | Hk].
    + subst k. rewrite lookup_insert_eq in H. injection H as ->.
      left. apply elem_of_cons. by left.
    + rewrite lookup_insert_ne in H by done. by right.
Qed.

(** X19: after [load], whatever the state file held, every agent of the
    registry and every persisted agent is [stopped] and has no [pid]; a
    file that is missing or unreadable gives an empty registry and is not
    written. *)
Theorem load_marks_all_stopped (file : option (list Agent))
    (st : Registry.State) :
  let st' := snd (Registry.load file st) in
  (∀ k a, Registry.get k st' = Some a → status a = stopped ∧ pid a = None) ∧
  Forall (λ a, status a = stopped ∧ pid a = None)
    (agents (Registry.persistence st')) ∧
  match file with
  | Some loaded =>
      disk (Registry.persistence st')
      = disk (Registry.persistence st) ++ [markStopped <$> loaded]
  | None =>
      Registry.agents st' = ∅ ∧
      disk (Registry.persistence st') = disk (Registry.persistence st)
  end.
Proof.
  destruct file as [loaded|]; cbn; unfold Registry.get; cbn.
  - split; [| split; [| done]].
    + intros k a [Hin | Hin]%loaded_values.
      * by apply list_elem_of_fmap in Hin as [b [-> _]].
      * by rewrite lookup_empty in Hin.
    + apply Forall_forall. intros a Hin.
      by apply list_elem_of_fmap in Hin as [b [-> _]].
  - split; [| split; [| done]].
    + intros k a Hin. by rewrite lookup_empty in Hin.
    + by apply Forall_nil.
Qed.

(** The id tried at one attempt of [generateId]. *)
Definition candidate (d : nat * nat) : string :=
  default "" (Registry.ADJECTIVES !! fst d) +:+ "-"
  +:+ default "" (Registry.ANIMALS !! snd d).

Lemma generateIdFrom_Some draw attempts attempt st newId :
  Registry.generateIdFrom draw attempts attempt st = Some newId →
  ∃ n, attempt ≤ n < attempt + attempts ∧ newId = candidate (draw n) ∧
       ∀ m, attempt ≤ m < n → Registry.get (candidate (draw m)) st ≠ None.
Proof.
  revert attempt. induction attempts as [|k IH]; intros attempt; simpl; [done |].
  fold (candidate (draw attempt)).
  destruct (Registry.agents st !! candidate (draw attempt)) eqn:E.
  - intros (n & Hn & -> & Hbefore)%IH. exists n. split; [lia |]. split; [done |].
    intros m Hm. destruct (decide (m = attempt)) as [-> | Hne].
    + unfold Registry.get. by rewrite E.
    + apply Hbefore. lia.
  - intros [= <-]. exists attempt. split; [lia |]. split; [done |].
    intros m Hm. lia.
Qed.

Lemma generateIdFrom_None draw attempts attempt st :
  Registry.generateIdFrom draw attempts attempt st = None →
  ∀ m, attempt ≤ m < attempt + attempts →
       Registry.get (candidate (draw m)) st ≠ None.
Proof.
  revert attempt. induction attempts as [|k IH]; intros attempt; simpl.
  - intros _ m Hm. lia.
  - fold (candidate (draw attempt)).
    destruct (Registry.agents st !! candidate (draw attempt)) eqn:E; [| done].
    intros H m Hm. destruct (decide (m = attempt)) as [-> | Hne].
    + unfold Registry.get. by rewrite E.
    + apply (IH _ H). lia.
Qed.

(** X20: [register].  Either the call returns an agent whose id is the
    first of the ten candidates that is not registered; the id is an
    adjective and an animal of the two lists joined by a dash when the draws
    are indices of the lists; the agent is stored under that id with the
    given time as [createdAt] and the fields of the argument otherwise, and
    the other entries are untouched.  Or all ten candidates are registered,
    the call throws and the registry is as it was. *)
Theorem register_outcome (draw : nat → nat * nat) (isoNow : string)
    (agent : Agent) (st : Registry.State) :
  (∀ n, fst (draw n) < 20 ∧ snd (draw n) < 20) →
  match Registry.register draw isoNow agent st with
  | (Return a, st') =>
      (∃ n, n < 10 ∧ id a = candidate (draw n) ∧
         ∀ m, m < n → Registry.get (candidate (draw m)) st ≠ None) ∧
      (∃ adjective animal,
         adjective ∈ Registry.ADJECTIVES ∧ animal ∈ Registry.ANIMALS ∧
         id a = adjective +:+ "-" +:+ animal) ∧
      Registry.get (id a) st = None ∧
      Registry.get (id a) st' = Some a ∧
      a = {| id := id a; type := type agent; jid := jid agent;
             workDir := workDir agent; createdAt := isoNow;
             createdBy := createdBy agent; status := status agent;
             pid := pid agent; sessionId := sessionId agent |} ∧
      (∀ other, other ≠ id a → Registry.get other st' = Registry.get other st)
  | (Throw e, st') =>
      e = "Failed to generate unique agent ID after 10 attempts" ∧ st' = st ∧
      ∀ m, m < 10 → Registry.get (candidate (draw m)) st ≠ None
  end.
Proof.
  intros Hdraw. unfold Registry.register, Registry.generateId, bind.
  destruct (Registry.generateIdFrom draw 10 0 st) as [newId|] eqn:Hgen.
  - cbn. pose proof (generateIdFrom_fresh _ _ _ _ _ Hgen) as Hfresh.
    apply generateIdFrom_Some in Hgen as (n & Hn & -> & Hbefore).
    split; [| split; [| split; [exact Hfresh | split; [| split; [done |]]]]].
    + exists n. split; [lia |]. split; [done |]. intros m Hm. apply Hbefore. lia.
    + destruct (Hdraw n) as [H1 H2].
      destruct (lookup_lt_is_Some_2 Registry.ADJECTIVES (fst (draw n)) H1)
        as [adjective Hadj].
      destruct (lookup_lt_is_Some_2 Registry.ANIMALS (snd (draw n)) H2)
        as [animal Hani].
      exists adjective, animal.
      split; [by eapply list_elem_of_lookup_2 |].
      split; [by eapply list_elem_of_lookup_2 |].
      unfold candidate. by rewrite Hadj, Hani.
    + unfold Registry.get. cbn. apply lookup_insert_eq.
    + intros other Hother. unfold Registry.get. cbn.
      by apply lookup_insert_ne.
  - split; [done |]. split; [done |].
    intros m Hm. apply (generateIdFrom_None _ _ _ _ Hgen). lia.
Qed.

End RegistryProperties.

Section RegistryScenario.

Import Persistence.

Lemma registry_agrees_with_persistence_witness :
  NoDup (id <$> default [] (Some [fox; owl])) ∧
  agreed (calls [Update "swift-fox" (Registry.sessionUpdate "sess-2");
                 Remove "calm-owl";
                 Register (λ _, (0, 0)) "2025-01-03T00:00:00.000Z" owl]
            (snd (Registry.load (Some [fox; owl]) emptyRegistry))).
Proof.
  assert (H : NoDup (id <$> default [] (Some [fox; owl]))).
  { apply (bool_decide_unpack _). vm_compute. exact I. }
  split; [exact H |].
  exact (registry_agrees_with_persistence (Some [fox; owl]) _ H).
Defined.

Lemma register_outcome_witness :
  (∀ n, fst ((λ _ : nat, (0, 0)) n) < 20 ∧ snd ((λ _ : nat, (0, 0)) n) < 20) ∧
  match Registry.register (λ _, (0, 0)) "2025-01-03T00:00:00.000Z" owl
          fox_registry with
  | (Return a, st') =>
      id a = "swift-fox" ∨ Registry.get (id a) fox_registry = None
  | (Throw e, st') =>
      e = "Failed to generate unique agent ID after 10 attempts"
  end.
Proof.
  assert (H : ∀ n, fst ((λ _ : nat, (0, 0)) n) < 20
                   ∧ snd ((λ _ : nat, (0, 0)) n) < 20) by (intros n; simpl; lia).
  split; [exact H |].
  pose proof (register_outcome (λ _, (0, 0)) "2025-01-03T00:00:00.000Z" owl
                fox_registry H) as Hr.
  destruct (Registry.register (λ _, (0, 0)) "2025-01-03T00:00:00.000Z" owl
              fox_registry) as [[a|e] st'].
  - right. tauto.
  - tauto.
Defined.

End RegistryScenario.

Section ManagerBotProperties.

Import Persistence ManagerBot.

Variable env : Env.

Local Arguments Registry.generateIdFrom : simpl never.

(** The agent that [handleTaskInput] registers: the XMPP account and the
    JID carry the id of the first call of [generateId], the record the id
    of the second. *)
Definition createdAgent (userJid repoName accountId agentId : string) : Agent :=
  {| id := agentId; type := "claude-code";
     jid := accountId +:+ "@" +:+ domain env;
     workDir := Path.join (basePath env) repoName;
     createdAt := isoNow env; createdBy := userJid; status := starting;
     pid := None; sessionId := None |}.

(** [path.join] normalises what it joins: a separator at the end of the
    base path, doubled separators, [.] and [..] leave no trace. *)
Lemma join_normalises :
  Path.join "/work" "proj-x" = "/work/proj-x" ∧
  Path.join "/work/" "proj-x" = "/work/proj-x" ∧
  Path.join "/work//repos/./" "../proj-x" = "/work/proj-x" ∧
  Path.join "work" ".." = "." ∧
  Path.join "/" ".." = "/" ∧
  Path.join "work" "../.." = "..".
Proof. repeat split. Qed.

(** X21: [handleTaskInput] completes an agent creation.  With a repo
    selected, an input other than [cancel], a [createUser] that succeeds and
    two calls of [generateId] that find the free ids [accountId] and
    [agentId], the XMPP account is created under [accountId] and the JID of
    the agent is built from it, while the agent is registered, announced and
    emitted under [agentId]; its working directory is [path.join] of the
    base path and the repo, normalised; the conversation is reset and the
    input is the initial prompt of the event. *)
Theorem handleTaskInput_creates (userJid input repoName accountId agentId : string)
    (c : ConversationState) (w : World) :
  JS.eqb (JS.toLowerCase input) "cancel" = false →
  createUserError env = None →
  conversations w !! userJid = Some c →
  Registry.generateIdFrom (draw1 env) 10 0 (registry w) = Some accountId →
  Registry.generateIdFrom (draw2 env) 10 0 (registry w) = Some agentId →
  ∃ w',
    handleTaskInput env userJid input (Some repoName) w = (Return tt, w') ∧
    let a := createdAgent userJid repoName accountId agentId in
    xmppUsers w' = xmppUsers w ++ [(accountId, password env)] ∧
    Registry.get agentId (registry w') = Some a ∧
    created w' = created w ++ [{| agent := a; initialPrompt := input |}] ∧
    sent w' = sent w ++
      [(userJid, "Agent " +:+ agentId +:+ " created. Chat at "
                 +:+ accountId +:+ "@" +:+ domain env)] ∧
    conversations w' !! userJid
    = Some {| step := idle; agentType := None; repo := None |}.
Proof.
  intros Hcancel Huser Hconv Hid1 Hid2.
  unfold handleTaskInput. rewrite Hcancel.
  unfold tryCatch, bind, ret, onRegistry, Registry.generateId.
  rewrite Hid1. cbn.
  unfold createUser. rewrite Huser. unfold modify. cbn.
  unfold Registry.register, Registry.generateId, bind. cbn.
  rewrite Hid2. cbn.
  eexists. split; [reflexivity |]. cbn.
  split; [reflexivity |]. split; [| split; [reflexivity |]; split; [reflexivity |]].
  - unfold Registry.get. cbn. apply lookup_insert_eq.
  - rewrite lookup_alter_eq, Hconv. reflexivity.
Qed.

(** X22: whatever the input, [handleTaskInput] returns, sends exactly one
    message to the user and leaves the conversation at [idle]; every other
    conversation is untouched.  An agent-created event is emitted at most
    once, and only for an agent that is then registered. *)
Theorem handleTaskInput_ends_dialogue (userJid input : string)
    (selected : option string) (c : ConversationState) (w : World) :
  conversations w !! userJid = Some c →
  ∃ w' message,
    handleTaskInput env userJid input selected w = (Return tt, w') ∧
    sent w' = sent w ++ [(userJid, message)] ∧
    step <$> conversations w' !! userJid = Some idle ∧
    (∀ other, other ≠ userJid →
       conversations w' !! other = conversations w !! other) ∧
    (created w' = created w ∧ registry w' = registry w ∨
     ∃ e, created w' = created w ++ [e] ∧ initialPrompt e = input ∧
          Registry.get (id (agent e)) (registry w') = Some (agent e)).
Proof.
  intros Hconv. unfold handleTaskInput.
  destruct (JS.eqb (JS.toLowerCase input) "cancel").
  { eexists _, _. split; [reflexivity |]. cbn.
    split; [reflexivity |]. split; [by rewrite lookup_alter_eq, Hconv |].
    split; [intros other Hother; by rewrite lookup_alter_ne | by left]. }
  unfold tryCatch, bind.
  destruct selected as [repoName|]; cbn.
  2: { eexists _, _. split; [reflexivity |]. cbn.
       split; [reflexivity |]. split; [by rewrite lookup_alter_eq, Hconv |].
       split; [intros other Hother; by rewrite lookup_alter_ne | by left]. }
  unfold onRegistry, Registry.generateId.
  destruct (Registry.generateIdFrom (draw1 env) 10 0 (registry w)) as [id1|]; cbn.
  2: { eexists _, _. split; [reflexivity |]. cbn.
       split; [reflexivity |]. split; [by rewrite lookup_alter_eq, Hconv |].
       split; [intros other Hother; by rewrite lookup_alter_ne |].
       left. split; [done | by destruct (registry w)]. }
  unfold createUser. destruct (createUserError env) as [e|]; cbn.
  { eexists _, _. split; [reflexivity |]. cbn.
    split; [reflexivity |]. split; [by rewrite lookup_alter_eq, Hconv |].
    split; [intros other Hother; by rewrite lookup_alter_ne |].
    left. split; [done | by destruct (registry w)]. }
  unfold Registry.register, Registry.generateId, bind. cbn.
  replace {| Registry.agents := Registry.agents (registry w);
             Registry.persistence := Registry.persistence (registry w) |}
    with (registry w) by (by destruct (registry w)).
  destruct (Registry.generateIdFrom (draw2 env) 10 0 (registry w)) as [id2|]; cbn.
  - eexists _, _. split; [reflexivity |]. cbn.
    split; [reflexivity |]. split; [by rewrite lookup_alter_eq, Hconv |].
    split; [intros other Hother; by rewrite lookup_alter_ne |].
    right. eexists. split; [reflexivity |]. split; [reflexivity |].
    unfold Registry.get. cbn. apply lookup_insert_eq.
  - eexists _, _. split; [reflexivity |]. cbn.
    split; [reflexivity |]. split; [by rewrite lookup_alter_eq, Hconv |].
    split; [intros other Hother; by rewrite lookup_alter_ne |].
    left. split; [done | by destruct (registry w)].
Qed.

End ManagerBotProperties.

Section RepoSelectionProperties.

Import ManagerBot.

(** The decimal digits. *)
Definition digitChars : list ascii :=
  ["0"; "1"; "2"; "3"; "4"; "5"; "6"; "7"; "8"; "9"]%char.

Fixpoint decimal (s : string) : Prop :=
  match s with
  | EmptyString => True
  | String a s' => a ∈ digitChars ∧ decimal s'
  end.

Ltac each_digit H :=
  unfold digitChars in H;
  repeat (apply elem_of_cons in H as [-> | H]);
  [.. | by apply elem_of_nil in H].

Lemma pretty_N_char_digit d : pretty_N_char d ∈ digitChars.
Proof.
  unfold pretty_N_char.
  repeat case_match; apply (bool_decide_unpack _); vm_compute; exact I.
Qed.

Lemma digitValue_pretty d :
  (d < 10)%N → digitValue 10 (pretty_N_char d) = Some (N.to_nat d).
Proof.
  intros Hd.
  assert (d = 0 ∨ d = 1 ∨ d = 2 ∨ d = 3 ∨ d = 4 ∨ d = 5 ∨ d = 6 ∨ d = 7
          ∨ d = 8 ∨ d = 9)%N as H by lia.
  repeat destruct H as [-> | H]; try subst d; reflexivity.
Qed.

Lemma decimal_pretty_go x s : decimal s → decimal (pretty_N_go x s).
Proof.
  revert s. induction (N.lt_wf_0 x) as [x _ IH]; intros s Hs.
  assert (x = 0 ∨ 0 < x)%N as [-> | Hx] by lia.
  - by rewrite pretty_N_go_0.
  - rewrite pretty_N_go_step by done. apply IH; [by apply N.div_lt |].
    split; [apply pretty_N_char_digit | done].
Qed.

Lemma digitsValue_pretty_go x :
  (0 < x)%N →
  ∃ k, ∀ acc s,
    digitsValue 10 acc (pretty_N_go x s)
    = digitsValue 10 (Some (default 0 acc * 10 ^ k + N.to_nat x)) s.
Proof.
  induction (N.lt_wf_0 x) as [x _ IH]; intros Hx.
  pose proof (N.div_mod x 10 ltac:(done)) as Hdm.
  pose proof (N.mod_lt x 10 ltac:(done)) as Hlt.
  assert (x `div` 10 = 0 ∨ 0 < x `div` 10)%N as [H0 | Hpos] by lia.
  - exists 1. intros acc s. rewrite pretty_N_go_step by done.
    rewrite H0, pretty_N_go_0. simpl digitsValue.
    rewrite digitValue_pretty by done. f_equal. f_equal. simpl. lia.
  - destruct (IH (x `div` 10)%N) as [k Hk]; [by apply N.div_lt | done |].
    exists (S k). intros acc s. rewrite pretty_N_go_step by done.
    rewrite Hk. simpl digitsValue. rewrite digitValue_pretty by done.
    f_equal. f_equal. cbn [default]. lia.
Qed.

Lemma pretty_positive_nat n :
  0 < n → pretty n = pretty_N_go (N.of_nat n) "".
Proof.
  intros Hn. unfold pretty, pretty_nat, pretty, pretty_N.
  by rewrite decide_False by lia.
Qed.

Lemma digitsValue_pretty n : 0 < n → digitsValue 10 None (pretty n) = Some n.
Proof.
  intros Hn. rewrite pretty_positive_nat by done.
  destruct (digitsValue_pretty_go (N.of_nat n)) as [k Hk]; [lia |].
  rewrite Hk. simpl. f_equal. lia.
Qed.

Lemma pretty_first n : 0 < n → ∃ a s, pretty n = String a s ∧ a ∈ digitChars ∧ decimal s.
Proof.
  intros Hn. rewrite pretty_positive_nat by done.
  pose proof (decimal_pretty_go (N.of_nat n) "" I) as Hd.
  rewrite pretty_N_go_step in * by lia.
  destruct (pretty_N_go _ _) as [|a s] eqn:E.
  - exfalso.
    assert (Hlen : ∀ x t, String.length t ≤ String.length (pretty_N_go x t)).
    { intros x. induction (N.lt_wf_0 x) as [x _ IH]; intros t.
      assert (x = 0 ∨ 0 < x)%N as [-> | Hx] by lia.
      - by rewrite pretty_N_go_0.
      - rewrite pretty_N_go_step by done.
        etrans; [| apply IH; by apply N.div_lt]. simpl. lia. }
    pose proof (Hlen (N.of_nat n `div` 10)%N
                  (String (pretty_N_char (N.of_nat n `mod` 10)) "")) as Hl.
    rewrite E in Hl. simpl in Hl. lia.
  - exists a, s. by destruct Hd.
Qed.

(** [parseInt] on a string of decimal digits reads all of it. *)
Lemma parseInt_decimal a s :
  a ∈ digitChars → decimal s →
  parseInt (String a s) = Z.of_nat <$> digitsValue 10 None (String a s).
Proof.
  intros Ha Hs. each_digit Ha; try reflexivity.
  destruct s as [|b s]; [reflexivity |].
  destruct Hs as [Hb _]. each_digit Hb; reflexivity.
Qed.

Lemma parseInt_pretty n : 0 < n → parseInt (pretty n) = Some (Z.of_nat n).
Proof.
  intros Hn. destruct (pretty_first n Hn) as (a & s & E & Ha & Hs).
  pose proof (digitsValue_pretty n Hn) as Hv. rewrite E in *.
  by rewrite parseInt_decimal, Hv.
Qed.

Lemma number_is_not_cancel n :
  0 < n → JS.eqb (JS.toLowerCase (pretty n)) "cancel" = false.
Proof.
  intros Hn. destruct (pretty_first n Hn) as (a & s & -> & Ha & _).
  apply bool_decide_eq_false_2. intros H.
  apply (f_equal (λ t, match t with String c _ => Some c | EmptyString => None end))
    in H.
  each_digit Ha; vm_compute in H; discriminate.
Qed.

Variable env : Env.

(** X23: the number shown in front of a repository in the list of
    [handleTypeSelection], typed back in the state [awaiting_repo], selects
    that repository: the conversation moves to [awaiting_task] with the
    repository stored, and one message is sent. *)
Theorem shown_number_selects_repo (userJid r : string) (idx : nat)
    (c : ConversationState) (w : World) :
  repos env !! idx = Some r →
  JS.truthy r = true →
  conversations w !! userJid = Some c →
  ∃ w',
    handleRepoSelection env userJid (pretty (idx + 1)) w = (Return tt, w') ∧
    conversations w' !! userJid
    = Some {| step := awaiting_task; agentType := agentType c; repo := Some r |} ∧
    sent w' = sent w ++
      [(userJid, "Great! What's the initial task for the agent?")] ∧
    registry w' = registry w ∧ created w' = created w.
Proof.
  intros Hr Htruthy Hconv. unfold handleRepoSelection.
  rewrite number_is_not_cancel by lia.
  rewrite parseInt_pretty by lia.
  pose proof (lookup_lt_Some _ _ _ Hr) as Hlt.
  replace (1 <=? Z.of_nat (idx + 1))%Z with true by (symmetry; apply Z.leb_le; lia).
  replace (Z.of_nat (idx + 1) <=? Z.of_nat (length (repos env)))%Z with true
    by (symmetry; apply Z.leb_le; lia).
  cbn [andb].
  replace (Z.to_nat (Z.of_nat (idx + 1) - 1)) with idx by lia.
  rewrite Hr. cbn [JS.truthyOpt]. rewrite Htruthy.
  eexists. split; [reflexivity |]. cbn.
  split; [by rewrite lookup_alter_eq, Hconv | done].
Qed.

End RepoSelectionProperties.

Section ManagerBotPropertiesScenario.

Import Persistence ManagerBot.

Lemma world0_operator : conversations world0 !! operator = Some asked_type.
Proof. reflexivity. Qed.

Lemma handleTaskInput_creates_witness :
  ∃ w',
    handleTaskInput env0 operator "fix the tests" (Some "proj-x") world0
    = (Return tt, w') ∧
    xmppUsers w' = [("swift-fox", "0123456789abcdef")] ∧
    Registry.get "clever-owl" (registry w')
    = Some (createdAgent env0 operator "proj-x" "swift-fox" "clever-owl") ∧
    jid (createdAgent env0 operator "proj-x" "swift-fox" "clever-owl")
    = "swift-fox@localhost" ∧
    workDir (createdAgent env0 operator "proj-x" "swift-fox" "clever-owl")
    = "/work/proj-x".
Proof.
  destruct (handleTaskInput_creates env0 operator "fix the tests" "proj-x"
              "swift-fox" "clever-owl" asked_type world0
              eq_refl eq_refl world0_operator eq_refl eq_refl)
    as (w' & Hrun & Hx & Hg & _).
  exists w'. split; [exact Hrun |]. split; [exact Hx |]. split; [exact Hg |].
  split; reflexivity.
Defined.

Lemma handleTaskInput_ends_dialogue_witness :
  ∃ w' message,
    handleTaskInput env0 operator "fix the tests" None world0 = (Return tt, w') ∧
    sent w' = [(operator, message)] ∧
    step <$> conversations w' !! operator = Some idle.
Proof.
  destruct (handleTaskInput_ends_dialogue env0 operator "fix the tests" None
              asked_type world0 world0_operator)
    as (w' & message & Hrun & Hs & Hc & _).
  exists w', message. split; [exact Hrun |]. split; [exact Hs | exact Hc].
Defined.

Lemma shown_number_selects_repo_witness :
  ∃ w',
    handleRepoSelection env0 operator "2" world0 = (Return tt, w') ∧
    repo <$> conversations w' !! operator = Some (Some "proj-y").
Proof.
  destruct (shown_number_selects_repo env0 operator "proj-y" 1 asked_type world0
              eq_refl eq_refl world0_operator)
    as (w' & Hrun & Hc & _).
  exists w'. split; [exact Hrun |]. by rewrite Hc.
Defined.

End ManagerBotPropertiesScenario.

Section OutboundQueueProperties.

Import AgentBotQueue.

Local Open Scope Z_scope.

(** The timestamps pushed so far, oldest first. *)
Definition stampsOf (s : Sender) : list Z := (delivered s).*1.

(** Any eleven timestamps in a row span the rate-limit window or more. *)
Definition spaced (l : list Z) : Prop :=
  ∀ i t t',
    l !! i = Some t → l !! (i + MAX_MESSAGES_PER_SECOND)%nat = Some t' →
    t + RATE_LIMIT_WINDOW_MS ≤ t'.

Fixpoint ascending (l : list Z) : Prop :=
  match l with
  | [] => True
  | t :: l' => Forall (λ u, t ≤ u) l' ∧ ascending l'
  end.

Lemma ascending_snoc l x :
  ascending l → Forall (λ t, t ≤ x) l → ascending (l ++ [x]).
Proof.
  induction l as [|a l IH]; simpl; [by repeat constructor |].
  intros [Ha Hl] Hx. apply Forall_cons in Hx as [Hax Hlx]. split.
  - apply Forall_app. split; [done | by repeat constructor].
  - by apply IH.
Qed.

Lemma ascending_app_r d k : ascending (d ++ k) → ascending k.
Proof. induction d as [|a d IH]; simpl; [done | intros [_ H]; by apply IH]. Qed.

(** The filter of the pass drops a prefix of an ascending list. *)
Lemma filter_window now l :
  ascending l →
  ∃ dropped,
    l = dropped ++ filter (λ ts, now - ts < RATE_LIMIT_WINDOW_MS) l ∧
    Forall (λ t, t + RATE_LIMIT_WINDOW_MS ≤ now) dropped.
Proof.
  unfold RATE_LIMIT_WINDOW_MS.
  induction l as [|a l IH]; simpl; [intros _; by exists [] |].
  intros [Ha Hl]. destruct (decide (now - a < 1000)) as [Hin | Hout].
  - exists []. split; [| done]. simpl. symmetry. apply filter_all.
    intros x [-> | Hx]%elem_of_cons; [done |].
    rewrite Forall_forall in Ha. specialize (Ha x Hx). lia.
  - destruct (IH Hl) as (d & Hd & Hold). exists (a :: d).
    rewrite filter_cons_False by done. split; [simpl; by f_equal |].
    apply Forall_cons. split; [lia | done].
Qed.

(** What the passes keep true of the sending side. *)
Record rateInvariant (s : Sender) : Prop := {
  r_ascending : ascending (messageTimestamps s);
  r_past : Forall (λ t, t ≤ clock s) (messageTimestamps s);
  r_window :
    ∃ old, stampsOf s = old ++ messageTimestamps s ∧
           Forall (λ t, t + RATE_LIMIT_WINDOW_MS ≤ clock s) old;
  r_spaced : spaced (stampsOf s);
}.

Lemma rateInvariant_started time : rateInvariant (started time).
Proof.
  split; simpl; try done. by exists [].
Qed.

Lemma Forall_le_mono (l : list Z) (a b : Z) (k : Z) :
  a ≤ b → Forall (λ t, t + k ≤ a) l → Forall (λ t, t + k ≤ b) l.
Proof.
  intros Hab H. eapply Forall_impl; [exact H |]. intros t Ht. simpl in Ht. lia.
Qed.

(** The state is carried over the awaits of a pass: the clock moves on
    and the timestamps are the filtered ones. *)
Lemma rateInvariant_resume e time queue stamps s old :
  clock s ≤ time →
  ascending stamps →
  Forall (λ t, t ≤ time) stamps →
  stampsOf s = old ++ stamps →
  Forall (λ t, t + RATE_LIMIT_WINDOW_MS ≤ time) old →
  spaced (stampsOf s) →
  rateInvariant (resume e time queue stamps (delivered s) s).
Proof.
  intros Htime Hasc Hpast Hold Hwin Hsp. split; simpl; try done.
  by exists old.
Qed.

Lemma rateInvariant_sendNext e now stamps s old :
  clock s ≤ now →
  ascending stamps →
  Forall (λ t, t ≤ now) stamps →
  stampsOf s = old ++ stamps →
  Forall (λ t, t + RATE_LIMIT_WINDOW_MS ≤ now) old →
  spaced (stampsOf s) →
  (length stamps < MAX_MESSAGES_PER_SECOND)%nat →
  rateInvariant (sendNext e now stamps s).
Proof.
  intros Hnow Hasc Hpast Hold Hwin Hsp Hlen. unfold sendNext.
  destruct (messageQueue s) as [|message rest];
    [by apply (rateInvariant_resume e _ _ stamps s old) |].
  destruct (JS.truthy message);
    [| by apply (rateInvariant_resume e _ _ stamps s old)].
  destruct (sendOk e).
  - pose proof (N2Z.is_nonneg (sendTime e)) as Hpos.
    set (stamp := now + Z.of_N (sendTime e)).
    split; simpl.
    + apply ascending_snoc; [done |].
      eapply Forall_impl; [exact Hpast |]. intros t Ht. simpl in Ht. lia.
    + apply Forall_app. split.
      * eapply Forall_impl; [exact Hpast |]. intros t Ht. simpl in Ht. lia.
      * repeat constructor. lia.
    + exists old. split.
      * unfold stampsOf in *. simpl. rewrite fmap_app, Hold. simpl.
        by rewrite <- app_assoc.
      * apply (Forall_le_mono _ now); [lia | done].
    + unfold stampsOf in *. simpl. rewrite fmap_app. simpl.
      intros i t t' Hi Hj.
      destruct (decide (i + MAX_MESSAGES_PER_SECOND < length (delivered s).*1)%nat)
        as [Hlt | Hge].
      * rewrite lookup_app_l in Hj by done.
        rewrite lookup_app_l in Hi by lia. by apply (Hsp i).
      * assert (Hj' : (i + MAX_MESSAGES_PER_SECOND)%nat = length (delivered s).*1).
        { apply lookup_lt_Some in Hj. rewrite length_app in Hj. simpl in Hj. lia. }
        rewrite Hj' in Hj. rewrite list_lookup_middle in Hj by done.
        injection Hj as <-.
        assert (Hi' : old !! i = Some t).
        { rewrite Hold in Hi. rewrite Hold, length_app in Hj'.
          unfold MAX_MESSAGES_PER_SECOND in *.
          rewrite lookup_app_l in Hi by (rewrite length_app; lia).
          rewrite lookup_app_l in Hi by lia. done. }
        rewrite Forall_forall in Hwin.
        pose proof (Hwin t (list_elem_of_lookup_2 _ _ _ Hi')). simpl in *. lia.
  - pose proof (N2Z.is_nonneg (sendTime e)).
    pose proof (N2Z.is_nonneg (overrun e)).
    apply (rateInvariant_resume e _ _ stamps s old); try done; try lia.
    + eapply Forall_impl; [exact Hpast |]. intros t Ht. simpl in Ht. lia.
    + apply (Forall_le_mono _ now); [lia | done].
Qed.

Lemma rateInvariant_pass e s : rateInvariant s → rateInvariant (pass e s).
Proof.
  intros [Hasc Hpast (old & Hold & Hwin) Hsp]. unfold pass.
  pose proof (N2Z.is_nonneg (lag e)) as Hlag.
  set (now := clock s + Z.of_N (lag e)).
  destruct (filter_window now _ Hasc) as (dropped & Hd & Hdropped).
  set (stamps := filter (λ ts, now - ts < RATE_LIMIT_WINDOW_MS)
                   (messageTimestamps s)) in *.
  assert (Hasc' : ascending stamps).
  { apply (ascending_app_r dropped). by rewrite <- Hd. }
  assert (Hpast' : Forall (λ t, t ≤ now) stamps).
  { apply Forall_forall. intros t Ht. apply list_elem_of_filter in Ht as [_ Ht].
    rewrite Forall_forall in Hpast. specialize (Hpast t Ht). simpl in Hpast. lia. }
  assert (Hold' : stampsOf s = (old ++ dropped) ++ stamps).
  { rewrite Hold, Hd at 1. by rewrite app_assoc. }
  assert (Hwin' : Forall (λ t, t + RATE_LIMIT_WINDOW_MS ≤ now) (old ++ dropped)).
  { apply Forall_app. split; [| done]. apply (Forall_le_mono _ (clock s)); [lia | done]. }
  destruct (MAX_MESSAGES_PER_SECOND <=? length stamps)%nat eqn:Hfull.
  - apply Nat.leb_le in Hfull.
    destruct stamps as [|oldest stamps'] eqn:Hstamps;
      [unfold MAX_MESSAGES_PER_SECOND in Hfull; simpl in Hfull; lia |].
    change (default 0 (head (oldest :: stamps'))) with oldest.
    assert (Hin : now - oldest < RATE_LIMIT_WINDOW_MS).
    { assert (Ho : oldest ∈ filter (λ ts, now - ts < RATE_LIMIT_WINDOW_MS)
                               (messageTimestamps s)).
      { fold stamps. rewrite Hstamps. apply elem_of_cons. by left. }
      by apply list_elem_of_filter in Ho as [Ho _]. }
    replace (0 <? RATE_LIMIT_WINDOW_MS - (now - oldest)) with true
      by (symmetry; apply Z.ltb_lt; lia).
    pose proof (N2Z.is_nonneg (overrun e)).
    apply (rateInvariant_resume e _ _ _ s (old ++ dropped)); try done.
    + lia.
    + eapply Forall_impl; [exact Hpast' |]. intros t Ht. simpl in Ht. lia.
    + apply (Forall_le_mono _ now); [lia | done].
  - apply Nat.leb_gt in Hfull.
    apply (rateInvariant_sendNext e now stamps s (old ++ dropped)); try done.
    lia.
Qed.

Lemma rateInvariant_step e s : rateInvariant s → rateInvariant (step e s).
Proof.
  intros Hs. unfold step.
  destruct ((0 <? length (messageQueue s))%nat && isRunning s);
    [by apply rateInvariant_pass |].
  destruct Hs as [Hasc Hpast (old & Hold & Hwin) Hsp].
  pose proof (N2Z.is_nonneg (lag e)) as Hlag.
  split; simpl; try done.
  - eapply Forall_impl; [exact Hpast |]. intros t Ht. simpl in Ht. lia.
  - exists old. split; [done |]. apply (Forall_le_mono _ (clock s)); [lia | done].
Qed.

Lemma rateInvariant_run passes s : rateInvariant s → rateInvariant (run passes s).
Proof.
  revert s. induction passes as [|e passes IH]; intros s Hs; [done |].
  apply IH. by apply rateInvariant_step.
Qed.

(** X24: the rate limit of [processMessageQueue].  For a handler started
    at any time and any course of events afterwards (time going by, sends
    that succeed or throw, timers that fire late, chunks arriving, the
    handler being stopped), the timestamps of any eleven accepted sends in a
    row span one second or more: no more than ten sends are stamped within
    any window shorter than a second. *)
Theorem sends_are_rate_limited (time : Z) (passes : list Pass) :
  Forall (λ p, p.1 + RATE_LIMIT_WINDOW_MS ≤ p.2)
    (zip (stampsOf (run passes (started time)))
         (drop MAX_MESSAGES_PER_SECOND (stampsOf (run passes (started time))))).
Proof.
  pose proof (r_spaced _ (rateInvariant_run passes _ (rateInvariant_started time)))
    as Hsp.
  apply Forall_forall. intros p [i Hi]%list_elem_of_lookup_1.
  apply lookup_zip_with_Some in Hi as (t & t' & -> & Ht & Ht').
  rewrite lookup_drop in Ht'. simpl. apply (Hsp i); [done |].
  by rewrite Nat.add_comm.
Qed.

(** The messages that are not the empty string. *)
Definition nonEmpty (l : list string) : list string :=
  filter (λ m, JS.truthy m = true) l.

Lemma nonEmpty_app l1 l2 : nonEmpty (l1 ++ l2) = nonEmpty l1 ++ nonEmpty l2.
Proof. apply filter_app. Qed.

(** The chunks pushed during the passes. *)
Definition arrived (passes : list Pass) : list string :=
  concat (arrivals <$> passes).

Lemma order_step e s :
  (delivered (step e s)).*2 ++ nonEmpty (messageQueue (step e s))
  = (delivered s).*2 ++ nonEmpty (messageQueue s ++ arrivals e).
Proof.
  unfold step.
  destruct ((0 <? length (messageQueue s))%nat && isRunning s); [| done].
  unfold pass.
  set (now := clock s + Z.of_N (lag e)).
  set (stamps := filter _ _).
  assert (Hsend : (delivered (sendNext e now stamps s)).*2
                  ++ nonEmpty (messageQueue (sendNext e now stamps s))
                  = (delivered s).*2 ++ nonEmpty (messageQueue s ++ arrivals e)).
  { unfold sendNext. destruct (messageQueue s) as [|message rest]; [done |].
    destruct (JS.truthy message) eqn:Htruthy.
    - destruct (sendOk e); [| done]. simpl.
      rewrite fmap_app, <- app_assoc. simpl. f_equal.
      unfold nonEmpty. by rewrite (filter_cons_True _ message).
    - simpl. f_equal. unfold nonEmpty.
      rewrite (filter_cons_False _ message); [done |]. by rewrite Htruthy. }
  destruct (MAX_MESSAGES_PER_SECOND <=? length stamps)%nat; [| exact Hsend].
  destruct (0 <? _); [done | exact Hsend].
Qed.

Lemma order_run passes s :
  (delivered (run passes s)).*2 ++ nonEmpty (messageQueue (run passes s))
  = (delivered s).*2 ++ nonEmpty (messageQueue s ++ arrived passes).
Proof.
  revert s. induction passes as [|e passes IH]; intros s.
  - unfold arrived. simpl. by rewrite app_nil_r.
  - change (run (e :: passes) s) with (run passes (step e s)).
    rewrite IH. rewrite nonEmpty_app, app_assoc, order_step.
    unfold arrived. simpl. rewrite !nonEmpty_app. by rewrite !app_assoc.
Qed.

(** X25: the outbound queue loses and reorders nothing.  For a handler
    that was just started and any course of events, the messages accepted
    by [xmppClient.sendMessage], followed by the non-empty messages still
    queued, are the non-empty chunks pushed by [sendToUser], in the order of
    their arrival: a send that throws puts its message back at the front, and
    only the empty string is dropped. *)
Theorem outbound_queue_keeps_order (time : Z) (passes : list Pass) :
  (delivered (run passes (started time))).*2
  ++ nonEmpty (messageQueue (run passes (started time)))
  = nonEmpty (arrived passes).
Proof. by rewrite order_run. Qed.

End OutboundQueueProperties.

Section OutputReadingProperties.

Import ClaudeCodeOutput.

Variable parse : string → option ClaudeCode.ClaudeCodeEvent.

Lemma split_nonempty sep s : split sep s ≠ [].
Proof.
  destruct s as [|a s]; simpl; [done |].
  destruct (Ascii.eqb a sep); [done |]. by destruct (split sep s).
Qed.

(** The pieces of [s ++ c]: the complete pieces of [s], then the pieces of
    the last piece of [s] followed by [c]. *)
Lemma split_append sep s c :
  split sep (JS.append s c)
  = removelast (split sep s)
    ++ split sep (JS.append (default EmptyString (last (split sep s))) c).
Proof.
  induction s as [|a s IH]; [reflexivity |].
  cbn [JS.append split].
  pose proof (split_nonempty sep s) as Hne.
  destruct (Ascii.eqb a sep) eqn:Ha.
  - rewrite IH. destruct (split sep s) as [|p l]; [done |]. reflexivity.
  - rewrite IH. destruct (split sep s) as [|p [|q l]]; [done | |].
    + simpl. by rewrite Ha.
    + reflexivity.
Qed.

(** The complete lines of all the reads and the buffer left, by the loop
    of [readAll]. *)
Fixpoint linesOf (reads : list string) (buffer : string) : list string * string :=
  match reads with
  | [] => ([], buffer)
  | value :: reads' =>
      let '(lines, buffer') := readChunk value buffer in
      let '(lines', buffer'') := linesOf reads' buffer' in
      (lines ++ lines', buffer'')
  end.

Lemma removelast_app_nonempty {A} (l1 l2 : list A) :
  l2 ≠ [] → removelast (l1 ++ l2) = l1 ++ removelast l2.
Proof.
  intros H. induction l1 as [|a l1 IH]; [done |].
  simpl. rewrite IH. destruct (l1 ++ l2) eqn:E; [| done].
  apply app_eq_nil in E as [_ ?]. done.
Qed.

Lemma last_app_nonempty {A} (l1 l2 : list A) :
  l2 ≠ [] → last (l1 ++ l2) = last l2.
Proof.
  intros H. destruct l2 as [|b l2 _] using rev_ind; [done |].
  by rewrite app_assoc, !last_snoc.
Qed.

(** A piece holds no separator. *)
Lemma split_pieces sep s : Forall (λ p, split sep p = [p]) (split sep s).
Proof.
  induction s as [|a s IH]; simpl; [by repeat constructor |].
  destruct (Ascii.eqb a sep) eqn:Ha; [by constructor |].
  destruct (split sep s) as [|p l]; [repeat constructor; simpl; by rewrite Ha |].
  apply Forall_cons in IH as [Hp Hl]. constructor; [| done].
  simpl. by rewrite Ha, Hp.
Qed.

Lemma split_last sep s :
  split sep (default EmptyString (last (split sep s)))
  = [default EmptyString (last (split sep s))].
Proof.
  pose proof (split_pieces sep s) as H.
  destruct (last (split sep s)) as [p|] eqn:E; [| reflexivity].
  rewrite Forall_forall in H. apply H. by apply last_Some_elem_of.
Qed.

Lemma linesOf_split reads buffer :
  split AgentBot.newline buffer = [buffer] →
  linesOf reads buffer
  = (removelast (split AgentBot.newline (JS.append buffer (JS.concat reads))),
     default EmptyString
       (last (split AgentBot.newline (JS.append buffer (JS.concat reads))))).
Proof.
  revert buffer. induction reads as [|value reads IH]; intros buffer Hbuffer.
  - cbn [linesOf JS.concat]. rewrite append_empty_r, Hbuffer. reflexivity.
  - cbn [linesOf JS.concat]. unfold readChunk.
    rewrite IH by apply split_last.
    rewrite <- append_assoc.
    rewrite (split_append _ (JS.append buffer value)).
    pose proof (split_nonempty AgentBot.newline
      (JS.append (default EmptyString
         (last (split AgentBot.newline (JS.append buffer value))))
         (JS.concat reads))) as Hne.
    by rewrite removelast_app_nonempty, last_app_nonempty.
Qed.

Lemma handleLines_app lines1 lines2 p :
  handleLines parse (lines1 ++ lines2) p
  = let '(chunks, p') := handleLines parse lines1 p in
    let '(chunks', p'') := handleLines parse lines2 p' in
    (chunks ++ chunks', p'').
Proof.
  revert p. induction lines1 as [|line lines1 IH]; intros p.
  - simpl. by destruct (handleLines parse lines2 p).
  - cbn [app handleLines].
    destruct (negb (JS.truthy (JS.trim line))); [apply IH |].
    destruct (ClaudeCode.handleLine (parse line) p) as [chunks p'].
    rewrite IH. destruct (handleLines parse lines1 p') as [chunks1 p1].
    destruct (handleLines parse lines2 p1) as [chunks2 p2].
    by rewrite app_assoc.
Qed.

Lemma readAll_linesOf reads buffer p :
  ClaudeCodeOutput.readAll parse reads buffer p
  = handleLines parse (fst (linesOf reads buffer)) p.
Proof.
  revert buffer p. induction reads as [|value reads IH]; intros buffer p;
    [reflexivity |].
  cbn [ClaudeCodeOutput.readAll linesOf].
  destruct (readChunk value buffer) as [lines buffer'].
  destruct (linesOf reads buffer') as [lines' buffer''] eqn:E.
  cbn [fst]. rewrite handleLines_app.
  destruct (handleLines parse lines p) as [chunks p'].
  rewrite IH, E. reflexivity.
Qed.

(** X26: the output iterator reads by lines, wherever the reads cut the
    stream.  Run to the end of the stream, it yields what handling the
    complete lines of the whole output yields, and leaves the process in the
    same state; the text after the last line feed is never decoded. *)
Theorem output_is_read_by_lines (reads : list string) (p : ClaudeCode.Process) :
  ClaudeCodeOutput.readAll parse reads EmptyString p
  = handleLines parse
      (removelast (split AgentBot.newline (JS.concat reads))) p.
Proof.
  rewrite readAll_linesOf, linesOf_split by reflexivity. reflexivity.
Qed.

End OutputReadingProperties.

Section KillAgentProperties.

Import Persistence ManagerBot.

(** X27: [killAgent] never throws and sends exactly one message.  For
    an id that is not registered nothing else changes.  For a registered
    agent whose XMPP account is deleted, the agent is gone from the registry
    and from the persisted list.  When the deletion of the account throws,
    the agent stays registered with the status [stopping]: nothing sets it
    back.  The other agents are untouched in every case. *)
Theorem killAgent_outcome (deleteUserError : option string)
    (userJid agentId : string) (w : World) :
  ∃ w' message,
    killAgent deleteUserError userJid agentId w = (Return tt, w') ∧
    sent w' = sent w ++ [(userJid, message)] ∧
    conversations w' = conversations w ∧ created w' = created w ∧
    (∀ other, other ≠ agentId →
       Registry.get other (registry w') = Registry.get other (registry w)) ∧
    match Registry.get agentId (registry w), deleteUserError with
    | None, _ =>
        message = "Agent not found: " +:+ agentId ∧
        registry w' = registry w ∧ xmppUsers w' = xmppUsers w
    | Some a, None =>
        message = "Agent " +:+ agentId +:+ " killed and removed." ∧
        Registry.get agentId (registry w') = None ∧
        getAgent agentId (Registry.persistence (registry w')) = None ∧
        xmppUsers w' = filter (λ u, u.1 ≠ localPart (jid a)) (xmppUsers w)
    | Some a, Some e =>
        message = "Failed to kill agent: " +:+ e ∧
        Registry.get agentId (registry w') = Some (withStatus stopping a) ∧
        xmppUsers w' = xmppUsers w
    end.
Proof.
  unfold killAgent, bind, gets.
  destruct (Registry.get agentId (registry w)) as [a|] eqn:Hget.
  - unfold tryCatch, bind, onRegistry.
    rewrite (update_known_id _ _ _ _ Hget). cbn.
    destruct deleteUserError as [e|]; cbn.
    + eexists _, _. split; [reflexivity |]. cbn. repeat split.
      * intros other Hother. unfold Registry.get. cbn.
        by apply lookup_insert_ne.
      * unfold Registry.get. cbn. apply lookup_insert_eq.
    + eexists _, _. split; [reflexivity |]. cbn. repeat split.
      * intros other Hother. unfold Registry.get. cbn.
        rewrite lookup_delete_ne by done. by apply lookup_insert_ne.
      * unfold Registry.get. cbn. apply lookup_delete_eq.
      * unfold getAgent, removeAgent. cbn. rewrite findAgent_removed.
        by rewrite bool_decide_eq_true_2.
  - eexists _, _. split; [reflexivity |]. cbn. by repeat split.
Qed.

End KillAgentProperties.

Section XMPPClientProperties.

Import XMPPClient.

Local Open Scope N_scope.

(** X28: the delay of [scheduleReconnect] is one second at the first
    attempt, doubles with each attempt up to the sixth, is sixty seconds
    from then on, and never decreases as the attempts grow. *)
Theorem reconnect_delay_backs_off (attempts later : N) :
  (1000 ≤ reconnectDelay attempts ≤ maxReconnectDelay) ∧
  reconnectDelay 0 = 1000 ∧
  (attempts < 5 → reconnectDelay (attempts + 1) = 2 * reconnectDelay attempts) ∧
  (6 ≤ attempts → reconnectDelay attempts = maxReconnectDelay) ∧
  (attempts ≤ later → reconnectDelay attempts ≤ reconnectDelay later).
Proof.
  unfold reconnectDelay, maxReconnectDelay.
  assert (Hpos : ∀ n, 1 ≤ 2 ^ n).
  { intros n. pose proof (N.pow_nonzero 2 n). lia. }
  pose proof (Hpos attempts) as H1.
  split; [lia |]. split; [reflexivity |]. split; [| split].
  - intros H5. rewrite N.pow_add_r. change (2 ^ 1) with 2.
    assert (2 ^ attempts ≤ 2 ^ 4) by (apply N.pow_le_mono_r; lia).
    change (2 ^ 4) with 16 in *. lia.
  - intros H6.
    assert (2 ^ 6 ≤ 2 ^ attempts) by (apply N.pow_le_mono_r; lia).
    change (2 ^ 6) with 64 in *. lia.
  - intros Hle.
    assert (2 ^ attempts ≤ 2 ^ later) by (apply N.pow_le_mono_r; lia).
    lia.
Qed.

Local Close Scope N_scope.

Lemma flushLoop_partition sendErrors messages c :
  ∃ sent requeued,
    wire (flushLoop sendErrors messages c) = wire c ++ sent ∧
    messageQueue (flushLoop sendErrors messages c) = messageQueue c ++ requeued ∧
    sent `sublist_of` messages ∧ requeued `sublist_of` messages ∧
    sent ++ requeued ≡ₚ messages.
Proof.
  revert sendErrors c. induction messages as [|m messages IH]; intros sendErrors c.
  - exists [], []. simpl. by rewrite !app_nil_r.
  - cbn [flushLoop].
    match goal with
    | |- context [flushLoop _ _ ?c0] => set (c1 := c0)
    end.
    destruct (IH (tail sendErrors) c1) as (sent & requeued & Hw & Hq & Hs & Hr & Hp).
    assert (Hcases :
      (wire c1 = wire c ++ [m] ∧ messageQueue c1 = messageQueue c) ∨
      (wire c1 = wire c ∧ messageQueue c1 = messageQueue c ++ [m])).
    { subst c1. unfold sendMessage.
      destruct (_isConnected c); cbn [negb]; [| by right].
      destruct (hasClient c); cbn [negb]; [| by right].
      destruct (default None (head sendErrors)); [by right | by left]. }
    destruct Hcases as [[Hw1 Hq1] | [Hw1 Hq1]].
    + exists (m :: sent), requeued. rewrite Hw, Hq, Hw1, Hq1.
      rewrite <- app_assoc. repeat split; try done.
      * by apply sublist_skip.
      * by apply sublist_cons.
      * simpl. by f_equiv.
    + exists sent, (m :: requeued). rewrite Hw, Hq, Hw1, Hq1.
      rewrite <- app_assoc. repeat split; try done.
      * by apply sublist_cons.
      * by apply sublist_skip.
      * rewrite <- Permutation_middle. by f_equiv.
Qed.

(** X29: [flushMessageQueue] loses nothing.  Whatever the state of the
    connection and whichever sends throw, each queued message is either
    handed to the connection or queued again, once; the messages sent and the
    messages queued again keep the order they had in the queue. *)
Theorem flush_loses_nothing (sendErrors : list (option string)) (c : Client) :
  ∃ sent,
    wire (flushMessageQueue sendErrors c) = wire c ++ sent ∧
    sent `sublist_of` messageQueue c ∧
    messageQueue (flushMessageQueue sendErrors c) `sublist_of` messageQueue c ∧
    sent ++ messageQueue (flushMessageQueue sendErrors c) ≡ₚ messageQueue c.
Proof.
  unfold flushMessageQueue.
  destruct (messageQueue c) as [|m l] eqn:Hq.
  - exists []. rewrite Hq, app_nil_r. done.
  - destruct (flushLoop_partition sendErrors (m :: l)
                {| _isConnected := _isConnected c; hasClient := hasClient c;
                   messageQueue := []; wire := wire c |})
      as (sent & requeued & Hw & Hr & Hs1 & Hs2 & Hp).
    exists sent. rewrite Hw, Hr. done.
Qed.

End XMPPClientProperties.

Section MessageQueueProperties.

Import MessageQueue.

Lemma shiftWhile_drop fuel maxSize l :
  length l ≤ fuel → shiftWhile fuel maxSize l = drop (length l - maxSize) l.
Proof.
  revert l. induction fuel as [|fuel IH]; intros l Hl.
  - destruct l; [done | simpl in Hl; lia].
  - simpl. destruct (Nat.ltb_spec maxSize (length l)) as [Hlt | Hge].
    + destruct l as [|a l]; [simpl in Hlt; lia |]. simpl in *.
      rewrite IH by lia.
      replace (S (length l) - maxSize) with (S (length l - maxSize)) by lia.
      reflexivity.
    + replace (length l - maxSize) with 0 by lia. reflexivity.
Qed.

(** X30: [enqueue] keeps the newest messages within the size limit.  The
    queue afterwards is the end of the pruned queue with the new message
    pushed on it, cut to [maxSize] messages. *)
Theorem enqueue_keeps_newest (now stamp : Z) (recipient text : string) (q : Queue) :
  let kept := filter (λ msg, (now - timestamp msg < maxAgeMs q)%Z) (queue q) in
  let pushed :=
    kept ++ [{| to := recipient; message := text; timestamp := stamp |}] in
  queue (enqueue now stamp recipient text q)
  = drop (length pushed - maxSize q) pushed ∧
  length (queue (enqueue now stamp recipient text q))
  = Nat.min (length pushed) (maxSize q).
Proof.
  intros kept pushed. unfold enqueue. cbn [queue prune snd].
  fold kept. fold pushed. rewrite shiftWhile_drop by done.
  split; [done |]. rewrite list.length_drop. lia.
Qed.

End MessageQueueProperties.
